(** * adventurelib: the command interpreter, embedded and verified

    A shallow embedding of the command-interpretation core of
    [adventurelib.py]: the pattern compiler ([Pattern.__init__]), the context
    resolver ([set_context], [Pattern.is_active]), the word allocator
    ([Pattern.word_combinations]), the matcher ([Pattern.match]), the
    registry ([_register], [commands], the prologue of [start]) and the
    dispatcher ([_handle_command]).

    Conventions of the embedding.
    - A Python [str] is a [string] of ASCII text: the letters are [A-Z] and
      [a-z]. Text with other characters is not represented by [string];
      the pattern compiler, which accepts letters of any alphabet, is
      embedded a second time for such text in the module [Text], and
      agrees with the one on [string] on ASCII text.
    - A Python [int] is a [Z]; a [list] or a [tuple] is a [list]; a [dict]
      with [str] keys is a [gmap string _]; a [set] of [str] is a
      [gset string].
    - A function that can raise returns a [result]; the module globals
      [current_context] and [commands] are passed explicitly.
    - A generator is the list of the values it yields, in the order of the
      yields. *)

From Stdlib Require Import ZArith Ascii String List Sorted Lia.
From stdpp Require Import gmap strings list fin_maps sorting.

Local Open Scope Z_scope.

(** ** Python string primitives (ASCII) *)

Module Str.

Definition code (c : ascii) : N := N_of_ascii c.

Definition char_isupper (c : ascii) : bool :=
  ((65 <=? code c) && (code c <=? 90))%N.

Definition char_islower (c : ascii) : bool :=
  ((97 <=? code c) && (code c <=? 122))%N.

Definition char_isalpha (c : ascii) : bool :=
  char_isupper c || char_islower c.

(** [str.isspace] on the ASCII range: TAB, LF, VT, FF, CR, the four
    separators FS, GS, RS, US, and the space. *)
Definition char_isspace (c : ascii) : bool :=
  (((9 <=? code c) && (code c <=? 13)) || ((28 <=? code c) && (code c <=? 32)))%N.

Definition char_lower (c : ascii) : ascii :=
  if char_isupper c then ascii_of_N (code c + 32) else c.

Definition chars (s : string) : list ascii := list_ascii_of_string s.

(** [s.lower()] *)
Definition lower (s : string) : string :=
  string_of_list_ascii (map char_lower (chars s)).

(** [s.isalpha()]: every character is a letter and there is at least one. *)
Definition isalpha (s : string) : bool :=
  negb (String.eqb s "") && forallb char_isalpha (chars s).

(** [s.isupper()]: no lowercase letter and at least one uppercase one. *)
Definition isupper (s : string) : bool :=
  negb (existsb char_islower (chars s)) && existsb char_isupper (chars s).

(** [s.islower()]: no uppercase letter and at least one lowercase one. *)
Definition islower (s : string) : bool :=
  negb (existsb char_isupper (chars s)) && existsb char_islower (chars s).

(** The word collected so far, if any, becomes an item of the result. *)
Definition emit (word : list ascii) : list string :=
  match word with
  | [] => []
  | _ => [string_of_list_ascii word]
  end.

Fixpoint split_from (word : list ascii) (s : list ascii) : list string :=
  match s with
  | [] => emit word
  | c :: s' =>
      if char_isspace c then emit word ++ split_from [] s'
      else split_from (word ++ [c]) s'
  end.

(** [s.split()]: the maximal runs of non-whitespace characters. *)
Definition split (s : string) : list string := split_from [] (chars s).

(** [sep.join(ws)] *)
Fixpoint join (sep : string) (ws : list string) : string :=
  match ws with
  | [] => ""
  | [w] => w
  | w :: ws' => w +:+ sep +:+ join sep ws'
  end.

(** [s[:n]] for [n >= 0]: the first [n] characters, or all of [s]. *)
Definition slice_to (n : nat) (s : string) : string := String.substring 0 n s.

Definition len (s : string) : nat := String.length s.

End Str.


(** ** Exceptions and results *)

(** Why an [InvalidCommand] was raised: the two messages of
    [Pattern.__init__] and the one of [_register]; each names the command
    template. *)
Inductive invalid_command : Type :=
  | LettersOnly (command : string)
  | MixedCase (command : string)
  | WrongSignature (func_name : string) (command : string).

Inductive exn : Type :=
  | InvalidCommand (why : invalid_command)
  | InvalidContext
  | RecursionError.

Inductive result (A : Type) : Type :=
  | Return (a : A)
  | Raise (e : exn).
Arguments Return {A} a.
Arguments Raise {A} e.

(** ** The current context *)

(** [current_context = 'default'] at import time; [None] only when game
    code assigns the global directly. *)
Definition initial_context : option string := Some "default".

(** [set_context(new_context)], returning the new value of the global. *)
Definition set_context (new_context : string) : option string :=
  let new_context :=
    if negb (String.eqb new_context "default") then "default." +:+ new_context
    else new_context in
  Some new_context.

(** ** Patterns *)

(** An item of the compiled [match] list: a [str], or a [Placeholder]
    object with its [name]. *)
Inductive token : Type :=
  | Literal (w : string)
  | Placeholder (name : string).

Record Pattern : Type := mkPattern {
  orig_pattern : string;
  pattern_context : option string;
  placeholders : Z;
  argnames : list string;
  prefix : list string;
  pattern : list token;
  fixed : Z
}.

(** The [for w in words] loop of [Pattern.__init__], on the words still to
    read, with the locals [match], [argnames] and [self.placeholders]. *)
Fixpoint compile_words (command : string) (words : list string)
    (match_ : list token) (argnames : list string) (placeholders : Z)
    : result (list token * list string * Z) :=
  match words with
  | [] => Return (match_, argnames, placeholders)
  | w :: words' =>
      if negb (Str.isalpha w) then Raise (InvalidCommand (LettersOnly command))
      else if Str.isupper w then
        let arg := Str.lower w in
        compile_words command words' (match_ ++ [Placeholder arg]) (argnames ++ [arg])
          (placeholders + 1)
      else if Str.islower w then
        compile_words command words' (match_ ++ [Literal w]) argnames placeholders
      else Raise (InvalidCommand (MixedCase command))
  end.

(** The [for w in match] loop that fills [self.prefix], stopping at the
    first [Placeholder]. *)
Fixpoint prefix_loop (match_ : list token) (prefix : list string) : list string :=
  match match_ with
  | [] => prefix
  | Placeholder _ :: _ => prefix
  | Literal w :: match' => prefix_loop match' (prefix ++ [w])
  end.

(** [Pattern(pattern, context)] *)
Definition Pattern_init (command : string) (context : option string) : result Pattern :=
  let words := Str.split command in
  match compile_words command words [] [] 0 with
  | Raise e => Raise e
  | Return (match_, argnames, placeholders) =>
      let prefix := prefix_loop match_ [] in
      let pattern := drop (length prefix) match_ in
      Return {| orig_pattern := command;
                pattern_context := context;
                placeholders := placeholders;
                argnames := argnames;
                prefix := prefix;
                pattern := pattern;
                fixed := Z.of_nat (length pattern) - placeholders |}
  end.

(** ** The word allocator *)

(** The [while take > 0] loop of [word_combinations], on the [n] values
    [take = n, n-1, ..., 1] still to try; [rec] is the recursive call
    [Pattern.word_combinations]. *)
Fixpoint take_loop (rec : Z -> Z -> option (list (list Z)))
    (have placeholders other_groups : Z) (n : nat) : option (list (list Z)) :=
  match n with
  | O => Some []
  | S n' =>
      let take := Z.of_nat n in
      let remain := have - take in
      match (if have >=? placeholders - 1 then rec remain other_groups else Some []) with
      | None => None
      | Some combos =>
          match take_loop rec have placeholders other_groups n' with
          | None => None
          | Some later => Some (map (cons take) combos ++ later)
          end
      end
  end.

(** [Pattern.word_combinations(have, placeholders)] with a bound [depth] on
    the nesting of recursive calls; [None] when the bound is reached. *)
Fixpoint word_combinations_rec (depth : nat) (have placeholders : Z)
    : option (list (list Z)) :=
  match depth with
  | O => None
  | S depth' =>
      if have <? placeholders then Some []
      else if have =? placeholders then Some [repeat 1 (Z.to_nat placeholders)]
      else if placeholders =? 1 then Some [[have]]
      else
        let other_groups := placeholders - 1 in
        let take := have - other_groups in
        take_loop (word_combinations_rec depth') have placeholders other_groups
          (Z.to_nat take)
  end.

(** The generator as called by [match]. For [placeholders >= 1] the calls
    nest [placeholders] deep, so the bound below is never reached
    ([word_combinations_total]); for [placeholders <= 0 < have - placeholders]
    the Python recursion does not bottom out, and the result here is [None]
    (the tuples yielded before the interpreter gives up are not modelled). *)
Definition word_combinations (have placeholders : Z) : option (list (list Z)) :=
  word_combinations_rec (S (Z.to_nat placeholders)) have placeholders.

(** ** The context resolver *)

(** [Pattern.is_active(self)], reading the global [current_context]. *)
Definition is_active (current_context : option string) (self : Pattern) : result bool :=
  match current_context with
  | None => Raise InvalidContext
  | Some current =>
      match pattern_context self with
      | Some context =>
          let context :=
            if negb (String.eqb context "default") then "default." +:+ context
            else context in
          if String.eqb context current then Return true
          else
            let uppercontext := context +:+ "." in
            let context_len := (Str.len context + 1)%nat in
            if String.eqb uppercontext (Str.slice_to context_len current) then Return true
            else Return false
      | None => Return false
      end
  end.

(** ** The matcher *)

(** How one pass of the [for cword in self.pattern] loop ends: the [else]
    branch of the loop is reached, the loop is left by [break], or [next]
    raises [StopIteration]. *)
Inductive attempt : Type :=
  | Completed (matches : gmap string (list string))
  | Break
  | StopIteration.

(** [for _ in range(count): ws.append(next(inp))]: the words appended and
    the rest of the iterator, or [None] when [next] raises. *)
Fixpoint next_words (count : nat) (inp : list string) : option (list string * list string) :=
  match count with
  | O => Some ([], inp)
  | S count' =>
      match inp with
      | [] => None
      | w :: inp' =>
          match next_words count' inp' with
          | None => None
          | Some (ws, inp'') => Some (w :: ws, inp'')
          end
      end
  end.

(** The [for cword in self.pattern] loop, with the iterators [take] and
    [inp] and the dict [matches]. *)
Fixpoint try_combo (pattern : list token) (take : list Z) (inp : list string)
    (matches : gmap string (list string)) : attempt :=
  match pattern with
  | [] => Completed matches
  | Placeholder name :: pattern' =>
      match take with
      | [] => StopIteration
      | count :: take' =>
          match next_words (Z.to_nat count) inp with
          | None => StopIteration
          | Some (ws, inp') => try_combo pattern' take' inp' (<[name := ws]> matches)
          end
      end
  | Literal cword :: pattern' =>
      match inp with
      | [] => StopIteration
      | word :: inp' =>
          if negb (String.eqb cword word) then Break
          else try_combo pattern' take inp' matches
      end
  end.

(** The [for combo in self.word_combinations(...)] loop. *)
Fixpoint combos_loop (pattern : list token) (input_words : list string)
    (combos : list (list Z)) : option (gmap string string) :=
  match combos with
  | [] => None
  | combo :: combos' =>
      match try_combo pattern combo input_words ∅ with
      | Completed matches => Some (Str.join " " <$> matches)
      | Break | StopIteration => combos_loop pattern input_words combos'
      end
  end.

Definition truthy {A : Type} (l : list A) : bool :=
  match l with [] => false | _ => true end.

(** [Pattern.match(self, input_words)]: [Return None] is Python's [None],
    [Return (Some d)] the dict of captured groups. [Raise RecursionError]
    stands for a generator whose recursion does not bottom out; no pattern
    the module builds reaches it ([Pattern_match_returns]). *)
Definition Pattern_match (current_context : option string) (self : Pattern)
    (input_words : list string) : result (option (gmap string string)) :=
  match is_active current_context self with
  | Raise e => Raise e
  | Return active =>
      if negb active then Return None
      else if (length input_words <? length (argnames self))%nat then Return None
      else if negb (bool_decide (take (length (prefix self)) input_words = prefix self))
      then Return None
      else
        let input_words := drop (length (prefix self)) input_words in
        if negb (truthy input_words) && negb (truthy (pattern self)) then Return (Some ∅)
        else if negb (Bool.eqb (truthy input_words) (truthy (pattern self))) then Return None
        else
          let have := Z.of_nat (length input_words) - fixed self in
          match word_combinations have (placeholders self) with
          | None => Raise RecursionError
          | Some combos => Return (combos_loop (pattern self) input_words combos)
          end
  end.

(** ** The registry *)

(** A handler: a Python function, seen through its [__name__] and the
    parameter names of [inspect.signature(func).parameters]. *)
Record func : Type := mkFunc {
  func_name : string;
  parameters : list string
}.

(** A Python value passed to a handler: a [str], or any other object,
    known by its identity. *)
Inductive value : Type :=
  | VStr (s : string)
  | VObj (id : nat).

(** An item of [commands]: the tuple [(pattern, func, kwargs)]. *)
Definition entry : Type := Pattern * func * gmap string value.

(** [_register(command, func, context, kwargs)]: the outcome and the value
    of the global [commands] afterwards. *)
Definition _register (command : string) (f : func) (context : option string)
    (kwargs : gmap string value) (commands : list entry) : result unit * list entry :=
  match Pattern_init command context with
  | Raise e => (Raise e, commands)
  | Return pattern =>
      let func_argnames : gset string := list_to_set (parameters f) in
      let when_argnames : gset string := list_to_set (argnames pattern) ∪ dom kwargs in
      if bool_decide (func_argnames ≠ when_argnames)
      then (Raise (InvalidCommand (WrongSignature (func_name f) command)), commands)
      else (Return tt, commands ++ [(pattern, f, kwargs)])
  end.

(** One [@when] decoration of a function: the command, the context and
    the extra keyword arguments. *)
Record registration : Type := mkRegistration {
  reg_command : string;
  reg_func : func;
  reg_context : option string;
  reg_kwargs : gmap string value
}.

(** The decorator [when] applied to the function. *)
Definition when (r : registration) (commands : list entry) : result unit * list entry :=
  _register (reg_command r) (reg_func r) (reg_context r) (reg_kwargs r) commands.

(** The game module's decorations, run in order until one raises. *)
Fixpoint when_all (rs : list registration) (commands : list entry)
    : result unit * list entry :=
  match rs with
  | [] => (Return tt, commands)
  | r :: rs' =>
      match when r commands with
      | (Return _, commands') => when_all rs' commands'
      | (Raise e, commands') => (Raise e, commands')
      end
  end.

(** [sys.exit] and the module's [help]. *)
Definition sys_exit : func := {| func_name := "exit"; parameters := ["status"] |}.
Definition help : func := {| func_name := "help"; parameters := [] |}.

(** The module-level [commands = [(Pattern('quit'), sys.exit, {})]]. *)
Definition commands_init : result (list entry) :=
  match Pattern_init "quit" (Some "default") with
  | Raise e => Raise e
  | Return quit => Return [(quit, sys_exit, ∅)]
  end.

(** The two assignments [qmark.prefix = ['?']] and
    [qmark.orig_pattern = '?'] of [start]. *)
Definition as_qmark (qmark : Pattern) : Pattern :=
  {| orig_pattern := "?";
     pattern_context := pattern_context qmark;
     placeholders := placeholders qmark;
     argnames := argnames qmark;
     prefix := ["?"];
     pattern := pattern qmark;
     fixed := fixed qmark |}.

(** The statements of [start(help)] that come before its input loop: the
    value of [commands] when the loop begins. *)
Definition start_prologue (help_enabled : bool) (commands : list entry)
    : result (list entry) :=
  if help_enabled then
    match Pattern_init "help" (Some "default") with
    | Raise e => Raise e
    | Return qmark =>
        let qmark := as_qmark qmark in
        match Pattern_init "help" (Some "default") with
        | Raise e => Raise e
        | Return help_pattern =>
            let commands := (help_pattern, help, ∅) :: commands in
            let commands := (qmark, help, ∅) :: commands in
            Return commands
        end
    end
  else Return commands.

(** ** The dispatcher *)

(** A call made by [_handle_command]: of a handler, with [args] as its
    keyword arguments, or of [no_command_matches(cmd)]. *)
Inductive call : Type :=
  | CallHandler (f : func) (args : gmap string value)
  | CallNoCommandMatches (cmd : string).

(** [args.update(matches)] on [args = kwargs.copy()] *)
Definition update (args : gmap string value) (matches : gmap string string)
    : gmap string value :=
  (VStr <$> matches) ∪ args.

(** The [for pattern, func, kwargs in commands] loop of [_handle_command]
    with its [else] branch: the calls made, in order. *)
Fixpoint commands_loop (current_context : option string) (ws : list string)
    (cmd : string) (commands : list entry) : result (list call) :=
  match commands with
  | [] => Return [CallNoCommandMatches cmd]
  | (pattern, f, kwargs) :: commands' =>
      let args := kwargs in
      match Pattern_match current_context pattern ws with
      | Raise e => Raise e
      | Return (Some matches) => Return [CallHandler f (update args matches)]
      | Return None => commands_loop current_context ws cmd commands'
      end
  end.

(** [_handle_command(cmd)]; the final [print()] writes to the terminal and
    is not part of the result. *)
Definition _handle_command (current_context : option string) (commands : list entry)
    (cmd : string) : result (list call) :=
  let ws := Str.split (Str.lower cmd) in
  commands_loop current_context ws cmd commands.

(** ** Further string primitives *)

Definition char_upper (c : ascii) : ascii :=
  if Str.char_islower c then ascii_of_N (Str.code c - 32) else c.

(** [s.upper()] *)
Definition Str_upper (s : string) : string :=
  string_of_list_ascii (map char_upper (Str.chars s)).

(** The characters that are left when leading whitespace is removed. *)
Fixpoint lstrip_chars (s : list ascii) : list ascii :=
  match s with
  | [] => []
  | c :: s' => if Str.char_isspace c then lstrip_chars s' else s
  end.

(** The characters that are left when trailing whitespace is removed. *)
Fixpoint rstrip_chars (s : list ascii) : list ascii :=
  match s with
  | [] => []
  | c :: s' =>
      match rstrip_chars s' with
      | [] => if Str.char_isspace c then [] else [c]
      | kept => c :: kept
      end
  end.

(** [s.strip()] *)
Definition Str_strip (s : string) : string :=
  string_of_list_ascii (rstrip_chars (lstrip_chars (Str.chars s))).

(** ** The registry when the game starts *)

(** The value of [commands] when the input loop of [start] begins, for a
    game module whose [@when] decorations are [rs]: the module-level list,
    the decorations in order, then the prologue of [start]. *)
Definition commands_at_start (rs : list registration) (help_enabled : bool)
    : result (list entry) :=
  match commands_init with
  | Raise e => Raise e
  | Return commands =>
      match when_all rs commands with
      | (Raise e, _) => Raise e
      | (Return _, commands) => start_prologue help_enabled commands
      end
  end.

(** ** Printing a compiled pattern *)

(** [Placeholder.__str__]: the name in upper case. *)
Definition Placeholder_str (name : string) : string := Str_upper name.

(** [str(w)] for an item [w] of a compiled [match] list. *)
Definition token_str (t : token) : string :=
  match t with
  | Literal w => w
  | Placeholder name => Placeholder_str name
  end.

(** ** The help command *)

(** [sorted(...)] on a list of [str]: ascending in the order of the
    character codes. *)
Definition sorted (l : list string) : list string := merge_sort String.le l.

(** The generator [c.orig_pattern for c, _, _ in commands if c.is_active()]
    of [help], consumed in order. *)
Fixpoint active_patterns (current_context : option string) (commands : list entry)
    : result (list string) :=
  match commands with
  | [] => Return []
  | (c, _, _) :: commands' =>
      match is_active current_context c with
      | Raise e => Raise e
      | Return active =>
          match active_patterns current_context commands' with
          | Raise e => Raise e
          | Return rest => Return (if active then orig_pattern c :: rest else rest)
          end
      end
  end.

(** [help()]: the lines printed, and how the call ends. *)
Definition help_print (current_context : option string) (commands : list entry)
    : list string * result unit :=
  let header := "Here is a list of the commands you can give:" in
  match active_patterns current_context commands with
  | Raise e => ([header], Raise e)
  | Return cmds => (header :: sorted cmds, Return tt)
  end.

(** ** The input loop *)

Section Start.

(** A handler is game code: what a call of it does is a parameter, the new
    values of the globals [current_context] and [commands] when it returns,
    or what it raises ([sys.exit] raises). Handlers that read the input
    themselves are outside this model. *)
Context {E : Type}.
Variable call_handler :
  func -> gmap string value -> option string -> list entry ->
  (option string * list entry) + E.

(** How [start] ends: [input] raises [EOFError], the dispatcher raises, or
    a handler raises. *)
Inductive ending : Type :=
  | EndOfInput
  | Raised (e : exn)
  | HandlerRaised (e : E).

(** The effect of the calls a dispatch makes. *)
Fixpoint perform (made : list call) (current_context : option string)
    (commands : list entry) : (option string * list entry) + E :=
  match made with
  | [] => inl (current_context, commands)
  | CallHandler f args :: made' =>
      match call_handler f args current_context commands with
      | inl (current_context', commands') => perform made' current_context' commands'
      | inr e => inr e
      end
  | CallNoCommandMatches _ :: made' => perform made' current_context commands
  end.

(** The [while True] loop of [start] on the lines [input] returns before
    it raises [EOFError]: the calls made, in order, and how the loop
    ends. *)
Fixpoint input_loop (lines : list string) (current_context : option string)
    (commands : list entry) : list call * ending :=
  match lines with
  | [] => ([], EndOfInput)
  | line :: lines' =>
      let cmd := Str_strip line in
      if String.eqb cmd "" then input_loop lines' current_context commands
      else
        match _handle_command current_context commands cmd with
        | Raise e => ([], Raised e)
        | Return made =>
            match perform made current_context commands with
            | inr e => (made, HandlerRaised e)
            | inl (current_context', commands') =>
                let '(later, how) := input_loop lines' current_context' commands' in
                (made ++ later, how)
            end
        end
  end.

(** [start(help)] *)
Definition start (help_enabled : bool) (lines : list string)
    (current_context : option string) (commands : list entry) : list call * ending :=
  match start_prologue help_enabled commands with
  | Raise e => ([], Raised e)
  | Return commands' => input_loop lines current_context commands'
  end.

End Start.

Arguments EndOfInput {E}.
Arguments Raised {E} e.
Arguments HandlerRaised {E} e.

(** ** Items and bags *)

(** An [Item] object: its identity, its [name] and its [aliases]. *)
Record Item : Type := mkItem {
  item_id : nat;
  item_name : string;
  item_aliases : list string
}.

(** [Item(name, *aliases)], for the object of identity [id]. *)
Definition Item_init (id : nat) (name : string) (aliases : list string) : Item :=
  {| item_id := id;
     item_name := name;
     item_aliases := map Str.lower (name :: aliases) |}.

(** [Item.__str__] *)
Definition Item_str (self : Item) : string := item_name self.

(** An exception of the object model. *)
Inductive object_exn : Type :=
  | KeyError (key : string)
  | TypeError
  | InvalidDirection (name : string)
  | InvalidCommand_direction.

Inductive outcome (A : Type) : Type :=
  | Ok (a : A)
  | Err (e : object_exn).
Arguments Ok {A} a.
Arguments Err {A} e.

(** A [Bag] is a [set] of items: the items, each once, in the order in
    which the set is iterated. Items are compared by identity. *)
Definition same_item (a b : Item) : bool := Nat.eqb (item_id a) (item_id b).

(** [Bag.find(name)] *)
Fixpoint Bag_find (self : list Item) (name : string) : option Item :=
  match self with
  | [] => None
  | item :: self' =>
      if bool_decide (Str.lower name ∈ item_aliases item) then Some item
      else Bag_find self' name
  end.

(** The argument of [in]: a [str], an [Item], or another object. *)
Inductive operand : Type :=
  | OStr (s : string)
  | OItem (i : Item)
  | OOther.

(** [Bag.__contains__(v)]; [set.__contains__(v)] is called without the
    set, which raises [TypeError]. An [Item] is truthy. *)
Definition Bag_contains (self : list Item) (v : operand) : outcome bool :=
  match v with
  | OStr s =>
      Ok (match Bag_find self s with Some _ => true | None => false end)
  | OItem _ | OOther => Err TypeError
  end.

(** [set.remove(obj)] *)
Definition set_remove (self : list Item) (obj : Item) : outcome (list Item) :=
  if existsb (same_item obj) self
  then Ok (filter (fun i => negb (same_item obj i)) self)
  else Err (KeyError (item_name obj)).

(** [Bag.take(name)]: what is returned and the bag afterwards. *)
Definition Bag_take (self : list Item) (name : string) : outcome (option Item * list Item) :=
  let obj := Bag_find self name in
  match obj with
  | Some o =>
      match set_remove self o with
      | Ok self' => Ok (obj, self')
      | Err e => Err e
      end
  | None => Ok (obj, self)
  end.

(** The [for index, obj in enumerate(self)] loop of [get_random]. *)
Fixpoint enumerate_until (which : nat) (index : nat) (self : list Item) : option Item :=
  match self with
  | [] => None
  | obj :: self' =>
      if Nat.eqb index which then Some obj else enumerate_until which (S index) self'
  end.

(** [Bag.get_random()], where [which] is what [random.randrange(len(self))]
    returns. *)
Definition Bag_get_random (self : list Item) (which : nat) : option Item :=
  if negb (truthy self) then None
  else enumerate_until which 0 self.

(** [Bag.take_random()] *)
Definition Bag_take_random (self : list Item) (which : nat)
    : outcome (option Item * list Item) :=
  let obj := Bag_get_random self which in
  match obj with
  | Some o =>
      match set_remove self o with
      | Ok self' => Ok (obj, self')
      | Err e => Err e
      end
  | None => Ok (obj, self)
  end.

(** ** Rooms *)

(** The checks [add_direction] makes on one of its two names. *)
Definition check_direction (directions : gmap string string) (dir : string) : outcome unit :=
  if negb (Str.islower dir) then Err InvalidCommand_direction
  else if bool_decide (is_Some (directions !! dir)) then Err (KeyError dir)
  else Ok tt.

(** [Room.add_direction(forward, reverse)] on the class dict
    [Room._directions]. The class attributes it sets to [None] are the
    defaults of [getattr] below. *)
Definition Room_add_direction (forward reverse : string) (directions : gmap string string)
    : outcome (gmap string string) :=
  match check_direction directions forward with
  | Err e => Err e
  | Ok _ =>
      match check_direction directions reverse with
      | Err e => Err e
      | Ok _ => Ok (<[reverse := forward]> (<[forward := reverse]> directions))
      end
  end.

(** The module-level [Room.add_direction('north', 'south')] and
    [Room.add_direction('east', 'west')]. *)
Definition module_directions : outcome (gmap string string) :=
  match Room_add_direction "north" "south" ∅ with
  | Err e => Err e
  | Ok directions => Room_add_direction "east" "west" directions
  end.

(** The value of an attribute of a room: another room (by identity),
    [None], or any other object, of which only the truth value matters
    here. *)
Inductive attr : Type :=
  | ARoom (room : nat)
  | ANone
  | AOther (truth : bool).

Definition attr_truthy (a : attr) : bool :=
  match a with
  | ARoom _ => true
  | ANone => false
  | AOther truth => truth
  end.

(** The instance attributes of all rooms, by room identity and attribute
    name; [getattr] of a direction falls back on the class default
    [None]. *)
Definition getattr (store : gmap (nat * string) attr) (self : nat) (name : string) : attr :=
  default ANone (store !! (self, name)).

(** [Room.__setattr__(self, name, value)] *)
Definition Room_setattr (directions : gmap string string) (store : gmap (nat * string) attr)
    (self : nat) (name : string) (value : attr) : outcome (gmap (nat * string) attr) :=
  match value with
  | ARoom other =>
      match directions !! name with
      | None => Err (InvalidDirection name)
      | Some reverse =>
          Ok (<[(other, reverse) := ARoom self]> (<[(self, name) := value]> store))
      end
  | ANone | AOther _ => Ok (<[(self, name) := value]> store)
  end.

(** [Room.exit(direction)] *)
Definition Room_exit (directions : gmap string string) (store : gmap (nat * string) attr)
    (self : nat) (direction : string) : outcome attr :=
  if negb (bool_decide (is_Some (directions !! direction))) then Err (KeyError direction)
  else Ok (getattr store self direction).

(** [Room.exits()] *)
Definition Room_exits (directions : gmap string string) (store : gmap (nat * string) attr)
    (self : nat) : list string :=
  sorted (filter (fun d => attr_truthy (getattr store self d)) (elements (dom directions))).

(** A run of [add_direction] calls; a call that raises leaves the dict as
    it was. *)
Fixpoint add_directions (pairs : list (string * string)) (directions : gmap string string)
    : gmap string string :=
  match pairs with
  | [] => directions
  | (forward, reverse) :: pairs' =>
      match Room_add_direction forward reverse directions with
      | Ok directions' => add_directions pairs' directions'
      | Err _ => add_directions pairs' directions
      end
  end.

(** ** The pattern compiler on text of any alphabet *)

(** [Pattern.__init__] once more, for a [str] of any characters, not only
    ASCII. A character is its code point and a [str] is the list of its
    characters. What [str.split], [str.isalpha], [str.isupper],
    [str.islower] and [str.lower] read from the Unicode character database
    is the parameter [chardb]: whether a character is whitespace,
    alphabetic, uppercase, lowercase or titlecase (a character such as
    U+01C5, of the category Lt), and the lowercase form of a text (which
    is not computed character by character). *)

Module Text.

Definition text : Type := list N.

Record chardb : Type := mkChardb {
  char_isspace : N -> bool;
  char_isalpha : N -> bool;
  char_isupper : N -> bool;
  char_islower : N -> bool;
  char_istitle : N -> bool;
  lower : text -> text
}.

(** The two messages with which [Pattern.__init__] raises
    [InvalidCommand]; each names the template. *)
Inductive invalid_command : Type :=
  | LettersOnly (command : text)
  | MixedCase (command : text).

Inductive result (A : Type) : Type :=
  | Return (a : A)
  | Raise (e : invalid_command).
Arguments Return {A} a.
Arguments Raise {A} e.

Inductive token : Type :=
  | Literal (w : text)
  | Placeholder (name : text).

Record Pattern : Type := mkPattern {
  orig_pattern : text;
  pattern_context : option text;
  placeholders : Z;
  argnames : list text;
  prefix : list text;
  pattern : list token;
  fixed : Z
}.

Section Compiler.

Variable db : chardb.

(** [s.isalpha()]: every character is alphabetic and there is at least
    one. *)
Definition isalpha (s : text) : bool :=
  match s with
  | [] => false
  | _ => forallb (char_isalpha db) s
  end.

(** [s.isupper()]: no character is lowercase or titlecase, and at least one
    is uppercase. *)
Definition isupper (s : text) : bool :=
  negb (existsb (fun c => char_islower db c || char_istitle db c) s)
  && existsb (char_isupper db) s.

(** [s.islower()]: no character is uppercase or titlecase, and at least one
    is lowercase. *)
Definition islower (s : text) : bool :=
  negb (existsb (fun c => char_isupper db c || char_istitle db c) s)
  && existsb (char_islower db) s.

(** The word collected so far, if any, becomes an item of the result. *)
Definition emit (word : text) : list text :=
  match word with
  | [] => []
  | _ => [word]
  end.

Fixpoint split_from (word : text) (s : text) : list text :=
  match s with
  | [] => emit word
  | c :: s' =>
      if char_isspace db c then emit word ++ split_from [] s'
      else split_from (word ++ [c]) s'
  end.

(** [s.split()]: the maximal runs of non-whitespace characters. *)
Definition split (s : text) : list text := split_from [] s.

(** The [for w in words] loop of [Pattern.__init__], on the words still to
    read, with the locals [match], [argnames] and [self.placeholders]. *)
Fixpoint compile_words (command : text) (words : list text)
    (match_ : list token) (argnames : list text) (placeholders : Z)
    : result (list token * list text * Z) :=
  match words with
  | [] => Return (match_, argnames, placeholders)
  | w :: words' =>
      if negb (isalpha w) then Raise (LettersOnly command)
      else if isupper w then
        let arg := lower db w in
        compile_words command words' (match_ ++ [Placeholder arg]) (argnames ++ [arg])
          (placeholders + 1)
      else if islower w then
        compile_words command words' (match_ ++ [Literal w]) argnames placeholders
      else Raise (MixedCase command)
  end.

(** The [for w in match] loop that fills [self.prefix], stopping at the
    first [Placeholder]. *)
Fixpoint prefix_loop (match_ : list token) (prefix : list text) : list text :=
  match match_ with
  | [] => prefix
  | Placeholder _ :: _ => prefix
  | Literal w :: match' => prefix_loop match' (prefix ++ [w])
  end.

(** [Pattern(pattern, context)] *)
Definition Pattern_init (command : text) (context : option text) : result Pattern :=
  let words := split command in
  match compile_words command words [] [] 0 with
  | Raise e => Raise e
  | Return (match_, argnames, placeholders) =>
      let prefix := prefix_loop match_ [] in
      let pattern := drop (length prefix) match_ in
      Return {| orig_pattern := command;
                pattern_context := context;
                placeholders := placeholders;
                argnames := argnames;
                prefix := prefix;
                pattern := pattern;
                fixed := Z.of_nat (length pattern) - placeholders |}
  end.

End Compiler.

End Text.

(** ** Notions used to state the allocator's properties *)

(** Pascal's triangle: the number of [k]-element subsets of an [n]-element
    set. *)
Fixpoint binom (n k : nat) : nat :=
  match n, k with
  | _, O => 1
  | O, S _ => 0
  | S n', S k' => (binom n' k' + binom n' (S k'))%nat
  end.

(** The binomial coefficient on integers, with the counting convention:
    it is zero unless [0 <= k <= n]. *)
Definition C (n k : Z) : Z :=
  if (n <? 0) || (k <? 0) then 0 else Z.of_nat (binom (Z.to_nat n) (Z.to_nat k)).

Definition total (c : list Z) : Z := fold_right Z.add 0 c.

(** What the docstring and the spec ask of one yielded tuple. *)
Definition allocation (have placeholders : Z) (c : list Z) : Prop :=
  Z.of_nat (length c) = placeholders /\ Forall (fun x => 1 <= x) c /\ total c = have.

(** Lexicographic order on tuples. *)
Fixpoint lex_lt (a b : list Z) : Prop :=
  match a, b with
  | [], [] => False
  | [], _ :: _ => True
  | _ :: _, [] => False
  | x :: a', y :: b' => x < y \/ (x = y /\ lex_lt a' b')
  end.

Definition lex_gt (a b : list Z) : Prop := lex_lt b a.

(** What [word_combinations(have, placeholders)] yields, as one property of
    the list of its yields. *)
Definition allocations (have placeholders : Z) (combos : list (list Z)) : Prop :=
  Forall (allocation have placeholders) combos /\
  Z.of_nat (length combos) = C (have - 1) (placeholders - 1) /\
  StronglySorted lex_gt combos /\
  (placeholders <= have ->
   exists c combos', combos = ((have - placeholders + 1) :: c) :: combos').


(** ** Notions used to state the context resolver's properties *)

(** A context path qualified under the root ["default"]. *)
Definition qualified (context : string) : string :=
  if decide (context = "default") then "default" else "default." +:+ context.

(** The activity rule of the spec: the current context is the qualified
    path of the pattern's context, or a strict descendant of it. *)
Definition active_in (current : string) (p : Pattern) : bool :=
  match pattern_context p with
  | None => false
  | Some context =>
      bool_decide (current = qualified context)
      || String.prefix (qualified context +:+ ".") current
  end.

(** A run of [set_context] calls, from a value of the global. *)
Definition set_context_all (contexts : list string) (current_context : option string)
    : option string :=
  fold_left (fun _ c => set_context c) contexts current_context.

(** ** Notions used to state the pattern compiler's properties *)

(** A word of all-lowercase letters, and one of all-uppercase letters. *)
Definition all_lowercase (w : string) : bool :=
  negb (String.eqb w "") && forallb Str.char_islower (Str.chars w).

Definition all_uppercase (w : string) : bool :=
  negb (String.eqb w "") && forallb Str.char_isupper (Str.chars w).

(** The two ways a word of a template is malformed: it contains a
    non-letter, or it mixes upper and lower case. *)
Definition has_non_letter (w : string) : bool :=
  existsb (fun c => negb (Str.char_isalpha c)) (Str.chars w).

Definition mixes_case (w : string) : bool :=
  existsb Str.char_isupper (Str.chars w) && existsb Str.char_islower (Str.chars w).

Definition malformed (w : string) : bool := has_non_letter w || mixes_case w.

(** The token of a well-formed word: an all-uppercase word is a placeholder
    named by the lowercased word, an all-lowercase word a literal. *)
Definition classify (w : string) : token :=
  if all_uppercase w then Placeholder (Str.lower w) else Literal w.

(** The longest leading run of literal tokens. *)
Fixpoint leading_literals (tokens : list token) : list string :=
  match tokens with
  | Literal w :: tokens' => w :: leading_literals tokens'
  | _ => []
  end.

(** The names of the placeholder tokens, in order. *)
Fixpoint placeholder_names (tokens : list token) : list string :=
  match tokens with
  | [] => []
  | Placeholder name :: tokens' => name :: placeholder_names tokens'
  | Literal _ :: tokens' => placeholder_names tokens'
  end.

(** The Pattern the spec describes for a well-formed template. *)
Definition compile_spec (command : string) (context : option string) : Pattern :=
  let tokens := map classify (Str.split command) in
  let names := placeholder_names tokens in
  let leading := leading_literals tokens in
  {| orig_pattern := command;
     pattern_context := context;
     placeholders := Z.of_nat (length names);
     argnames := names;
     prefix := leading;
     pattern := drop (length leading) tokens;
     fixed := (Z.of_nat (length tokens) - Z.of_nat (length leading))
              - Z.of_nat (length names) |}.

(** The shape of a token of a compiled pattern: a literal of all-lowercase
    letters, or a placeholder named by the lowercased form of an
    all-uppercase word of the template. *)
Definition token_of (words : list string) (t : token) : Prop :=
  match t with
  | Literal w => all_lowercase w = true
  | Placeholder name =>
      all_lowercase name = true /\
      exists w, w ∈ words /\ all_uppercase w = true /\ name = Str.lower w
  end.

(** ** Notions used to state the matcher's properties *)

(** One allocation tried against the tokens and the words, as the spec
    states it: a literal token must equal the next word, a placeholder
    takes its allotted number of words, joined with single spaces; the
    attempt succeeds when tokens, allocation and words run out together.
    The result lists the captures in token order. *)
Fixpoint captures (tokens : list token) (allocation : list Z) (words : list string)
    : option (list (string * string)) :=
  match tokens with
  | [] =>
      match allocation, words with
      | [], [] => Some []
      | _, _ => None
      end
  | Literal w :: tokens' =>
      match words with
      | word :: words' =>
          if decide (word = w) then captures tokens' allocation words' else None
      | [] => None
      end
  | Placeholder name :: tokens' =>
      match allocation with
      | n :: allocation' =>
          if decide (Z.to_nat n <= length words)%nat then
            cons (name, Str.join " " (take (Z.to_nat n) words))
              <$> captures tokens' allocation' (drop (Z.to_nat n) words)
          else None
      | [] => None
      end
  end.

(** The argument mapping of a list of captures; a later capture of a name
    replaces an earlier one. *)
Definition mapping_of (bindings : list (string * string)) : gmap string string :=
  fold_left (fun m b => <[b.1 := b.2]> m) bindings ∅.

(** The first success of [f] along a list: no later item is tried. *)
Fixpoint first_success {A B : Type} (f : A -> option B) (l : list A) : option B :=
  match l with
  | [] => None
  | a :: l' =>
      match f a with
      | Some b => Some b
      | None => first_success f l'
      end
  end.

(** The matcher of the spec (steps 1 to 6 of its description), for a set
    current context: [None] is no-match. *)
Definition match_spec (current : string) (p : Pattern) (input_words : list string)
    : option (gmap string string) :=
  if negb (active_in current p) then None
  else if bool_decide (Z.of_nat (length input_words) < placeholders p) then None
  else if negb (bool_decide (prefix p `prefix_of` input_words)) then None
  else
    let remaining := drop (length (prefix p)) input_words in
    match pattern p, remaining with
    | [], [] => Some ∅
    | [], _ :: _ | _ :: _, [] => None
    | tokens, _ =>
        match word_combinations (Z.of_nat (length remaining) - fixed p) (placeholders p) with
        | Some allocations =>
            first_success (fun a => mapping_of <$> captures tokens a remaining) allocations
        | None => None
        end
    end.

(** What [Pattern.__init__] establishes and [start] keeps when it rewrites
    the prefix of its ["?"] pattern: the counts and the argument names are
    those of the tokens after the prefix, and these do not start with a
    literal. *)
Record wf_pattern (p : Pattern) : Prop := mkWf {
  wf_placeholders : placeholders p = Z.of_nat (length (placeholder_names (pattern p)));
  wf_argnames : argnames p = placeholder_names (pattern p);
  wf_fixed : fixed p = Z.of_nat (length (pattern p)) - placeholders p;
  wf_head : forall w rest, pattern p <> Literal w :: rest
}.

(** The mapping an attempt returns, if it returns one. *)
Definition attempt_mapping (a : attempt) : option (gmap string string) :=
  match a with
  | Completed matches => Some (Str.join " " <$> matches)
  | Break | StopIteration => None
  end.

(** ** Notions used to state the registry's and the dispatcher's properties *)

(** The patterns the module ever puts in [commands]: those [Pattern]
    returns ([_register], the built-in entries), and the ["?"] pattern of
    [start], a returned pattern with its prefix rewritten. *)
Definition registered (p : Pattern) : Prop :=
  exists command context q,
    Pattern_init command context = Return q /\ (p = q \/ p = as_qmark q).

Definition entry_pattern (e : entry) : Pattern := e.1.1.
Definition entry_func (e : entry) : func := e.1.2.

(** The handler's declared parameter names are, as a set, the pattern's
    argument names together with the keys of the fixed keywords. *)
Definition same_names (f : func) (p : Pattern) (kwargs : gmap string value) : Prop :=
  forall x, x ∈ parameters f <-> x ∈ argnames p \/ is_Some (kwargs !! x).

(** ** Notions used to state further properties of the matcher *)

(** A token with the captured text put back in the place of a
    placeholder. *)
Definition render (m : gmap string string) (t : token) : string :=
  match t with
  | Literal w => w
  | Placeholder name => default "" (m !! name)
  end.

(** A parse of the words that follow the prefix: one count of at least one
    word per placeholder, with which the tokens consume the words
    exactly. *)
Definition parses (p : Pattern) (input_words : list string) (allocation : list Z)
    (bindings : list (string * string)) : Prop :=
  Forall (fun x => 1 <= x) allocation /\
  captures (pattern p) allocation (drop (length (prefix p)) input_words) = Some bindings.

(** ** Notions used to state further properties of the registry *)

(** A user entry as [_register] leaves it: the pattern of the decoration's
    command and context, the decorated function and the fixed keywords,
    with the function's parameter names checked. *)
Definition entry_of (r : registration) (e : entry) : Prop :=
  Pattern_init (reg_command r) (reg_context r) = Return (entry_pattern e) /\
  entry_func e = reg_func r /\
  e.2 = reg_kwargs r /\
  same_names (reg_func r) (entry_pattern e) (reg_kwargs r).

(** No uppercase letter in a string. *)
Definition no_uppercase (s : string) : Prop :=
  Forall (fun c => Str.char_isupper c = false) (Str.chars s).

(** ** Notions used to state properties of rooms and bags *)

(** Every direction is the reverse of its reverse. *)
Definition paired (directions : gmap string string) : Prop :=
  forall d r, directions !! d = Some r -> directions !! r = Some d.

(** A bag holds each item once. *)
Definition distinct_items (bag : list Item) : Prop := NoDup (map item_id bag).

(** A line that is empty once stripped. *)
Definition blank (line : string) : bool := String.eqb (Str_strip line) "".

(** ** Notions used to state the compiler's properties on any text *)

Module TextSpec.

Section Words.

Variable db : Text.chardb.

(** What a word contains. *)
Definition has_non_letter (w : Text.text) : bool :=
  existsb (fun c => negb (Text.char_isalpha db c)) w.

Definition has_uppercase (w : Text.text) : bool := existsb (Text.char_isupper db) w.

Definition has_lowercase (w : Text.text) : bool := existsb (Text.char_islower db) w.

Definition has_titlecase (w : Text.text) : bool := existsb (Text.char_istitle db) w.

(** A word mixes upper and lower case. *)
Definition mixes_case (w : Text.text) : bool := has_uppercase w && has_lowercase w.

(** A word has neither an uppercase nor a lowercase character. *)
Definition has_no_case (w : Text.text) : bool := negb (has_uppercase w || has_lowercase w).

(** The words on which compilation fails. *)
Definition malformed (w : Text.text) : bool :=
  has_non_letter w || mixes_case w || has_titlecase w || has_no_case w.

(** A word of letters of which some are uppercase and none is lowercase
    or titlecase, and one of letters of which some are lowercase and none
    is uppercase or titlecase. *)
Definition uppercase_word (w : Text.text) : bool :=
  negb (has_non_letter w) && has_uppercase w
  && negb (has_lowercase w) && negb (has_titlecase w).

Definition lowercase_word (w : Text.text) : bool :=
  negb (has_non_letter w) && has_lowercase w
  && negb (has_uppercase w) && negb (has_titlecase w).

(** The token of a well-formed word. *)
Definition classify (w : Text.text) : Text.token :=
  if uppercase_word w then Text.Placeholder (Text.lower db w) else Text.Literal w.

(** The longest leading run of literal tokens. *)
Fixpoint leading_literals (tokens : list Text.token) : list Text.text :=
  match tokens with
  | Text.Literal w :: tokens' => w :: leading_literals tokens'
  | _ => []
  end.

(** The names of the placeholder tokens, in order. *)
Fixpoint placeholder_names (tokens : list Text.token) : list Text.text :=
  match tokens with
  | [] => []
  | Text.Placeholder name :: tokens' => name :: placeholder_names tokens'
  | Text.Literal _ :: tokens' => placeholder_names tokens'
  end.

(** The Pattern described for a well-formed template. *)
Definition compile_spec (command : Text.text) (context : option Text.text) : Text.Pattern :=
  let tokens := map classify (Text.split db command) in
  let names := placeholder_names tokens in
  let leading := leading_literals tokens in
  {| Text.orig_pattern := command;
     Text.pattern_context := context;
     Text.placeholders := Z.of_nat (length names);
     Text.argnames := names;
     Text.prefix := leading;
     Text.pattern := drop (length leading) tokens;
     Text.fixed := (Z.of_nat (length tokens) - Z.of_nat (length leading))
                   - Z.of_nat (length names) |}.

End Words.

End TextSpec.

(** ** ASCII text among all text *)

(** [s.isascii()] *)
Definition Str_isascii (s : string) : bool :=
  forallb (fun c => (Str.code c <? 128)%N) (Str.chars s).

(** The characters of a [string], as code points. *)
Definition codes (s : string) : Text.text := map Str.code (Str.chars s).

Definition ascii_range (c : N) : bool := (c <? 128)%N.

(** The ideographs U+4E00 to U+9FA5: letters without case. *)
Definition cjk_ideograph (c : N) : bool := ((19968 <=? c) && (c <=? 40869))%N.

(** The Unicode properties of the code points below 128 and of the
    ideographs U+4E00 to U+9FA5. The other code points are not covered:
    they are given no property here and are left as they are by [lower]. *)
Definition basic_chardb : Text.chardb :=
  {| Text.char_isspace := fun c => ascii_range c && Str.char_isspace (ascii_of_N c);
     Text.char_isalpha := fun c =>
       ascii_range c && Str.char_isalpha (ascii_of_N c) || cjk_ideograph c;
     Text.char_isupper := fun c => ascii_range c && Str.char_isupper (ascii_of_N c);
     Text.char_islower := fun c => ascii_range c && Str.char_islower (ascii_of_N c);
     Text.char_istitle := fun _ => false;
     Text.lower := map (fun c => if ascii_range c
                                 then Str.code (Str.char_lower (ascii_of_N c)) else c) |}.

(** A character database that has, below 128, the properties of ASCII, as
    the Unicode database has. *)
Definition ascii_compatible (db : Text.chardb) : Prop :=
  (forall c, (c < 128)%N ->
             Text.char_isspace db c = Text.char_isspace basic_chardb c /\
             Text.char_isalpha db c = Text.char_isalpha basic_chardb c /\
             Text.char_isupper db c = Text.char_isupper basic_chardb c /\
             Text.char_islower db c = Text.char_islower basic_chardb c /\
             Text.char_istitle db c = false) /\
  (forall s, Forall (fun c => (c < 128)%N) s ->
             Text.lower db s = Text.lower basic_chardb s).

(** A token, a Pattern and a result of the ASCII compiler, as ones of the
    compiler on any text. *)
Definition token_codes (t : token) : Text.token :=
  match t with
  | Literal w => Text.Literal (codes w)
  | Placeholder name => Text.Placeholder (codes name)
  end.

Definition Pattern_codes (p : Pattern) : Text.Pattern :=
  {| Text.orig_pattern := codes (orig_pattern p);
     Text.pattern_context := codes <$> pattern_context p;
     Text.placeholders := placeholders p;
     Text.argnames := map codes (argnames p);
     Text.prefix := map codes (prefix p);
     Text.pattern := map token_codes (pattern p);
     Text.fixed := fixed p |}.

Definition result_codes (r : result Pattern) : option (Text.result Text.Pattern) :=
  match r with
  | Return p => Some (Text.Return (Pattern_codes p))
  | Raise (InvalidCommand (LettersOnly command)) => Some (Text.Raise (Text.LettersOnly (codes command)))
  | Raise (InvalidCommand (MixedCase command)) => Some (Text.Raise (Text.MixedCase (codes command)))
  | Raise _ => None
  end.

(** The result of the loop over the words, as one on any text. *)
Definition loop_codes (r : result (list token * list string * Z))
    : option (Text.result (list Text.token * list Text.text * Z)) :=
  match r with
  | Return (match_, argnames, placeholders) =>
      Some (Text.Return (map token_codes match_, map codes argnames, placeholders))
  | Raise (InvalidCommand (LettersOnly command)) =>
      Some (Text.Raise (Text.LettersOnly (codes command)))
  | Raise (InvalidCommand (MixedCase command)) =>
      Some (Text.Raise (Text.MixedCase (codes command)))
  | Raise _ => None
  end.

(** ** The embedding on concrete inputs *)

Example split_runs :
  Str.split "  put ITEM   in CONTAINER " = ["put"; "ITEM"; "in"; "CONTAINER"].
Proof. reflexivity. Qed.

Example lower_line : Str.lower "Take The KEY!" = "take the key!".
Proof. reflexivity. Qed.

Example combinations_5_3 :
  word_combinations 5 3
  = Some [[3; 1; 1]; [2; 2; 1]; [2; 1; 2]; [1; 3; 1]; [1; 2; 2]; [1; 1; 3]].
Proof. reflexivity. Qed.

Example combinations_infeasible : word_combinations 2 3 = Some [].
Proof. reflexivity. Qed.

Example compile_put :
  Pattern_init "put ITEM in CONTAINER" (Some "default")
  = Return {| orig_pattern := "put ITEM in CONTAINER";
              pattern_context := Some "default";
              placeholders := 2;
              argnames := ["item"; "container"];
              prefix := ["put"];
              pattern := [Placeholder "item"; Literal "in"; Placeholder "container"];
              fixed := 1 |}.
Proof. reflexivity. Qed.

Example compile_mixed_case :
  Pattern_init "take Item" (Some "default") = Raise (InvalidCommand (MixedCase "take Item")).
Proof. reflexivity. Qed.

Example compile_non_letter :
  Pattern_init "take it3m" (Some "default")
  = Raise (InvalidCommand (LettersOnly "take it3m")).
Proof. reflexivity. Qed.

Example match_take_red_ball :
  exists p, Pattern_init "take ITEM" (Some "default") = Return p /\
    Pattern_match (Some "default") p ["take"; "red"; "ball"]
    = Return (Some {[ "item" := "red ball" ]}) /\
    Pattern_match (Some "default") p ["drop"; "red"; "ball"] = Return None.
Proof. eexists. repeat split; vm_compute; reflexivity. Qed.

(** The first allocation that fits the literal anchors wins. *)
Example match_first_allocation :
  exists p, Pattern_init "give ITEM to TARGET" (Some "default") = Return p /\
    Pattern_match (Some "default") p ["give"; "a"; "to"; "b"; "to"; "c"]
    = Return (Some {[ "item" := "a to b"; "target" := "c" ]}).
Proof. eexists. split; vm_compute; reflexivity. Qed.
(** ** The allocator: proofs *)

Section Binomial.

Lemma binom_lt n : forall k, (n < k)%nat -> binom n k = 0%nat.
Proof.
  induction n as [|n IH]; intros [|k] Hk; simpl; try lia.
  rewrite !IH by lia. reflexivity.
Qed.

Lemma binom_diag n : binom n n = 1%nat.
Proof.
  induction n as [|n IH]; simpl; [reflexivity|].
  rewrite IH, binom_lt by lia. reflexivity.
Qed.

(** [binom] is the binomial coefficient: [n! = C(n,k) * k! * (n-k)!]. *)
Lemma binom_fact n : forall k, (k <= n)%nat ->
  (binom n k * fact k * fact (n - k) = fact n)%nat.
Proof.
  induction n as [|n IH]; intros [|k] Hk; simpl binom; try lia.
  - simpl. lia.
  - rewrite Nat.sub_0_r. simpl fact at 1. lia.
  - destruct (decide (k = n)) as [->|Hne].
    + rewrite binom_diag, binom_lt by lia.
      replace (S n - S n)%nat with 0%nat by lia. simpl. lia.
    + assert (H1 := IH k ltac:(lia)). assert (H2 := IH (S k) ltac:(lia)).
      replace (S n - S k)%nat with (n - k)%nat by lia.
      replace (n - k)%nat with (S (n - S k)) in * by lia.
      change (fact (S n)) with (S n * fact n)%nat.
      change (fact (S k)) with (S k * fact k)%nat in *.
      change (fact (S (n - S k))) with (S (n - S k) * fact (n - S k))%nat in *.
      nia.
Qed.

Lemma C_pascal m k : 0 <= m -> 0 <= k -> C (m + 1) (k + 1) = C m k + C m (k + 1).
Proof.
  intros Hm Hk. unfold C.
  repeat match goal with |- context [?a <? ?b] => destruct (Z.ltb_spec a b); try lia end.
  simpl orb. cbv iota.
  replace (Z.to_nat (m + 1)) with (S (Z.to_nat m)) by lia.
  replace (Z.to_nat (k + 1)) with (S (Z.to_nat k)) by lia.
  simpl binom. lia.
Qed.

Lemma C_small n k : n < k -> C n k = 0.
Proof.
  intros H. unfold C.
  destruct (Z.ltb_spec n 0), (Z.ltb_spec k 0); simpl; try reflexivity.
  rewrite binom_lt by lia. reflexivity.
Qed.

Lemma C_diag n : 0 <= n -> C n n = 1.
Proof.
  intros H. unfold C. destruct (Z.ltb_spec n 0); [lia|]. simpl.
  rewrite binom_diag. reflexivity.
Qed.

Lemma C_zero n : 0 <= n -> C n 0 = 1.
Proof.
  intros H. unfold C. destruct (Z.ltb_spec n 0); [lia|]. simpl.
  destruct (Z.to_nat n); reflexivity.
Qed.

End Binomial.

Lemma total_repeat_1 n : total (repeat 1 n) = Z.of_nat n.
Proof. induction n as [|n IH]; simpl total in *; [reflexivity|]. rewrite IH. lia. Qed.

Lemma Forall_repeat_1 n : Forall (fun x => 1 <= x) (repeat 1 n).
Proof. induction n; simpl; constructor; [lia|assumption]. Qed.

Lemma allocation_cons have placeholders x c :
  1 <= x -> allocation (have - x) (placeholders - 1) c ->
  allocation have placeholders (x :: c).
Proof.
  intros Hx (Hlen & Hpos & Hsum). repeat split.
  - simpl length. lia.
  - constructor; assumption.
  - simpl. fold (total c). lia.
Qed.

Lemma lex_gt_cons x a b : lex_gt a b -> lex_gt (x :: a) (x :: b).
Proof. intros H. right. split; [reflexivity|exact H]. Qed.

Lemma StronglySorted_map_cons x l :
  StronglySorted lex_gt l -> StronglySorted lex_gt (map (cons x) l).
Proof.
  induction 1 as [|a l Hs IH Hall]; simpl; constructor; [assumption|].
  apply Forall_map. eapply Forall_impl; [exact Hall|]. intros b Hb. apply lex_gt_cons, Hb.
Qed.

Lemma StronglySorted_app_lex (l1 l2 : list (list Z)) :
  StronglySorted lex_gt l1 -> StronglySorted lex_gt l2 ->
  (forall a b, a ∈ l1 -> b ∈ l2 -> lex_gt a b) ->
  StronglySorted lex_gt (l1 ++ l2).
Proof.
  intros H1 H2 H12. induction H1 as [|a l Hs IH Hall]; simpl; [assumption|].
  constructor.
  - apply IH. intros x y Hx Hy. apply H12; [right; exact Hx|exact Hy].
  - apply Forall_app. split; [assumption|].
    apply Forall_forall. intros b Hb. apply H12; [left|exact Hb].
Qed.

Section TakeLoop.

Variable rec : Z -> Z -> option (list (list Z)).
Variables have placeholders : Z.
Hypothesis Hp : 2 <= placeholders.
Hypothesis Hrec : forall h,
  exists combos, rec h (placeholders - 1) = Some combos /\
                 allocations h (placeholders - 1) combos.

Lemma take_loop_spec n :
  Z.of_nat n <= have - placeholders + 1 ->
  exists combos,
    take_loop rec have placeholders (placeholders - 1) n = Some combos /\
    Forall (allocation have placeholders) combos /\
    Z.of_nat (length combos) + C (have - Z.of_nat n - 1) (placeholders - 1)
      = C (have - 1) (placeholders - 1) /\
    Forall (fun c => exists x c', c = x :: c' /\ x <= Z.of_nat n) combos /\
    StronglySorted lex_gt combos /\
    ((0 < n)%nat -> exists c combos', combos = (Z.of_nat n :: c) :: combos').
Proof.
  induction n as [|n IH]; intros Hn.
  - exists []. simpl. repeat split; try constructor.
    + replace (have - Z.of_nat 0 - 1) with (have - 1) by lia. lia.
    + intros H. lia.
  - destruct IH as (later & Hlater & Hall & Hcount & Hhead & Hsorted & _); [lia|].
    destruct (Hrec (have - Z.of_nat (S n))) as (combos & Hcombos & Hc1 & Hc2 & Hc3 & Hc4).
    exists (map (cons (Z.of_nat (S n))) combos ++ later).
    split; [|split; [|split; [|split; [|split]]]].
    + cbn [take_loop]. destruct (Z.geb_spec have (placeholders - 1)); [|lia].
      rewrite Hcombos, Hlater. reflexivity.
    + apply Forall_app. split; [|assumption].
      apply Forall_map. eapply Forall_impl; [exact Hc1|].
      intros c Hc. apply allocation_cons; [lia|exact Hc].
    + rewrite length_app, length_map, Nat2Z.inj_add, Hc2, <- Hcount.
      replace (have - Z.of_nat n - 1) with (have - Z.of_nat (S n) - 1 + 1) by lia.
      replace (placeholders - 1) with (placeholders - 1 - 1 + 1) at 2 3 by lia.
      rewrite C_pascal by lia.
      replace (placeholders - 1 - 1 + 1) with (placeholders - 1) by lia. lia.
    + apply Forall_app. split.
      * apply Forall_map. apply Forall_forall. intros c _. exists (Z.of_nat (S n)), c.
        split; [reflexivity|lia].
      * eapply Forall_impl; [exact Hhead|]. intros c (x & c' & -> & Hx).
        exists x, c'. split; [reflexivity|lia].
    + apply StronglySorted_app_lex; [apply StronglySorted_map_cons, Hc3|assumption|].
      intros a b Ha Hb. apply list_elem_of_fmap in Ha as (a' & -> & _).
      rewrite Forall_forall in Hhead. destruct (Hhead b Hb) as (x & c' & -> & Hx).
      left. lia.
    + intros _. destruct Hc4 as (c & combos' & ->); [lia|].
      exists ((have - Z.of_nat (S n) - (placeholders - 1) + 1) :: c).
      eexists. simpl. reflexivity.
Qed.

End TakeLoop.

Lemma word_combinations_rec_spec depth : forall have placeholders,
  1 <= placeholders -> (Z.to_nat placeholders <= depth)%nat ->
  exists combos, word_combinations_rec depth have placeholders = Some combos /\
                 allocations have placeholders combos.
Proof.
  induction depth as [|depth IH]; intros have placeholders Hp Hd; [lia|].
  cbn [word_combinations_rec].
  destruct (Z.ltb_spec have placeholders) as [Hlt|Hge].
  { exists []. split; [reflexivity|]. repeat split; try constructor.
    - simpl. symmetry. apply C_small. lia.
    - lia. }
  destruct (Z.eqb_spec have placeholders) as [->|Hne].
  { exists [repeat 1 (Z.to_nat placeholders)]. split; [reflexivity|].
    repeat split.
    - constructor; [|constructor]. repeat split.
      + rewrite repeat_length. lia.
      + apply Forall_repeat_1.
      + rewrite total_repeat_1. lia.
    - simpl. symmetry. apply C_diag. lia.
    - constructor; constructor.
    - intros _. replace (Z.to_nat placeholders) with (S (Z.to_nat (placeholders - 1))) by lia.
      simpl. replace (placeholders - placeholders + 1) with 1 by lia. eauto. }
  destruct (Z.eqb_spec placeholders 1) as [->|Hne1].
  { exists [[have]]. split; [reflexivity|]. repeat split.
    - constructor; [|constructor]. repeat split.
      + constructor; [lia|constructor].
      + simpl. lia.
    - simpl. symmetry. apply C_zero. lia.
    - constructor; constructor.
    - intros _. replace (have - 1 + 1) with have by lia. eauto. }
  destruct (take_loop_spec (word_combinations_rec depth) have placeholders ltac:(lia)
              ltac:(intros h; apply IH; lia) (Z.to_nat (have - (placeholders - 1))) ltac:(lia))
    as (combos & Hcombos & Hall & Hcount & _ & Hsorted & Hfirst).
  exists combos. split; [exact Hcombos|]. repeat split; try assumption.
  - rewrite <- Hcount. rewrite (C_small (have - _ - 1)) by lia. lia.
  - intros _. destruct Hfirst as (c & combos' & ->); [lia|].
    replace (Z.of_nat (Z.to_nat (have - (placeholders - 1)))) with (have - placeholders + 1) by lia.
    eauto.
Qed.

(** The generator terminates for [placeholders >= 1], within the bound of
    [word_combinations], and meets [allocations]. *)
Lemma word_combinations_total have placeholders :
  1 <= placeholders ->
  exists combos, word_combinations have placeholders = Some combos /\
                 allocations have placeholders combos.
Proof. intros Hp. apply word_combinations_rec_spec; [exact Hp|lia]. Qed.

(** A larger bound on the nesting changes nothing once a result exists. *)
Lemma take_loop_mono (rec rec' : Z -> Z -> option (list (list Z))) have placeholders og :
  (forall h p combos, rec h p = Some combos -> rec' h p = Some combos) ->
  forall n combos,
    take_loop rec have placeholders og n = Some combos ->
    take_loop rec' have placeholders og n = Some combos.
Proof.
  intros Hrec. induction n as [|n IH]; intros combos; cbn [take_loop]; [tauto|].
  destruct (have >=? placeholders - 1).
  - destruct (rec _ og) as [cs|] eqn:Hcs; [|discriminate].
    rewrite (Hrec _ _ _ Hcs).
    destruct (take_loop rec _ _ _ n) as [later|]; [|discriminate].
    rewrite (IH later eq_refl). tauto.
  - destruct (take_loop rec _ _ _ n) as [later|]; [|discriminate].
    rewrite (IH later eq_refl). tauto.
Qed.

Lemma word_combinations_rec_mono depth : forall have placeholders combos depth',
  (depth <= depth')%nat ->
  word_combinations_rec depth have placeholders = Some combos ->
  word_combinations_rec depth' have placeholders = Some combos.
Proof.
  induction depth as [|depth IH]; intros have placeholders combos depth' Hle; [discriminate|].
  destruct depth' as [|depth']; [lia|]. cbn [word_combinations_rec].
  destruct (have <? placeholders); [tauto|].
  destruct (have =? placeholders); [tauto|].
  destruct (placeholders =? 1); [tauto|].
  apply take_loop_mono. intros h p cs. apply IH. lia.
Qed.

(** ** The context resolver: proofs *)

Lemma length_append (s1 s2 : string) :
  String.length (s1 +:+ s2) = (String.length s1 + String.length s2)%nat.
Proof. induction s1 as [|a s1 IH]; simpl; [reflexivity|]. rewrite IH. reflexivity. Qed.

Lemma prefix_append (s t : string) :
  String.prefix s t = true <-> exists rest, t = s +:+ rest.
Proof.
  revert t. induction s as [|a s IH]; intros t.
  - split; [intros _; exists t; reflexivity|]. intros _. destruct t; reflexivity.
  - destruct t as [|b t]; simpl.
    + split; [discriminate|]. intros (rest & H). discriminate.
    + destruct (ascii_dec a b) as [->|Hne].
      * rewrite IH. split; intros (rest & H); exists rest; [rewrite H; reflexivity|].
        injection H as H. exact H.
      * split; [discriminate|]. intros (rest & H). injection H as H1 H2. congruence.
Qed.

Lemma is_active_active_in current p :
  is_active (Some current) p = Return (active_in current p).
Proof.
  unfold is_active, active_in, qualified.
  destruct (pattern_context p) as [context|]; [|reflexivity].
  assert (Hq : (if negb (context =? "default")%string then "default." +:+ context else context)
               = (if decide (context = "default") then "default" else "default." +:+ context)).
  { destruct (String.eqb_spec context "default"), (decide (context = "default"));
      simpl; congruence. }
  rewrite Hq. set (q := if decide (context = "default") then _ else _).
  destruct (String.eqb_spec q current) as [->|Hne].
  - rewrite bool_decide_eq_true_2 by reflexivity. reflexivity.
  - rewrite bool_decide_eq_false_2 by congruence. simpl.
    unfold Str.slice_to, Str.len.
    replace (String.length q + 1)%nat with (String.length (q +:+ "."))
      by (rewrite length_append; reflexivity).
    destruct (String.eqb_spec (q +:+ ".") (substring 0 (String.length (q +:+ ".")) current))
      as [Heq|Hneq].
    + symmetry in Heq. apply prefix_correct in Heq. rewrite Heq. reflexivity.
    + destruct (String.prefix (q +:+ ".") current) eqn:Hpre; [|reflexivity].
      apply prefix_correct in Hpre. congruence.
Qed.

Lemma set_context_all_cons c cs c0 :
  exists current, set_context_all (c :: cs) c0 = Some current /\
    (current = "default" \/ exists rest, current = "default." +:+ rest).
Proof.
  revert c c0. induction cs as [|c' cs IH]; intros c c0.
  - unfold set_context_all, set_context. simpl.
    destruct (String.eqb_spec c "default") as [->|Hne]; simpl; eauto.
  - apply (IH c' (set_context c)).
Qed.

(** ** The pattern compiler: proofs *)

Section Characters.

(** Facts about single characters are checked on each of the 256 values. *)
Local Ltac each_char c :=
  destruct c as [[|] [|] [|] [|] [|] [|] [|] [|]]; simpl;
  try reflexivity; try (intros H; first [reflexivity | discriminate H]).

Lemma char_isalpha_cases c :
  Str.char_isalpha c = true -> Str.char_isupper c = negb (Str.char_islower c).
Proof. each_char c. Qed.

Lemma char_lower_islower c :
  Str.char_isupper c = true -> Str.char_islower (Str.char_lower c) = true.
Proof. each_char c. Qed.

Lemma char_lower_not_upper c : Str.char_isupper (Str.char_lower c) = false.
Proof. each_char c. Qed.

End Characters.

Lemma chars_nil w : Str.chars w = [] <-> w = "".
Proof. destruct w; simpl; split; intros H; congruence. Qed.

Lemma forallb_isalpha_non_letter l :
  forallb Str.char_isalpha l = negb (existsb (fun c => negb (Str.char_isalpha c)) l).
Proof.
  induction l as [|c l IH]; simpl; [reflexivity|]. rewrite IH.
  destruct (Str.char_isalpha c); reflexivity.
Qed.

Lemma letters_case l :
  forallb Str.char_isalpha l = true ->
  existsb Str.char_islower l = negb (forallb Str.char_isupper l) /\
  existsb Str.char_isupper l = negb (forallb Str.char_islower l).
Proof.
  induction l as [|c l IH]; simpl; [split; reflexivity|].
  intros H. apply andb_true_iff in H as [Hc Hl]. destruct (IH Hl) as [-> ->].
  rewrite (char_isalpha_cases c Hc). destruct (Str.char_islower c); split; reflexivity.
Qed.

Lemma letters_not_both l :
  l <> [] -> forallb Str.char_isalpha l = true ->
  forallb Str.char_isupper l && forallb Str.char_islower l = false.
Proof.
  destruct l as [|c l]; [congruence|]. simpl. intros _ H.
  apply andb_true_iff in H as [Hc _]. rewrite (char_isalpha_cases c Hc).
  destruct (Str.char_islower c); simpl; [reflexivity|apply andb_false_r].
Qed.

(** The three tests of [Pattern.__init__] on a non-empty word, in the
    terms of the spec. *)
Lemma word_tests w :
  w <> "" ->
  Str.isalpha w = negb (has_non_letter w) /\
  (Str.isalpha w = true ->
   Str.isupper w = all_uppercase w /\
   Str.islower w = all_lowercase w /\
   mixes_case w = negb (all_uppercase w || all_lowercase w) /\
   all_uppercase w && all_lowercase w = false).
Proof.
  intros Hw. unfold Str.isalpha, Str.isupper, Str.islower, has_non_letter, mixes_case,
    all_uppercase, all_lowercase.
  destruct (String.eqb_spec w "") as [|_]; [contradiction|]. simpl negb. rewrite !andb_true_l.
  split; [apply forallb_isalpha_non_letter|].
  intros Halpha. destruct (letters_case _ Halpha) as [Hlow Hup].
  assert (Hnb := letters_not_both (Str.chars w) ltac:(rewrite chars_nil; exact Hw) Halpha).
  rewrite Hlow, Hup.
  destruct (forallb Str.char_isupper (Str.chars w)), (forallb Str.char_islower (Str.chars w));
    simpl in *; repeat split; congruence.
Qed.

Lemma split_from_nonempty s : forall word,
  Forall (fun w => w <> "") (Str.split_from word s).
Proof.
  assert (Hemit : forall word, Forall (fun w => w <> "") (Str.emit word)).
  { intros [|c word]; simpl; constructor; [discriminate|constructor]. }
  induction s as [|c s IH]; intros word; simpl; [apply Hemit|].
  destruct (Str.char_isspace c); [|apply IH].
  apply Forall_app. split; [apply Hemit|apply IH].
Qed.

Lemma split_nonempty s : Forall (fun w => w <> "") (Str.split s).
Proof. apply split_from_nonempty. Qed.

Lemma compile_words_spec command words : forall match_ argnames placeholders,
  Forall (fun w => w <> "") words ->
  match compile_words command words match_ argnames placeholders with
  | Raise e =>
      Exists (fun w => malformed w = true) words /\
      (e = InvalidCommand (LettersOnly command) \/ e = InvalidCommand (MixedCase command))
  | Return (match', argnames', placeholders') =>
      Forall (fun w => malformed w = false) words /\
      match' = match_ ++ map classify words /\
      argnames' = argnames ++ placeholder_names (map classify words) /\
      placeholders' = placeholders + Z.of_nat (length (placeholder_names (map classify words)))
  end.
Proof.
  induction words as [|w words IH]; intros match_ argnames placeholders Hne.
  - simpl. rewrite !app_nil_r. repeat split; [constructor|lia].
  - apply Forall_cons in Hne as [Hw Hne]. cbn [compile_words].
    destruct (word_tests w Hw) as [Halpha Hcase]. unfold malformed.
    destruct (Str.isalpha w) eqn:Ha; simpl negb; cbv iota.
    2:{ split; [|left; reflexivity]. left. rewrite <- (negb_involutive (has_non_letter w)),
          <- Halpha. reflexivity. }
    destruct (Hcase eq_refl) as (Hup & Hlow & Hmix & Hnb).
    assert (Hnl : has_non_letter w = false).
    { rewrite <- (negb_involutive (has_non_letter w)), <- Halpha. reflexivity. }
    destruct (Str.isupper w) eqn:Hu.
    { specialize (IH (match_ ++ [Placeholder (Str.lower w)]) (argnames ++ [Str.lower w])
                     (placeholders + 1) Hne).
      destruct (compile_words _ words _ _ _) as [[[m' a'] n']|e].
      - destruct IH as (Hall & -> & -> & ->). cbn [map].
        assert (Hc : classify w = Placeholder (Str.lower w))
          by (unfold classify; rewrite <- Hup; reflexivity).
        rewrite Hc. cbn [placeholder_names length]. rewrite <- !app_assoc. simpl.
        repeat split; try reflexivity; [|lia].
        constructor; [|exact Hall]. rewrite Hnl, Hmix, <- Hup. reflexivity.
      - destruct IH as [Hex He]. split; [right; exact Hex|exact He]. }
    destruct (Str.islower w) eqn:Hl.
    { specialize (IH (match_ ++ [Literal w]) argnames placeholders Hne).
      destruct (compile_words _ words _ _ _) as [[[m' a'] n']|e].
      - destruct IH as (Hall & -> & -> & ->). cbn [map].
        assert (Hc : classify w = Literal w)
          by (unfold classify; rewrite <- Hup; reflexivity).
        rewrite Hc. cbn [placeholder_names length]. rewrite <- !app_assoc. simpl.
        repeat split; try reflexivity.
        constructor; [|exact Hall]. rewrite Hnl, Hmix, <- Hup, <- Hlow. reflexivity.
      - destruct IH as [Hex He]. split; [right; exact Hex|exact He]. }
    split; [|right; reflexivity]. left. rewrite Hnl, Hmix, <- Hup, <- Hlow. reflexivity.
Qed.

Lemma prefix_loop_leading match_ : forall prefix,
  prefix_loop match_ prefix = prefix ++ leading_literals match_.
Proof.
  induction match_ as [|[w|name] match_ IH]; intros prefix; simpl.
  - rewrite app_nil_r. reflexivity.
  - rewrite IH, <- app_assoc. reflexivity.
  - rewrite app_nil_r. reflexivity.
Qed.

Lemma leading_literals_length tokens :
  (length (leading_literals tokens) <= length tokens)%nat.
Proof. induction tokens as [|[w|name] tokens IH]; simpl; lia. Qed.

Lemma leading_literals_split tokens :
  map Literal (leading_literals tokens) ++ drop (length (leading_literals tokens)) tokens
  = tokens.
Proof. induction tokens as [|[w|name] tokens IH]; simpl; [reflexivity| |reflexivity].
  rewrite IH. reflexivity. Qed.

Lemma leading_literals_maximal tokens w rest :
  drop (length (leading_literals tokens)) tokens <> Literal w :: rest.
Proof. induction tokens as [|[w'|name] tokens IH]; simpl; [discriminate|exact IH|discriminate]. Qed.

Lemma placeholder_names_drop_leading tokens :
  placeholder_names (drop (length (leading_literals tokens)) tokens)
  = placeholder_names tokens.
Proof. induction tokens as [|[w|name] tokens IH]; simpl; [reflexivity|exact IH|reflexivity]. Qed.

(** The compiler computes the Pattern of the spec, or raises on a malformed
    word. *)
Lemma Pattern_init_compile_spec command context :
  match Pattern_init command context with
  | Raise e =>
      Exists (fun w => malformed w = true) (Str.split command) /\
      (e = InvalidCommand (LettersOnly command) \/ e = InvalidCommand (MixedCase command))
  | Return p =>
      Forall (fun w => malformed w = false) (Str.split command) /\
      p = compile_spec command context
  end.
Proof.
  unfold Pattern_init.
  assert (H := compile_words_spec command (Str.split command) [] [] 0 (split_nonempty command)).
  destruct (compile_words _ _ _ _ _) as [[[m a] n]|e]; [|exact H].
  destruct H as (Hall & -> & -> & ->). split; [exact Hall|].
  unfold compile_spec. simpl app. rewrite prefix_loop_leading. simpl app.
  f_equal. rewrite length_drop.
  assert (Hle := leading_literals_length (map classify (Str.split command))). lia.
Qed.

Lemma Pattern_init_return command context p :
  Pattern_init command context = Return p -> p = compile_spec command context.
Proof.
  intros H. assert (Hs := Pattern_init_compile_spec command context).
  rewrite H in Hs. apply Hs.
Qed.

Lemma wellformed_word w :
  w <> "" -> malformed w = false ->
  all_lowercase w = true /\ classify w = Literal w \/
  all_uppercase w = true /\ classify w = Placeholder (Str.lower w).
Proof.
  intros Hw Hm. destruct (word_tests w Hw) as [Halpha Hcase]. unfold malformed in Hm.
  apply orb_false_iff in Hm as [Hnl Hmix]. rewrite Hnl in Halpha.
  destruct (Hcase Halpha) as (_ & _ & Hmix' & Hnb). rewrite Hmix in Hmix'.
  unfold classify.
  destruct (all_uppercase w), (all_lowercase w); simpl in *; try discriminate; auto.
Qed.

Lemma all_lowercase_lower w : all_uppercase w = true -> all_lowercase (Str.lower w) = true.
Proof.
  unfold all_uppercase, all_lowercase, Str.lower, Str.chars. intros H.
  apply andb_true_iff in H as [Hne Hup]. rewrite list_ascii_of_string_of_list_ascii.
  apply andb_true_iff. split.
  - destruct w; [discriminate|reflexivity].
  - rewrite forallb_forall in *. intros c Hc. apply in_map_iff in Hc as (c' & <- & Hc').
    apply char_lower_islower, Hup, Hc'.
Qed.

Lemma classify_token_of words :
  Forall (fun w => w <> "") words -> Forall (fun w => malformed w = false) words ->
  Forall (token_of words) (map classify words).
Proof.
  intros Hne Hwf. apply Forall_map. apply Forall_forall. intros w Hw.
  rewrite Forall_forall in Hne, Hwf.
  destruct (wellformed_word w (Hne w Hw) (Hwf w Hw)) as [[Hl ->]|[Hu ->]]; simpl.
  - exact Hl.
  - split; [apply all_lowercase_lower, Hu|]. exists w. auto.
Qed.

Lemma leading_literals_token_of words tokens :
  Forall (token_of words) tokens ->
  Forall (fun w => all_lowercase w = true) (leading_literals tokens).
Proof.
  induction 1 as [|[w|name] tokens Ht _ IH]; simpl; constructor; assumption.
Qed.

(** ** The matcher: proofs *)

Lemma compile_spec_wf command context : wf_pattern (compile_spec command context).
Proof.
  assert (Hle := leading_literals_length (map classify (Str.split command))).
  split; simpl.
  - rewrite placeholder_names_drop_leading. reflexivity.
  - rewrite placeholder_names_drop_leading. reflexivity.
  - rewrite length_drop. lia.
  - intros w rest. apply leading_literals_maximal.
Qed.

Lemma Pattern_init_wf command context p :
  Pattern_init command context = Return p -> wf_pattern p.
Proof. intros H. rewrite (Pattern_init_return _ _ _ H). apply compile_spec_wf. Qed.

Lemma placeholder_names_length tokens :
  (length (placeholder_names tokens) <= length tokens)%nat.
Proof. induction tokens as [|[w|name] tokens IH]; simpl; lia. Qed.

Lemma next_words_take n : forall inp,
  (n <= length inp)%nat -> next_words n inp = Some (take n inp, drop n inp).
Proof.
  induction n as [|n IH]; intros inp Hn; [reflexivity|].
  destruct inp as [|w inp]; simpl in *; [lia|]. rewrite IH by lia. reflexivity.
Qed.

Lemma total_nonneg c : Forall (fun x => 0 <= x) c -> 0 <= total c.
Proof. induction 1 as [|x c Hx _ IH]; simpl; [lia|]. fold (total c). lia. Qed.

(** On an allocation of the right length and sum, one pass of the loop over
    the pattern is one attempt of the spec: no [StopIteration] cuts it
    short, and it completes exactly when the words run out with the
    tokens. *)
Lemma try_combo_captures tokens : forall take inp matches,
  length take = length (placeholder_names tokens) ->
  Forall (fun x => 0 <= x) take ->
  total take + Z.of_nat (length tokens) - Z.of_nat (length (placeholder_names tokens))
    = Z.of_nat (length inp) ->
  attempt_mapping (try_combo tokens take inp matches)
  = (fun bs => fold_left (fun m b => <[b.1 := b.2]> m) bs (Str.join " " <$> matches))
      <$> captures tokens take inp.
Proof.
  induction tokens as [|[w|name] tokens IH]; intros take inp matches Hlen Hpos Hsum.
  - destruct take; [|discriminate]. destruct inp; [reflexivity|]. simpl in Hsum. lia.
  - assert (Hph := placeholder_names_length tokens). assert (Ht := total_nonneg _ Hpos).
    cbn [placeholder_names length] in *.
    destruct inp as [|word inp]; [simpl in Hsum; lia|].
    cbn [try_combo captures].
    destruct (String.eqb_spec w word) as [->|Hne].
    + rewrite decide_True by reflexivity. simpl negb. cbv iota.
      apply IH; [assumption|assumption|]. simpl length in Hsum. lia.
    + rewrite decide_False by congruence. reflexivity.
  - assert (Hph := placeholder_names_length tokens).
    cbn [placeholder_names length] in *.
    destruct take as [|count take]; [discriminate|].
    apply Forall_cons in Hpos as [Hcount Hpos]. assert (Ht := total_nonneg _ Hpos).
    cbn [total fold_right] in Hsum. fold (total take) in Hsum.
    cbn [try_combo captures].
    assert (Hin : (Z.to_nat count <= length inp)%nat) by lia.
    rewrite (next_words_take _ _ Hin), decide_True by exact Hin.
    rewrite IH.
    + rewrite fmap_insert. destruct (captures tokens take _); reflexivity.
    + simpl in Hlen. lia.
    + assumption.
    + rewrite length_drop. lia.
Qed.

Lemma combos_loop_first_success tokens inp have combos :
  Forall (allocation have (Z.of_nat (length (placeholder_names tokens)))) combos ->
  have + Z.of_nat (length tokens) - Z.of_nat (length (placeholder_names tokens))
    = Z.of_nat (length inp) ->
  combos_loop tokens inp combos
  = first_success (fun a => mapping_of <$> captures tokens a inp) combos.
Proof.
  intros Hall Hhave. induction Hall as [|combo combos (Hlen & Hpos & Hsum) _ IH];
    [reflexivity|].
  cbn [combos_loop first_success].
  assert (H := try_combo_captures tokens combo inp ∅ ltac:(lia)
                 ltac:(eapply Forall_impl; [exact Hpos|simpl; lia]) ltac:(lia)).
  rewrite fmap_empty in H. fold mapping_of in H.
  change (fun bs => fold_left (fun m b => <[b.1 := b.2]> m) bs ∅) with mapping_of in H.
  rewrite <- H.
  destruct (try_combo tokens combo inp ∅); simpl; [reflexivity|exact IH|exact IH].
Qed.

Lemma take_prefix_of {A : Type} (l1 l2 : list A) :
  take (length l1) l2 = l1 <-> l1 `prefix_of` l2.
Proof.
  split.
  - intros <-. apply prefix_take.
  - intros (k & ->). apply take_app_length.
Qed.

(** [Pattern.match] computes the matcher of the spec on every well-formed
    pattern, in every set context. *)
Lemma Pattern_match_refines current p input_words :
  wf_pattern p ->
  Pattern_match (Some current) p input_words = Return (match_spec current p input_words).
Proof.
  intros [Hph Harg Hfix Hhead]. unfold Pattern_match, match_spec.
  rewrite is_active_active_in.
  destruct (active_in current p); simpl negb; cbv iota; [|reflexivity].
  rewrite Harg.
  destruct (Nat.ltb_spec (length input_words) (length (placeholder_names (pattern p))))
    as [Hlt|Hge].
  { rewrite bool_decide_eq_true_2 by (rewrite Hph; lia). reflexivity. }
  rewrite (bool_decide_eq_false_2 (_ < _)) by (rewrite Hph; lia).
  rewrite (bool_decide_ext _ _ (take_prefix_of (prefix p) input_words)).
  destruct (bool_decide (prefix p `prefix_of` input_words)); simpl negb; cbv iota;
    [|reflexivity].
  set (remaining := drop (length (prefix p)) input_words).
  destruct (pattern p) as [|t tokens] eqn:Hpat, remaining as [|word rest] eqn:Hrem;
    cbn [truthy negb andb Bool.eqb]; try reflexivity.
  destruct t as [w|name]; [exfalso; exact (Hhead w tokens eq_refl)|].
  destruct (word_combinations_total
              (Z.of_nat (length (word :: rest)) - fixed p) (placeholders p))
    as (combos & Hcombos & Hall & _).
  { rewrite Hph. simpl. lia. }
  rewrite Hcombos. f_equal.
  apply (combos_loop_first_success _ _ (Z.of_nat (length (word :: rest)) - fixed p)).
  - rewrite <- Hph. exact Hall.
  - rewrite Hfix, Hph. lia.
Qed.

(** ** The registry and the dispatcher: proofs *)

Lemma as_qmark_wf q : wf_pattern q -> wf_pattern (as_qmark q).
Proof. intros [H1 H2 H3 H4]. split; assumption. Qed.

Lemma registered_wf p : registered p -> wf_pattern p.
Proof.
  intros (command & context & q & Hq & [->| ->]).
  - apply (Pattern_init_wf _ _ _ Hq).
  - apply as_qmark_wf, (Pattern_init_wf _ _ _ Hq).
Qed.

Lemma Pattern_init_registered command context p :
  Pattern_init command context = Return p -> registered p.
Proof. intros H. exists command, context, p. auto. Qed.

(** With the context set, matching a registered pattern returns. *)
Lemma Pattern_match_returns current p ws :
  registered p -> exists r, Pattern_match (Some current) p ws = Return r.
Proof. intros Hp. eexists. apply Pattern_match_refines, registered_wf, Hp. Qed.

Lemma commands_loop_outcome current ws cmd commands :
  Forall (fun e => registered (entry_pattern e)) commands ->
  exists c, commands_loop (Some current) ws cmd commands = Return [c] /\
    ((exists i p f kwargs matches,
         commands !! i = Some (p, f, kwargs) /\
         Pattern_match (Some current) p ws = Return (Some matches) /\
         (forall j q g kw, (j < i)%nat -> commands !! j = Some (q, g, kw) ->
                           Pattern_match (Some current) q ws = Return None) /\
         c = CallHandler f (update kwargs matches)) \/
     ((forall q g kw, (q, g, kw) ∈ commands ->
                      Pattern_match (Some current) q ws = Return None) /\
      c = CallNoCommandMatches cmd)).
Proof.
  induction 1 as [|[[p f] kwargs] commands Hp _ IH].
  - exists (CallNoCommandMatches cmd). split; [reflexivity|]. right.
    split; [|reflexivity]. intros q g kw Hin. inversion Hin.
  - cbn [commands_loop].
    destruct (Pattern_match_returns current p ws Hp) as ([matches|] & Hm); rewrite Hm.
    + exists (CallHandler f (update kwargs matches)). split; [reflexivity|]. left.
      exists 0%nat, p, f, kwargs, matches. repeat split; try reflexivity; [exact Hm|].
      intros j q g kw Hj. lia.
    + destruct IH as (c & Hc & Hcases). exists c. split; [exact Hc|].
      destruct Hcases as [(i & p' & f' & kw' & m' & Hi & Hm' & Hbefore & ->)|[Hnone ->]].
      * left. exists (S i), p', f', kw', m'. repeat split; try assumption; try reflexivity.
        intros [|j] q g kw Hj Hlook.
        -- simpl in Hlook. injection Hlook as -> -> ->. exact Hm.
        -- simpl in Hlook. apply (Hbefore j q g kw); [lia|exact Hlook].
      * right. split; [|reflexivity]. intros q g kw Hin.
        apply elem_of_cons in Hin as [Heq|Hin]; [|apply (Hnone q g kw Hin)].
        injection Heq as -> -> ->. exact Hm.
Qed.

Lemma captures_names tokens : forall allocation words bs,
  captures tokens allocation words = Some bs -> map fst bs = placeholder_names tokens.
Proof.
  induction tokens as [|[w|name] tokens IH]; intros allocation words bs; cbn [captures].
  - destruct allocation, words; intros H; try discriminate. injection H as <-. reflexivity.
  - destruct words as [|word words]; [discriminate|].
    destruct (decide (word = w)); [|discriminate]. apply IH.
  - destruct allocation as [|n allocation]; [discriminate|].
    destruct (decide _); [|discriminate].
    destruct (captures tokens allocation _) as [bs'|] eqn:Hbs; [|discriminate].
    simpl. intros H. injection H as <-. simpl. f_equal. apply (IH _ _ _ Hbs).
Qed.

Lemma fold_insert_lookup (bs : list (string * string)) : forall (m : gmap string string) k,
  k ∈ map fst bs \/ is_Some (m !! k) ->
  is_Some (fold_left (fun m b => <[b.1 := b.2]> m) bs m !! k).
Proof.
  induction bs as [|[k' v] bs IH]; intros m k Hk; simpl.
  - destruct Hk as [Hk|Hk]; [inversion Hk|exact Hk].
  - apply IH. destruct Hk as [Hk|Hk].
    + simpl in Hk. apply elem_of_cons in Hk as [->|Hk]; [right|left; exact Hk].
      rewrite lookup_insert_eq. eauto.
    + right. destruct (decide (k' = k)) as [->|Hne].
      * rewrite lookup_insert_eq. eauto.
      * rewrite lookup_insert_ne by exact Hne. exact Hk.
Qed.

Lemma first_success_Some {A B : Type} (f : A -> option B) l b :
  first_success f l = Some b -> exists a, a ∈ l /\ f a = Some b.
Proof.
  induction l as [|a l IH]; simpl; [discriminate|].
  destruct (f a) as [b'|] eqn:Hfa.
  - intros H. injection H as <-. exists a. split; [left|exact Hfa].
  - intros H. destruct (IH H) as (a' & Ha' & Hfa'). exists a'. split; [right; exact Ha'|exact Hfa'].
Qed.

(** A mapping returned by [match] binds every argument name of the
    pattern. *)
Lemma Pattern_match_binds current p ws matches :
  wf_pattern p ->
  Pattern_match (Some current) p ws = Return (Some matches) ->
  forall k, k ∈ argnames p -> is_Some (matches !! k).
Proof.
  intros Hwf Hm k Hk. rewrite (Pattern_match_refines _ _ _ Hwf) in Hm.
  injection Hm as Hm. unfold match_spec in Hm. rewrite (wf_argnames _ Hwf) in Hk.
  destruct (negb _); [discriminate|]. destruct (bool_decide _); [discriminate|].
  destruct (negb _); [discriminate|].
  destruct (pattern p) as [|t tokens] eqn:Hpat.
  { inversion Hk. }
  destruct (drop _ ws) as [|word rest]; [discriminate|].
  destruct (word_combinations _ _) as [allocations|]; [|discriminate].
  apply first_success_Some in Hm as (a & _ & Ha).
  destruct (captures (t :: tokens) a (word :: rest)) as [bs|] eqn:Hbs; [|discriminate].
  injection Ha as <-. apply fold_insert_lookup. left.
  rewrite (captures_names _ _ _ _ Hbs). exact Hk.
Qed.

Lemma update_lookup kwargs matches k :
  update kwargs matches !! k
  = match matches !! k with
    | Some s => Some (VStr s)
    | None => kwargs !! k
    end.
Proof.
  unfold update. rewrite lookup_union, lookup_fmap.
  destruct (matches !! k), (kwargs !! k); reflexivity.
Qed.

Lemma when_all_appends rs : forall commands,
  exists users,
    (when_all rs commands).2 = commands ++ users /\
    ((when_all rs commands).1 = Return tt -> map entry_func users = map reg_func rs).
Proof.
  induction rs as [|r rs IH]; intros commands.
  - exists []. simpl. rewrite app_nil_r. auto.
  - cbn [when_all]. unfold when, _register.
    destruct (Pattern_init (reg_command r) (reg_context r)) as [p|e].
    + destruct (bool_decide _).
      * exists []. simpl. rewrite app_nil_r. split; [reflexivity|discriminate].
      * destruct (IH (commands ++ [(p, reg_func r, reg_kwargs r)])) as (users & H1 & H2).
        exists ((p, reg_func r, reg_kwargs r) :: users). rewrite H1, <- app_assoc.
        split; [reflexivity|]. intros H. simpl. f_equal. apply H2, H.
    + exists []. simpl. rewrite app_nil_r. split; [reflexivity|discriminate].
Qed.

(** The comparison of the two name sets in [_register], element by
    element. *)
Lemma same_names_sets (f : func) (p : Pattern) (kwargs : gmap string value) :
  (list_to_set (parameters f) : gset string) = list_to_set (argnames p) ∪ dom kwargs
  <-> same_names f p kwargs.
Proof.
  unfold same_names. rewrite set_eq. apply forall_proper. intros x.
  rewrite elem_of_union, !elem_of_list_to_set, elem_of_dom. reflexivity.
Qed.

(** In a context made by [set_context], a pattern compiled for the root
    context is active. *)
Lemma root_pattern_active c o n a pr pa fx :
  is_active (set_context c) (mkPattern o (Some "default") n a pr pa fx) = Return true.
Proof.
  unfold set_context. destruct (String.eqb_spec c "default") as [->|Hne]; [reflexivity|].
  destruct c; reflexivity.
Qed.

(** The tokens of a line: [split] gives non-empty words without
    whitespace, and after [lower] no character is an uppercase letter. *)
Lemma split_from_chars (Q : ascii -> Prop) s : forall word,
  Forall (fun c => Str.char_isspace c = false /\ Q c) word ->
  Forall Q s ->
  Forall (fun w => w <> "" /\
                   Forall (fun c => Str.char_isspace c = false /\ Q c) (Str.chars w))
         (Str.split_from word s).
Proof.
  assert (Hemit : forall word,
    Forall (fun c => Str.char_isspace c = false /\ Q c) word ->
    Forall (fun w => w <> "" /\
                     Forall (fun c => Str.char_isspace c = false /\ Q c) (Str.chars w))
           (Str.emit word)).
  { intros [|c word] Hword; simpl; constructor; [|constructor].
    split; [discriminate|]. unfold Str.chars.
    change (String c (string_of_list_ascii word)) with (string_of_list_ascii (c :: word)).
    rewrite list_ascii_of_string_of_list_ascii. exact Hword. }
  induction s as [|c s IH]; intros word Hword Hs; simpl; [apply Hemit, Hword|].
  apply Forall_cons in Hs as [Hc Hs].
  destruct (Str.char_isspace c) eqn:Hsp.
  - apply Forall_app. split; [apply Hemit, Hword|]. apply IH; [constructor|exact Hs].
  - apply IH; [|exact Hs]. apply Forall_app. split; [exact Hword|].
    constructor; [|constructor]. split; [exact Hsp|exact Hc].
Qed.

Lemma tokens_of_line cmd :
  Forall (fun w => w <> "" /\
                   Forall (fun c => Str.char_isspace c = false /\
                                    Str.char_isupper c = false) (Str.chars w))
         (Str.split (Str.lower cmd)).
Proof.
  apply split_from_chars; [constructor|].
  unfold Str.lower, Str.chars. rewrite list_ascii_of_string_of_list_ascii.
  apply Forall_map. apply Forall_forall. intros c _. apply char_lower_not_upper.
Qed.

(** ** The allocator: every allocation is yielded *)

Lemma total_ge_length c : Forall (fun x => 1 <= x) c -> Z.of_nat (length c) <= total c.
Proof. induction 1 as [|x c Hx _ IH]; simpl; [lia|]. fold (total c). lia. Qed.

Lemma all_ones c :
  Forall (fun x => 1 <= x) c -> total c = Z.of_nat (length c) -> c = repeat 1 (length c).
Proof.
  induction 1 as [|x c Hx Hc IH]; simpl; [reflexivity|]. fold (total c). intros Hsum.
  assert (Hge := total_ge_length c Hc).
  assert (x = 1) as -> by lia. f_equal. apply IH. lia.
Qed.

Lemma take_loop_complete (rec : Z -> Z -> option (list (list Z))) have placeholders :
  (forall h combos c, rec h (placeholders - 1) = Some combos ->
                      allocation h (placeholders - 1) c -> c ∈ combos) ->
  placeholders - 1 <= have ->
  forall n combos x c,
    take_loop rec have placeholders (placeholders - 1) n = Some combos ->
    1 <= x <= Z.of_nat n -> allocation (have - x) (placeholders - 1) c ->
    (x :: c) ∈ combos.
Proof.
  intros Hrec Hhave. induction n as [|n IH]; intros combos x c Hloop Hx Hc; [lia|].
  cbn [take_loop] in Hloop. destruct (Z.geb_spec have (placeholders - 1)); [|lia].
  destruct (rec _ _) as [cs|] eqn:Hcs; [|discriminate].
  destruct (take_loop rec _ _ _ n) as [later|] eqn:Hlater; [|discriminate].
  injection Hloop as <-. apply elem_of_app.
  destruct (decide (x = Z.of_nat (S n))) as [->|Hne].
  - left. apply list_elem_of_fmap. exists c. split; [reflexivity|].
    apply (Hrec _ _ _ Hcs Hc).
  - right. apply (IH later x c eq_refl); [lia|exact Hc].
Qed.

Lemma word_combinations_rec_complete depth : forall have placeholders combos c,
  1 <= placeholders ->
  word_combinations_rec depth have placeholders = Some combos ->
  allocation have placeholders c -> c ∈ combos.
Proof.
  induction depth as [|depth IH]; intros have placeholders combos c Hp Hwc Hc; [discriminate|].
  destruct Hc as (Hlen & Hpos & Hsum). assert (Hge := total_ge_length c Hpos).
  cbn [word_combinations_rec] in Hwc.
  destruct (Z.ltb_spec have placeholders); [lia|].
  destruct (Z.eqb_spec have placeholders) as [Heq|Hne].
  { injection Hwc as <-. rewrite (all_ones c Hpos) by lia.
    replace (Z.to_nat placeholders) with (length c) by lia. left. }
  destruct (Z.eqb_spec placeholders 1) as [->|Hne1].
  { injection Hwc as <-. destruct c as [|x [|y c]]; simpl in Hlen; try lia.
    simpl in Hsum. replace x with have by lia. left. }
  destruct c as [|x c]; [simpl in Hlen; lia|].
  apply Forall_cons in Hpos as [Hx Hpos]. simpl in Hlen, Hsum. fold (total c) in Hsum.
  assert (Hge' := total_ge_length c Hpos).
  apply (take_loop_complete (word_combinations_rec depth) have placeholders) with
    (n := Z.to_nat (have - (placeholders - 1))).
  - intros h cs c' Hcs Hc'. apply (IH h (placeholders - 1) cs c'); [lia|exact Hcs|exact Hc'].
  - lia.
  - exact Hwc.
  - lia.
  - repeat split; [lia|exact Hpos|lia].
Qed.

Lemma lex_lt_irrefl a : ~ lex_lt a a.
Proof. induction a as [|x a IH]; simpl; [tauto|]. intros [H|[_ H]]; [lia|exact (IH H)]. Qed.

Lemma StronglySorted_lex_NoDup (l : list (list Z)) : StronglySorted lex_gt l -> NoDup l.
Proof.
  induction 1 as [|a l Hs IH Hall]; constructor; [|exact IH].
  intros Hin. rewrite Forall_forall in Hall. exact (lex_lt_irrefl a (Hall a Hin)).
Qed.

(** ** The matcher: parses, keys and round trip *)

Lemma first_success_complete {A B : Type} (f : A -> option B) l a b :
  a ∈ l -> f a = Some b -> exists b', first_success f l = Some b'.
Proof.
  induction l as [|a' l IH]; intros Hin Hfa; [inversion Hin|]. simpl.
  destruct (f a') as [b'|] eqn:Hfa'; [eauto|].
  apply elem_of_cons in Hin as [->|Hin]; [congruence|]. apply (IH Hin Hfa).
Qed.

(** What a successful attempt says about the allocation and the words. *)
Lemma captures_shape tokens : forall allocation words bs,
  captures tokens allocation words = Some bs ->
  Forall (fun x => 1 <= x) allocation ->
  length allocation = length (placeholder_names tokens) /\
  total allocation + Z.of_nat (length tokens) - Z.of_nat (length (placeholder_names tokens))
    = Z.of_nat (length words) /\
  (tokens = [] <-> words = []).
Proof.
  induction tokens as [|[w|name] tokens IH]; intros allocation words bs; cbn [captures].
  - destruct allocation, words; try discriminate. intros _ _. simpl. repeat split; lia.
  - destruct words as [|word words]; [discriminate|].
    destruct (decide (word = w)); [|discriminate]. intros Hc Hpos.
    destruct (IH _ _ _ Hc Hpos) as (H1 & H2 & _). cbn [placeholder_names length].
    repeat split; try discriminate; lia.
  - destruct allocation as [|n allocation]; [discriminate|].
    destruct (decide _) as [Hn|]; [|discriminate].
    destruct (captures tokens allocation _) as [bs'|] eqn:Hbs; [|discriminate].
    intros _ Hpos. apply Forall_cons in Hpos as [Hn1 Hpos].
    destruct (IH _ _ _ Hbs Hpos) as (H1 & H2 & _). rewrite length_drop in H2.
    cbn [placeholder_names length total fold_right]. fold (total allocation).
    repeat split; try discriminate; try lia.
    intros ->. simpl in Hn. lia.
Qed.

(** A mapping returned by [match] comes from a parse. *)
Lemma Pattern_match_parse current p ws m :
  wf_pattern p ->
  Pattern_match (Some current) p ws = Return (Some m) ->
  active_in current p = true /\ prefix p `prefix_of` ws /\
  exists allocation bs, parses p ws allocation bs /\ m = mapping_of bs.
Proof.
  intros Hwf Hm. rewrite (Pattern_match_refines _ _ _ Hwf) in Hm.
  injection Hm as Hm. unfold match_spec in Hm. unfold parses.
  destruct (active_in current p); [|discriminate]. cbn [negb] in Hm.
  destruct (bool_decide _); [discriminate|].
  destruct (bool_decide (prefix p `prefix_of` ws)) eqn:Hpre; [|discriminate].
  apply bool_decide_eq_true_1 in Hpre. cbn [negb] in Hm.
  split; [reflexivity|]. split; [exact Hpre|].
  destruct (pattern p) as [|t tokens] eqn:Hpat, (drop (length (prefix p)) ws)
    as [|word rest] eqn:Hrest; try discriminate.
  - injection Hm as <-. exists [], []. repeat split. constructor.
  - destruct (word_combinations_total (Z.of_nat (length (word :: rest)) - fixed p)
                (placeholders p)) as (combos & Hcombos & Hall & _).
    { destruct t as [w|name]; [exfalso; exact (wf_head _ Hwf w tokens Hpat)|].
      rewrite (wf_placeholders _ Hwf), Hpat. simpl. lia. }
    rewrite Hcombos in Hm. apply first_success_Some in Hm as (a & Ha & Hf).
    destruct (captures (t :: tokens) a (word :: rest)) as [bs|] eqn:Hbs;
      simpl in Hf; [|discriminate Hf].
    injection Hf as <-. exists a, bs. repeat split; [|exact Hbs].
    rewrite Forall_forall in Hall. apply (Hall a Ha).
Qed.

(** Whenever the words have a parse, [match] returns a mapping. *)
Lemma Pattern_match_complete current p ws allocation bs :
  wf_pattern p ->
  active_in current p = true -> prefix p `prefix_of` ws -> parses p ws allocation bs ->
  exists m, Pattern_match (Some current) p ws = Return (Some m).
Proof.
  intros Hwf Hact Hpre [Hpos Hcap].
  rewrite (Pattern_match_refines _ _ _ Hwf). unfold match_spec. rewrite Hact. cbn [negb].
  destruct (captures_shape _ _ _ _ Hcap Hpos) as (Hlen & Hsum & Hnil).
  assert (Hge := total_ge_length _ Hpos).
  assert (Hph := placeholder_names_length (pattern p)).
  assert (Hdrop := length_drop ws (length (prefix p))).
  rewrite bool_decide_eq_false_2 by (rewrite (wf_placeholders _ Hwf); lia).
  rewrite bool_decide_eq_true_2 by exact Hpre. cbn [negb].
  destruct (pattern p) as [|t tokens] eqn:Hpat, (drop (length (prefix p)) ws)
    as [|word rest] eqn:Hrest.
  - eauto.
  - destruct Hnil as [Hnil _]. discriminate (Hnil eq_refl).
  - destruct Hnil as [_ Hnil]. discriminate (Hnil eq_refl).
  - assert (Hp1 : 1 <= placeholders p).
    { destruct t as [w|name]; [exfalso; exact (wf_head _ Hwf w tokens Hpat)|].
      rewrite (wf_placeholders _ Hwf), Hpat. simpl. lia. }
    destruct (word_combinations_total (Z.of_nat (length (word :: rest)) - fixed p)
                (placeholders p) Hp1) as (combos & Hcombos & _).
    rewrite Hcombos.
    assert (Hin : allocation ∈ combos).
    { unfold word_combinations in Hcombos.
      apply (word_combinations_rec_complete _ _ _ _ _ Hp1 Hcombos).
      rewrite (wf_fixed _ Hwf), (wf_placeholders _ Hwf), Hpat.
      repeat split; [lia|exact Hpos|lia]. }
    destruct (first_success_complete
                (fun a => mapping_of <$> captures (t :: tokens) a (word :: rest))
                combos allocation (mapping_of bs) Hin) as (m & Hm).
    { rewrite Hcap. reflexivity. }
    exists m. rewrite Hm. reflexivity.
Qed.

Lemma fold_insert_dom (bs : list (string * string)) : forall (m : gmap string string),
  dom (fold_left (fun m b => <[b.1 := b.2]> m) bs m) = list_to_set (map fst bs) ∪ dom m.
Proof.
  induction bs as [|[k v] bs IH]; intros m; simpl.
  - rewrite (left_id_L ∅ (∪)). reflexivity.
  - rewrite IH, dom_insert_L. apply set_eq. intros x. rewrite !elem_of_union. tauto.
Qed.

Lemma fold_insert_agree (bs : list (string * string)) : forall (m1 m2 : gmap string string) k,
  m1 !! k = m2 !! k ->
  fold_left (fun m b => <[b.1 := b.2]> m) bs m1 !! k
  = fold_left (fun m b => <[b.1 := b.2]> m) bs m2 !! k.
Proof.
  induction bs as [|[k' v] bs IH]; intros m1 m2 k Hk; simpl; [exact Hk|].
  apply IH. destruct (decide (k' = k)) as [->|Hne].
  - rewrite !lookup_insert_eq. reflexivity.
  - rewrite !lookup_insert_ne by exact Hne. exact Hk.
Qed.

Lemma fold_insert_other (bs : list (string * string)) : forall (m : gmap string string) k,
  k ∉ map fst bs -> fold_left (fun m b => <[b.1 := b.2]> m) bs m !! k = m !! k.
Proof.
  induction bs as [|[k' v] bs IH]; intros m k Hk; simpl; [reflexivity|].
  simpl in Hk. apply not_elem_of_cons in Hk as [Hne Hk].
  rewrite IH by exact Hk. apply lookup_insert_ne. congruence.
Qed.

Lemma mapping_of_lookup (bs : list (string * string)) k v :
  NoDup (map fst bs) -> (k, v) ∈ bs -> mapping_of bs !! k = Some v.
Proof.
  unfold mapping_of. generalize (∅ : gmap string string).
  induction bs as [|[k' v'] bs IH]; intros m Hnd Hin; [inversion Hin|].
  simpl in *. apply NoDup_cons in Hnd as [Hk' Hnd].
  apply elem_of_cons in Hin as [Heq|Hin].
  - injection Heq as -> ->. rewrite fold_insert_other by exact Hk'.
    apply lookup_insert_eq.
  - apply (IH _ Hnd Hin).
Qed.

Lemma append_assoc (a b c : string) : (a +:+ b) +:+ c = a +:+ b +:+ c.
Proof.
  induction a as [|x a IH]; [reflexivity|].
  change (String x ((a +:+ b) +:+ c) = String x (a +:+ b +:+ c)). rewrite IH. reflexivity.
Qed.

Lemma join_cons sep w ws : ws <> [] -> Str.join sep (w :: ws) = w +:+ sep +:+ Str.join sep ws.
Proof. destruct ws; [congruence|reflexivity]. Qed.

Lemma join_app sep l1 l2 :
  l1 <> [] -> l2 <> [] ->
  Str.join sep (l1 ++ l2) = Str.join sep l1 +:+ sep +:+ Str.join sep l2.
Proof.
  intros H1 H2. induction l1 as [|w l1 IH]; [congruence|].
  destruct l1 as [|w' l1].
  - simpl app. apply join_cons, H2.
  - change ((w :: w' :: l1) ++ l2) with (w :: ((w' :: l1) ++ l2)).
    rewrite join_cons by discriminate. rewrite IH by discriminate.
    rewrite (join_cons sep w (w' :: l1)) by discriminate.
    rewrite !append_assoc. reflexivity.
Qed.

(** Putting the captures of a parse back into the tokens gives the words
    again, joined with single spaces. *)
Lemma captures_render tokens (m : gmap string string) : forall allocation words bs,
  captures tokens allocation words = Some bs ->
  Forall (fun x => 1 <= x) allocation ->
  (forall k v, (k, v) ∈ bs -> m !! k = Some v) ->
  Str.join " " (map (render m) tokens) = Str.join " " words.
Proof.
  induction tokens as [|[w|name] tokens IH]; intros allocation words bs Hcap Hpos Hm.
  - destruct (captures_shape _ _ _ _ Hcap Hpos) as (_ & _ & [Hnil _]).
    rewrite (Hnil eq_refl). reflexivity.
  - cbn [captures] in Hcap. destruct words as [|word words]; [discriminate|].
    destruct (decide (word = w)) as [->|]; [|discriminate].
    destruct (captures_shape _ _ _ _ Hcap Hpos) as (_ & _ & Hnil).
    specialize (IH _ _ _ Hcap Hpos Hm). cbn [map render].
    destruct tokens as [|t tokens].
    + destruct Hnil as [Hnil _]. rewrite (Hnil eq_refl). reflexivity.
    + destruct words as [|word' words].
      { destruct Hnil as [_ Hnil]. discriminate (Hnil eq_refl). }
      rewrite !join_cons by discriminate. rewrite IH. reflexivity.
  - cbn [captures] in Hcap. destruct allocation as [|n allocation]; [discriminate|].
    destruct (decide _) as [Hn|]; [|discriminate].
    destruct (captures tokens allocation _) as [bs'|] eqn:Hbs; [|discriminate].
    injection Hcap as <-. apply Forall_cons in Hpos as [Hn1 Hpos].
    destruct (captures_shape _ _ _ _ Hbs Hpos) as (_ & _ & Hnil).
    assert (IH' := IH _ _ _ Hbs Hpos ltac:(intros k v Hkv; apply Hm; right; exact Hkv)).
    cbn [map render]. rewrite (Hm name _ ltac:(left)). simpl default.
    rewrite <- (take_drop (Z.to_nat n) words) at 2.
    assert (Htake : take (Z.to_nat n) words <> []).
    { destruct words; [simpl in Hn; lia|]. destruct (Z.to_nat n) eqn:Hz; [lia|discriminate]. }
    destruct tokens as [|t tokens].
    + destruct Hnil as [Hnil _]. rewrite (Hnil eq_refl), app_nil_r. reflexivity.
    + destruct (drop (Z.to_nat n) words) as [|word' rest] eqn:Hdrop.
      { destruct Hnil as [_ Hnil]. discriminate (Hnil eq_refl). }
      rewrite join_cons by discriminate. rewrite join_app by (assumption || discriminate).
      rewrite IH'. reflexivity.
Qed.

Lemma all_literal_leading words :
  placeholder_names (map classify words) = [] ->
  leading_literals (map classify words) = words.
Proof.
  induction words as [|w words IH]; [reflexivity|]. cbn [map].
  unfold classify at 1 3. destruct (all_uppercase w); cbn [placeholder_names leading_literals];
    [discriminate|].
  intros H. rewrite (IH H). reflexivity.
Qed.

Lemma prefix_of_exact {A : Type} (l ws : list A) :
  l `prefix_of` ws /\ drop (length l) ws = [] <-> ws = l.
Proof.
  split.
  - intros [(k & ->) Hdrop]. rewrite drop_app_length in Hdrop. subst k.
    apply app_nil_r.
  - intros ->. split; [reflexivity|]. apply drop_all.
Qed.

Lemma match_spec_literal current p ws :
  pattern p = [] -> placeholders p = 0 ->
  match_spec current p ws
  = if active_in current p && bool_decide (ws = prefix p) then Some ∅ else None.
Proof.
  intros Hpat Hph. unfold match_spec. rewrite Hpat, Hph.
  destruct (active_in current p); [|reflexivity]. cbn [negb andb].
  rewrite bool_decide_eq_false_2 by lia.
  destruct (decide (ws = prefix p)) as [->|Hne].
  - rewrite !bool_decide_eq_true_2 by reflexivity. rewrite drop_all. reflexivity.
  - rewrite (bool_decide_eq_false_2 (ws = _)) by exact Hne.
    destruct (bool_decide (prefix p `prefix_of` ws)) eqn:Hpre; [|reflexivity].
    apply bool_decide_eq_true_1 in Hpre. cbn [negb].
    destruct (drop (length (prefix p)) ws) eqn:Hdrop; [|reflexivity].
    exfalso. apply Hne. apply prefix_of_exact. auto.
Qed.

Lemma fold_insert_lookup_inv (bs : list (string * string)) :
  forall (m : gmap string string) k v,
    fold_left (fun m b => <[b.1 := b.2]> m) bs m !! k = Some v ->
    (k, v) ∈ bs \/ m !! k = Some v.
Proof.
  induction bs as [|[k' v'] bs IH]; intros m k v Hk; simpl in *; [right; exact Hk|].
  destruct (IH _ _ _ Hk) as [Hin|Hm]; [left; right; exact Hin|].
  destruct (decide (k' = k)) as [->|Hne].
  - rewrite lookup_insert_eq in Hm. injection Hm as ->. left. left.
  - rewrite lookup_insert_ne in Hm by exact Hne. right. exact Hm.
Qed.

(** With one word for every placeholder, each capture is a word of the
    input. *)
Lemma captures_single_words tokens : forall allocation words bs,
  Forall (fun x => x = 1) allocation ->
  captures tokens allocation words = Some bs ->
  forall k v, (k, v) ∈ bs -> v ∈ words.
Proof.
  induction tokens as [|[w|name] tokens IH]; intros allocation words bs Hones;
    cbn [captures].
  - destruct allocation, words; try discriminate. intros H. injection H as <-.
    intros k v Hkv. inversion Hkv.
  - destruct words as [|word words]; [discriminate|].
    destruct (decide (word = w)); [|discriminate]. intros Hc k v Hkv. right.
    apply (IH _ _ _ Hones Hc k v Hkv).
  - destruct allocation as [|n allocation]; [discriminate|].
    apply Forall_cons in Hones as [-> Hones].
    destruct (decide _) as [Hn|]; [|discriminate].
    destruct words as [|word words]; [simpl in Hn; lia|].
    change (Z.to_nat 1) with 1%nat.
    change (take 1 (word :: words)) with [word].
    change (drop 1 (word :: words)) with words. cbn [Str.join].
    destruct (captures tokens allocation words) as [bs'|] eqn:Hbs; simpl;
      [|intros H; discriminate H].
    intros H. injection H as <-. intros k v Hkv.
    apply elem_of_cons in Hkv as [Heq|Hkv].
    + injection Heq as -> ->. left.
    + right. apply (IH _ _ _ Hones Hbs k v Hkv).
Qed.

(** ** The context resolver: a context and its descendants *)

Lemma dotted_not_default (c d : string) : c +:+ "." +:+ d <> "default".
Proof.
  assert (H : forall s,
    forallb (fun ch => negb (Ascii.eqb ch ".")) (list_ascii_of_string s) = true ->
    forall c, c +:+ "." +:+ d <> s).
  { clear c. intros s Hs c. revert s Hs. induction c as [|a c IH]; intros s Hs Heq.
    - subst s. discriminate Hs.
    - destruct s as [|b s]; [discriminate|]. injection Heq as -> Heq.
      simpl in Hs. apply andb_true_iff in Hs as [_ Hs]. exact (IH s Hs Heq). }
  apply H. reflexivity.
Qed.

Lemma set_context_value c : set_context c = Some (qualified c).
Proof.
  unfold set_context, qualified.
  destruct (String.eqb_spec c "default"), (decide (c = "default")); simpl; congruence.
Qed.

Lemma qualified_length c : (7 <= String.length (qualified c))%nat.
Proof.
  unfold qualified. destruct (decide (c = "default")); [simpl; lia|].
  rewrite length_append. simpl. lia.
Qed.

Lemma active_in_iff current p :
  active_in current p = true <->
  exists c, pattern_context p = Some c /\
            (current = qualified c \/ exists rest, current = (qualified c +:+ ".") +:+ rest).
Proof.
  unfold active_in. destruct (pattern_context p) as [c|].
  - rewrite orb_true_iff, bool_decide_eq_true, prefix_append. split.
    + intros H. exists c. auto.
    + intros (c' & Hc & H). injection Hc as <-. exact H.
  - split; [discriminate|]. intros (c & Hc & _). discriminate.
Qed.

(** A pattern active in the context of [c] is active in the context of
    every [c.d]. *)
Lemma active_in_descendant c d p :
  active_in (qualified c) p = true ->
  active_in (qualified (c +:+ "." +:+ d)) p = true.
Proof.
  rewrite !active_in_iff. intros (ctx & Hctx & Hact). exists ctx. split; [exact Hctx|].
  right. unfold qualified at 1.
  rewrite decide_False by apply dotted_not_default.
  unfold qualified in Hact at 1 3. destruct (decide (c = "default")) as [->|Hne].
  - destruct Hact as [Hq|(rest & Hrest)].
    + rewrite <- Hq. exists ("default." +:+ d). reflexivity.
    + exfalso. apply (f_equal String.length) in Hrest.
      rewrite !length_append in Hrest. assert (H7 := qualified_length ctx).
      simpl in Hrest. lia.
  - destruct Hact as [Hq|(rest & Hrest)].
    + exists d. rewrite <- Hq. rewrite !append_assoc. reflexivity.
    + exists (rest +:+ "." +:+ d).
      change ("default." +:+ c +:+ "." +:+ d) with ("default." +:+ (c +:+ "." +:+ d)).
      rewrite <- (append_assoc "default." c), Hrest, !append_assoc. reflexivity.
Qed.

(** A pattern of the sub-context [c.d] is not active in the context of
    [c]. *)
Lemma active_in_parent c d p :
  pattern_context p = Some (c +:+ "." +:+ d) -> active_in (qualified c) p = false.
Proof.
  intros Hctx. destruct (active_in (qualified c) p) eqn:Hact; [|reflexivity].
  exfalso. apply active_in_iff in Hact as (ctx & Hctx' & Hact).
  rewrite Hctx in Hctx'. injection Hctx' as <-.
  assert (Hlen : (String.length (qualified c) < String.length (qualified (c +:+ "." +:+ d)))%nat).
  { assert (Hq2 : qualified (c +:+ "." +:+ d) = "default." +:+ (c +:+ "." +:+ d)).
    { unfold qualified. apply decide_False, dotted_not_default. }
    rewrite Hq2. unfold qualified.
    destruct (decide (c = "default")) as [->|Hne]; rewrite !length_append; simpl; lia. }
  destruct Hact as [Hq|(rest & Hrest)].
  - rewrite <- Hq in Hlen. lia.
  - rewrite Hrest in Hlen at 1. rewrite !length_append in Hlen. lia.
Qed.

(** ** The registry and the dispatcher: further lemmas *)

Lemma register_entry_of r commands commands' :
  when r commands = (Return tt, commands') ->
  exists e, commands' = commands ++ [e] /\ entry_of r e.
Proof.
  unfold when, _register.
  destruct (Pattern_init (reg_command r) (reg_context r)) as [p|e] eqn:Hp; [|discriminate].
  destruct (bool_decide _) eqn:Hd; [discriminate|]. intros H. injection H as <-.
  exists (p, reg_func r, reg_kwargs r). split; [reflexivity|].
  split; [exact Hp|]. split; [reflexivity|]. split; [reflexivity|].
  apply same_names_sets. apply bool_decide_eq_false_1 in Hd.
  destruct (decide ((list_to_set (parameters (reg_func r)) : gset string)
                    = list_to_set (argnames p) ∪ dom (reg_kwargs r))); [assumption|].
  contradiction.
Qed.

Lemma when_outcome r commands :
  (exists commands', when r commands = (Return tt, commands')) \/
  (exists e, when r commands = (Raise e, commands)).
Proof.
  unfold when, _register.
  destruct (Pattern_init _ _); [|eauto]. destruct (bool_decide _); eauto.
Qed.

(** The decorations run in order up to the first one that raises; each one
    before it has appended its entry. *)
Lemma when_all_entries rs : forall commands,
  (exists users, when_all rs commands = (Return tt, commands ++ users) /\
                 Forall2 entry_of rs users) \/
  (exists rs1 r rs2 users e,
      rs = rs1 ++ r :: rs2 /\
      when_all rs commands = (Raise e, commands ++ users) /\
      Forall2 entry_of rs1 users /\
      when_all rs1 commands = (Return tt, commands ++ users) /\
      when r (commands ++ users) = (Raise e, commands ++ users)).
Proof.
  induction rs as [|r rs IH]; intros commands.
  - left. exists []. rewrite app_nil_r. split; [reflexivity|constructor].
  - cbn [when_all]. destruct (when_outcome r commands) as [(commands' & Hw)|(e & Hw)].
    + rewrite Hw. destruct (register_entry_of _ _ _ Hw) as (en & -> & Hen).
      destruct (IH (commands ++ [en]))
        as [(users & Hall & Hus)|(rs1 & r' & rs2 & users & e & -> & Hall & Hus & H1 & Hr)].
      * left. exists (en :: users). rewrite <- app_assoc in Hall. split; [exact Hall|].
        constructor; assumption.
      * right. exists (r :: rs1), r', rs2, (en :: users), e.
        rewrite <- !app_assoc in *. simpl in *.
        repeat split; try assumption.
        -- constructor; assumption.
        -- rewrite Hw. exact H1.
    + rewrite Hw. right. exists [], r, rs, [], e. rewrite app_nil_r.
      repeat split; try reflexivity; [constructor|exact Hw].
Qed.

Lemma entry_of_registered r e : entry_of r e -> registered (entry_pattern e).
Proof. intros (Hp & _). apply (Pattern_init_registered _ _ _ Hp). Qed.

(** The calls of a dispatch depend on the line only through its tokens,
    except for the argument of [no_command_matches]. *)
Lemma commands_loop_handler cc ws a b commands f args :
  commands_loop cc ws a commands = Return [CallHandler f args] ->
  commands_loop cc ws b commands = Return [CallHandler f args].
Proof.
  induction commands as [|[[p g] kw] commands IH]; simpl; [discriminate|].
  destruct (Pattern_match cc p ws) as [[m|]|e]; [tauto|exact IH|tauto].
Qed.

Section MoreCharacters.

Local Ltac each_char c :=
  destruct c as [[|] [|] [|] [|] [|] [|] [|] [|]]; reflexivity.

Lemma char_lower_upper c : Str.char_lower (char_upper c) = Str.char_lower c.
Proof. each_char c. Qed.

Lemma char_upper_lower c :
  Str.char_isupper c = true -> char_upper (Str.char_lower c) = c.
Proof.
  destruct c as [[|] [|] [|] [|] [|] [|] [|] [|]]; simpl; intros H;
    first [reflexivity | discriminate H].
Qed.

Lemma char_lower_isspace c : Str.char_isspace (Str.char_lower c) = Str.char_isspace c.
Proof. each_char c. Qed.

Lemma char_lower_idem c : Str.char_lower (Str.char_lower c) = Str.char_lower c.
Proof. each_char c. Qed.

End MoreCharacters.

Lemma chars_of_list l : Str.chars (string_of_list_ascii l) = l.
Proof. apply list_ascii_of_string_of_list_ascii. Qed.

Lemma lower_upper s : Str.lower (Str_upper s) = Str.lower s.
Proof.
  unfold Str.lower, Str_upper. rewrite chars_of_list, map_map. f_equal.
  apply map_ext. intros c. apply char_lower_upper.
Qed.

Lemma lower_idem s : Str.lower (Str.lower s) = Str.lower s.
Proof.
  unfold Str.lower. rewrite chars_of_list, map_map. f_equal.
  apply map_ext. intros c. apply char_lower_idem.
Qed.

Lemma split_from_lstrip s : Str.split_from [] (lstrip_chars s) = Str.split_from [] s.
Proof.
  induction s as [|c s IH]; [reflexivity|]. simpl.
  destruct (Str.char_isspace c) eqn:Hc; [exact IH|]. simpl. rewrite Hc. reflexivity.
Qed.

Lemma split_from_cons word c s :
  Str.split_from word (c :: s)
  = if Str.char_isspace c then Str.emit word ++ Str.split_from [] s
    else Str.split_from (word ++ [c]) s.
Proof. reflexivity. Qed.

Lemma split_from_rstrip s : forall word,
  Str.split_from word (rstrip_chars s) = Str.split_from word s.
Proof.
  induction s as [|c s IH]; intros word; [reflexivity|]. cbn [rstrip_chars].
  destruct (rstrip_chars s) as [|k kept] eqn:Hr.
  - destruct (Str.char_isspace c) eqn:Hc.
    + simpl. rewrite Hc, <- IH. simpl. rewrite app_nil_r. reflexivity.
    + simpl. rewrite Hc, <- IH. reflexivity.
  - rewrite (split_from_cons word c s), (split_from_cons word c (k :: kept)), !IH.
    reflexivity.
Qed.

Lemma split_strip s : Str.split (Str_strip s) = Str.split s.
Proof.
  unfold Str.split, Str_strip. rewrite chars_of_list, split_from_rstrip.
  apply split_from_lstrip.
Qed.

Lemma lstrip_map_lower s :
  lstrip_chars (map Str.char_lower s) = map Str.char_lower (lstrip_chars s).
Proof.
  induction s as [|c s IH]; [reflexivity|]. simpl. rewrite char_lower_isspace.
  destruct (Str.char_isspace c); [exact IH|reflexivity].
Qed.

Lemma rstrip_map_lower s :
  rstrip_chars (map Str.char_lower s) = map Str.char_lower (rstrip_chars s).
Proof.
  induction s as [|c s IH]; [reflexivity|]. simpl. rewrite IH, char_lower_isspace.
  destruct (rstrip_chars s); simpl; [destruct (Str.char_isspace c)|]; reflexivity.
Qed.

Lemma lower_strip s : Str.lower (Str_strip s) = Str_strip (Str.lower s).
Proof.
  unfold Str.lower, Str_strip. rewrite !chars_of_list, lstrip_map_lower, rstrip_map_lower.
  reflexivity.
Qed.

Lemma chars_append a b : Str.chars (a +:+ b) = Str.chars a ++ Str.chars b.
Proof.
  induction a as [|x a IH]; [reflexivity|].
  change (Str.chars (String x (a +:+ b)) = x :: (Str.chars a ++ Str.chars b)).
  unfold Str.chars in *. simpl. rewrite IH. reflexivity.
Qed.

(** Each capture of an attempt is a non-empty run of the words, joined
    with single spaces. *)
Lemma captures_chunks tokens : forall allocation words bs,
  captures tokens allocation words = Some bs ->
  Forall (fun x => 1 <= x) allocation ->
  forall k v, (k, v) ∈ bs ->
    exists chunk, chunk <> [] /\ (forall w, w ∈ chunk -> w ∈ words) /\
                  v = Str.join " " chunk.
Proof.
  induction tokens as [|[w|name] tokens IH]; intros allocation words bs; cbn [captures].
  - destruct allocation, words; try discriminate. intros H _ k v Hkv.
    injection H as <-. inversion Hkv.
  - destruct words as [|word words]; [discriminate|].
    destruct (decide (word = w)); [|discriminate]. intros Hc Hpos k v Hkv.
    destruct (IH _ _ _ Hc Hpos k v Hkv) as (chunk & H1 & H2 & H3).
    exists chunk. split; [exact H1|]. split; [|exact H3]. intros x Hx. right. apply H2, Hx.
  - destruct allocation as [|n allocation]; [discriminate|].
    destruct (decide _) as [Hn|]; [|discriminate].
    destruct (captures tokens allocation _) as [bs'|] eqn:Hbs; simpl;
      [|intros H; discriminate H].
    intros H Hpos k v Hkv. injection H as <-. apply Forall_cons in Hpos as [Hn1 Hpos].
    apply elem_of_cons in Hkv as [Heq|Hkv].
    + injection Heq as -> ->. exists (take (Z.to_nat n) words). split; [|split].
      * destruct words; [simpl in Hn; lia|]. destruct (Z.to_nat n) eqn:Hz; [lia|discriminate].
      * intros x Hx. apply (subseteq_take (Z.to_nat n) words x Hx).
      * reflexivity.
    + destruct (IH _ _ _ Hbs Hpos k v Hkv) as (chunk & H1 & H2 & H3).
      exists chunk. split; [exact H1|]. split; [|exact H3].
      intros x Hx. apply (subseteq_drop (Z.to_nat n) words x), H2, Hx.
Qed.

Lemma join_no_uppercase chunk :
  Forall no_uppercase chunk -> no_uppercase (Str.join " " chunk).
Proof.
  induction 1 as [|w chunk Hw Hc IH]; [constructor|].
  destruct chunk as [|w' chunk]; [exact Hw|].
  rewrite join_cons by discriminate. unfold no_uppercase in *.
  rewrite !chars_append. apply Forall_app. split; [exact Hw|].
  apply Forall_app. split; [|exact IH]. repeat constructor.
Qed.

Lemma join_nonempty chunk :
  chunk <> [] -> Forall (fun w => w <> "") chunk -> Str.join " " chunk <> "".
Proof.
  intros Hne Hall. destruct chunk as [|w chunk]; [congruence|].
  apply Forall_cons in Hall as [Hw _]. destruct chunk; [exact Hw|].
  rewrite join_cons by discriminate. destruct w; [congruence|discriminate].
Qed.

(** ** Printing, help and the input loop: lemmas *)

Lemma string_of_chars w : string_of_list_ascii (Str.chars w) = w.
Proof. apply string_of_list_ascii_of_string. Qed.

Lemma upper_lower_word w : all_uppercase w = true -> Str_upper (Str.lower w) = w.
Proof.
  unfold all_uppercase, Str_upper, Str.lower. intros H.
  apply andb_true_iff in H as [_ Hup]. rewrite chars_of_list, map_map.
  rewrite <- (string_of_chars w) at 2. f_equal.
  rewrite forallb_forall in Hup. rewrite <- (map_id (Str.chars w)) at 2.
  apply map_ext_in. intros c Hc. apply char_upper_lower, Hup, Hc.
Qed.

Lemma token_str_classify words :
  Forall (fun w => w <> "") words -> Forall (fun w => malformed w = false) words ->
  map token_str (map classify words) = words.
Proof.
  intros Hne Hwf. rewrite map_map. rewrite <- (map_id words) at 2.
  apply map_ext_in. intros w Hw. apply list_elem_of_In in Hw.
  rewrite Forall_forall in Hne, Hwf.
  destruct (wellformed_word w (Hne w Hw) (Hwf w Hw)) as [[_ ->]|[Hu ->]]; simpl;
    [reflexivity|].
  apply upper_lower_word, Hu.
Qed.

Lemma active_patterns_filter current commands :
  active_patterns (Some current) commands
  = Return (map (fun e => orig_pattern (entry_pattern e))
              (filter (fun e => active_in current (entry_pattern e)) commands)).
Proof.
  induction commands as [|[[c f] kw] commands IH]; [reflexivity|].
  cbn [active_patterns]. rewrite is_active_active_in, IH.
  rewrite filter_cons. change (entry_pattern (c, f, kw)) with c.
  destruct (active_in current c); reflexivity.
Qed.

Lemma Pattern_match_active current p ws m :
  Pattern_match (Some current) p ws = Return (Some m) -> active_in current p = true.
Proof.
  unfold Pattern_match. rewrite is_active_active_in.
  destruct (active_in current p); [reflexivity|discriminate].
Qed.

Lemma commands_loop_singleton cc ws cmd commands made :
  commands_loop cc ws cmd commands = Return made -> exists c, made = [c].
Proof.
  induction commands as [|[[p f] kw] commands IH]; simpl.
  - intros H. injection H as <-. eauto.
  - destruct (Pattern_match cc p ws) as [[m|]|e]; [|exact IH|discriminate].
    intros H. injection H as <-. eauto.
Qed.

Lemma filter_nonblank_cons line lines :
  filter (fun l => negb (blank l)) (line :: lines)
  = if blank line then filter (fun l => negb (blank l)) lines
    else line :: filter (fun l => negb (blank l)) lines.
Proof.
  rewrite filter_cons. destruct (decide _) as [H|H]; destruct (blank line);
    simpl in *; try reflexivity; [contradiction|exfalso; apply H; exact I].
Qed.

Section StartLemmas.

Context {E : Type}.
Variable call_handler :
  func -> gmap string value -> option string -> list entry ->
  (option string * list entry) + E.

Lemma input_loop_skips_blank lines : forall cc commands,
  input_loop call_handler lines cc commands
  = input_loop call_handler (filter (fun l => negb (blank l)) lines) cc commands.
Proof.
  induction lines as [|line lines IH]; intros cc commands; [reflexivity|].
  rewrite filter_nonblank_cons. cbn [input_loop].
  change (blank line) with (String.eqb (Str_strip line) "").
  destruct (String.eqb (Str_strip line) "") eqn:Hb.
  - apply IH.
  - cbn [input_loop]. rewrite Hb.
    destruct (_handle_command cc commands (Str_strip line)) as [made|e]; [|reflexivity].
    destruct (perform call_handler made cc commands) as [[cc' commands']|e]; [|reflexivity].
    rewrite IH. reflexivity.
Qed.

Lemma input_loop_count lines : forall cc commands,
  (length (input_loop call_handler lines cc commands).1
   <= length (filter (fun l => negb (blank l)) lines))%nat /\
  ((input_loop call_handler lines cc commands).2 = EndOfInput ->
   length (input_loop call_handler lines cc commands).1
   = length (filter (fun l => negb (blank l)) lines)).
Proof.
  induction lines as [|line lines IH]; intros cc commands; [simpl; auto|].
  rewrite !filter_nonblank_cons. cbn [input_loop].
  change (blank line) with (String.eqb (Str_strip line) "").
  destruct (String.eqb (Str_strip line) "") eqn:Hb.
  - apply IH.
  - cbn [length].
    destruct (_handle_command cc commands (Str_strip line)) as [made|e] eqn:Hh.
    + destruct (commands_loop_singleton _ _ _ _ _ Hh) as (c & ->).
      destruct (perform call_handler [c] cc commands) as [[cc' commands']|e].
      * specialize (IH cc' commands').
        destruct (input_loop call_handler lines cc' commands') as [later how].
        simpl in *. destruct IH as [IH1 IH2]. split; [lia|]. intros H. rewrite IH2; auto.
      * simpl. split; [lia|discriminate].
    + simpl. split; [lia|discriminate].
Qed.

End StartLemmas.

(** ** Bags and rooms: lemmas *)

Lemma Bag_find_Some bag name item :
  Bag_find bag name = Some item -> item ∈ bag /\ Str.lower name ∈ item_aliases item.
Proof.
  induction bag as [|x bag IH]; simpl; [discriminate|].
  destruct (bool_decide (Str.lower name ∈ item_aliases x)) eqn:Hx.
  - intros H. injection H as <-. split; [left|].
    apply bool_decide_eq_true_1 in Hx. exact Hx.
  - intros H. destruct (IH H) as [Hin Hal]. split; [right; exact Hin|exact Hal].
Qed.

Lemma Bag_find_None bag name :
  Bag_find bag name = None <->
  forall item, item ∈ bag -> Str.lower name ∉ item_aliases item.
Proof.
  induction bag as [|x bag IH]; simpl.
  - split; [intros _ item Hin; inversion Hin|reflexivity].
  - destruct (bool_decide (Str.lower name ∈ item_aliases x)) eqn:Hx.
    + apply bool_decide_eq_true_1 in Hx. split; [discriminate|].
      intros H. exfalso. apply (H x); [left|exact Hx].
    + apply bool_decide_eq_false_1 in Hx. rewrite IH. split.
      * intros H item Hin. apply elem_of_cons in Hin as [->|Hin]; [exact Hx|apply H, Hin].
      * intros H item Hin. apply H. right. exact Hin.
Qed.

Lemma Bag_find_lower_eq bag a b :
  Str.lower a = Str.lower b -> Bag_find bag a = Bag_find bag b.
Proof.
  intros H. induction bag as [|x bag IH]; simpl; [reflexivity|]. rewrite H, IH. reflexivity.
Qed.

Lemma same_item_eq a b : same_item a b = true <-> item_id a = item_id b.
Proof. unfold same_item. apply Nat.eqb_eq. Qed.

Lemma filter_keeps_all (obj : Item) (bag : list Item) :
  (forall i, i ∈ bag -> item_id i <> item_id obj) ->
  filter (fun i => negb (same_item obj i)) bag = bag.
Proof.
  induction bag as [|x bag IH]; intros H; [reflexivity|].
  rewrite filter_cons. destruct (decide _) as [Hk|Hk].
  - f_equal. apply IH. intros i Hi. apply H. right. exact Hi.
  - exfalso. apply Hk. apply negb_prop_intro. intros Hs. apply Is_true_true in Hs.
    apply same_item_eq in Hs. apply (H x); [left|congruence].
Qed.

(** Removing an item from a bag that holds each item once takes out that
    item and nothing else. *)
Lemma set_remove_splits (bag : list Item) (obj : Item) :
  distinct_items bag -> obj ∈ bag ->
  exists l1 l2, bag = l1 ++ obj :: l2 /\
                set_remove bag obj = Ok (l1 ++ l2) /\
                obj ∉ l1 ++ l2.
Proof.
  unfold distinct_items, set_remove. intros Hnd Hin.
  assert (Hex : existsb (same_item obj) bag = true).
  { apply existsb_exists. exists obj. split; [apply list_elem_of_In, Hin|].
    apply same_item_eq. reflexivity. }
  rewrite Hex. clear Hex. induction bag as [|x bag IH]; [inversion Hin|].
  simpl in Hnd. apply NoDup_cons in Hnd as [Hx Hnd].
  assert (Hids : forall i, i ∈ bag -> item_id i <> item_id x).
  { intros i Hi Heq. apply Hx. rewrite <- Heq. apply list_elem_of_fmap. eauto. }
  apply elem_of_cons in Hin as [->|Hin].
  - exists [], bag. rewrite filter_cons.
    destruct (decide _) as [Hk|_].
    + exfalso. apply negb_prop_elim in Hk. apply Hk. apply Is_true_true.
      apply same_item_eq. reflexivity.
    + rewrite (filter_keeps_all x bag Hids). repeat split.
      intros Hxin. apply (Hids x Hxin). reflexivity.
  - destruct (IH Hnd Hin) as (l1 & l2 & -> & Hf & Hnot).
    injection Hf as Hf. exists (x :: l1), l2. rewrite filter_cons.
    destruct (decide _) as [_|Hk].
    + rewrite Hf. repeat split. simpl. intros Hc.
      apply elem_of_cons in Hc as [->|Hc]; [|exact (Hnot Hc)].
      apply (Hids x Hin). reflexivity.
    + exfalso. apply Hk. apply negb_prop_intro. intros Hs. apply Is_true_true in Hs.
      apply same_item_eq in Hs. apply (Hids obj Hin). exact Hs.
Qed.

Lemma enumerate_until_lookup which (bag : list Item) : forall index,
  (index <= which)%nat -> enumerate_until which index bag = bag !! (which - index)%nat.
Proof.
  induction bag as [|x bag IH]; intros index Hle; [reflexivity|]. simpl.
  destruct (Nat.eqb_spec index which) as [->|Hne].
  - rewrite Nat.sub_diag. reflexivity.
  - rewrite IH by lia. replace (which - index)%nat with (S (which - S index)) by lia.
    reflexivity.
Qed.

Lemma check_direction_Ok directions dir :
  check_direction directions dir = Ok tt <->
  Str.islower dir = true /\ directions !! dir = None.
Proof.
  unfold check_direction. destruct (Str.islower dir); simpl.
  - destruct (directions !! dir) as [r|] eqn:Hd.
    + rewrite bool_decide_eq_true_2 by eauto. split; [discriminate|]. intros [_ H]. discriminate.
    + rewrite bool_decide_eq_false_2 by (intros [? ?]; discriminate). tauto.
  - split; [discriminate|]. intros [H _]. discriminate.
Qed.

Lemma add_direction_Ok forward reverse directions directions' :
  Room_add_direction forward reverse directions = Ok directions' ->
  Str.islower forward = true /\ Str.islower reverse = true /\
  directions !! forward = None /\ directions !! reverse = None /\
  directions' = <[reverse := forward]> (<[forward := reverse]> directions).
Proof.
  unfold Room_add_direction.
  destruct (check_direction directions forward) as [[]|e] eqn:Hf; [|discriminate].
  destruct (check_direction directions reverse) as [[]|e] eqn:Hr; [|discriminate].
  apply check_direction_Ok in Hf as [Hf1 Hf2]. apply check_direction_Ok in Hr as [Hr1 Hr2].
  intros H. injection H as <-. auto.
Qed.

Lemma add_direction_paired forward reverse directions directions' :
  Room_add_direction forward reverse directions = Ok directions' ->
  paired directions -> paired directions'.
Proof.
  intros Hadd Hp. destruct (add_direction_Ok _ _ _ _ Hadd) as (_ & _ & Hf & Hr & ->).
  intros d r Hd.
  destruct (decide (d = reverse)) as [->|Hdr].
  - rewrite lookup_insert_eq in Hd. injection Hd as <-.
    destruct (decide (reverse = forward)) as [->|Hne].
    + apply lookup_insert_eq.
    + rewrite lookup_insert_ne by exact Hne. apply lookup_insert_eq.
  - rewrite lookup_insert_ne in Hd by congruence.
    destruct (decide (d = forward)) as [->|Hdf].
    + rewrite lookup_insert_eq in Hd. injection Hd as <-. apply lookup_insert_eq.
    + rewrite lookup_insert_ne in Hd by congruence.
      assert (Hr' := Hp d r Hd).
      rewrite !lookup_insert_ne by congruence. exact Hr'.
Qed.

Lemma add_directions_paired pairs : forall directions,
  paired directions -> paired (add_directions pairs directions).
Proof.
  induction pairs as [|[forward reverse] pairs IH]; intros directions Hp; [exact Hp|].
  simpl. destruct (Room_add_direction forward reverse directions) as [directions'|e] eqn:Ha.
  - apply IH. apply (add_direction_paired _ _ _ _ Ha Hp).
  - apply IH, Hp.
Qed.

Lemma Room_exits_elem directions store self d :
  d ∈ Room_exits directions store self <->
  is_Some (directions !! d) /\ attr_truthy (getattr store self d) = true.
Proof.
  unfold Room_exits, sorted. rewrite merge_sort_Permutation.
  rewrite list_elem_of_filter, elem_of_elements, elem_of_dom.
  rewrite Is_true_true. tauto.
Qed.

Lemma module_directions_paired :
  module_directions
  = Ok {[ "north" := "south"; "south" := "north"; "east" := "west"; "west" := "east" ]} /\
  paired {[ "north" := "south"; "south" := "north"; "east" := "west"; "west" := "east" ]}.
Proof.
  assert (H0 : module_directions
    = Ok {[ "north" := "south"; "south" := "north"; "east" := "west"; "west" := "east" ]})
    by (vm_compute; reflexivity).
  split; [exact H0|]. unfold module_directions in H0.
  destruct (Room_add_direction "north" "south" ∅) as [d1|] eqn:H1; [|discriminate].
  apply (add_direction_paired _ _ _ _ H0).
  apply (add_direction_paired _ _ _ _ H1).
  intros d r Hd. rewrite lookup_empty in Hd. discriminate.
Qed.

(** ** The pattern compiler on any text: proofs *)

Section TextProofs.

Variable db : Text.chardb.

Lemma existsb_orb {A} (f g : A -> bool) l :
  existsb (fun x => f x || g x) l = existsb f l || existsb g l.
Proof.
  induction l as [|x l IH]; simpl; [reflexivity|]. rewrite IH.
  destruct (f x), (g x), (existsb f l), (existsb g l); reflexivity.
Qed.

Lemma forallb_negb_existsb {A} (f : A -> bool) l :
  forallb f l = negb (existsb (fun x => negb (f x)) l).
Proof.
  induction l as [|x l IH]; simpl; [reflexivity|]. rewrite IH.
  destruct (f x); reflexivity.
Qed.

(** The three tests of [Pattern.__init__] on a non-empty word, in terms of
    what the word contains. *)
Lemma text_word_tests (w : Text.text) :
  w <> [] ->
  Text.isalpha db w = negb (TextSpec.has_non_letter db w) /\
  Text.isupper db w
  = negb (TextSpec.has_lowercase db w || TextSpec.has_titlecase db w)
    && TextSpec.has_uppercase db w /\
  Text.islower db w
  = negb (TextSpec.has_uppercase db w || TextSpec.has_titlecase db w)
    && TextSpec.has_lowercase db w.
Proof.
  intros Hw. unfold Text.isalpha, Text.isupper, Text.islower, TextSpec.has_non_letter,
    TextSpec.has_lowercase, TextSpec.has_uppercase, TextSpec.has_titlecase.
  rewrite !existsb_orb. split; [|split; reflexivity].
  destruct w; [contradiction|]. apply forallb_negb_existsb.
Qed.

(** When the loop raises on a word and when it takes it as a placeholder
    or as a literal. *)
Lemma text_word_cases (w : Text.text) :
  w <> [] ->
  TextSpec.malformed db w
  = negb (Text.isalpha db w) || negb (Text.isupper db w) && negb (Text.islower db w) /\
  (Text.isalpha db w = true -> Text.isupper db w = TextSpec.uppercase_word db w) /\
  (Text.isalpha db w = true -> Text.isupper db w = false ->
   Text.islower db w = TextSpec.lowercase_word db w).
Proof.
  intros Hw. destruct (text_word_tests w Hw) as (-> & -> & ->).
  unfold TextSpec.malformed, TextSpec.mixes_case, TextSpec.has_no_case,
    TextSpec.uppercase_word, TextSpec.lowercase_word.
  destruct (TextSpec.has_non_letter db w), (TextSpec.has_uppercase db w),
    (TextSpec.has_lowercase db w), (TextSpec.has_titlecase db w);
    simpl; repeat split; intros; congruence.
Qed.

Lemma text_split_from_Forall (P : Text.text -> Prop) (s : Text.text) :
  (forall word, word <> [] -> P word) ->
  forall word, Forall P (Text.split_from db word s).
Proof.
  intros HP.
  assert (Hemit : forall word, Forall P (Text.emit word)).
  { intros [|c word]; simpl; constructor; [apply HP; discriminate|constructor]. }
  induction s as [|c s IH]; intros word; simpl; [apply Hemit|].
  destruct (Text.char_isspace db c); [|apply IH].
  apply Forall_app. split; [apply Hemit|apply IH].
Qed.

Lemma text_split_nonempty (s : Text.text) : Forall (fun w => w <> []) (Text.split db s).
Proof. apply text_split_from_Forall. auto. Qed.

(** The words of a text are made of characters of the text. *)
Lemma text_split_from_chars (P : N -> Prop) (s : Text.text) : forall word,
  Forall P word -> Forall P s -> Forall (Forall P) (Text.split_from db word s).
Proof.
  assert (Hemit : forall word, Forall P word -> Forall (Forall P) (Text.emit word)).
  { intros [|c word] H; simpl; constructor; [exact H|constructor]. }
  induction s as [|c s IH]; intros word Hword Hs; simpl; [apply Hemit, Hword|].
  apply Forall_cons in Hs as [Hc Hs].
  destruct (Text.char_isspace db c).
  - apply Forall_app. split; [apply Hemit, Hword|apply IH; [constructor|exact Hs]].
  - apply IH; [|exact Hs]. apply Forall_app. split; [exact Hword|repeat constructor; exact Hc].
Qed.

Lemma text_compile_words_spec command words : forall match_ argnames placeholders,
  Forall (fun w => w <> []) words ->
  match Text.compile_words db command words match_ argnames placeholders with
  | Text.Raise e =>
      Exists (fun w => TextSpec.malformed db w = true) words /\
      (e = Text.LettersOnly command \/ e = Text.MixedCase command)
  | Text.Return (match', argnames', placeholders') =>
      Forall (fun w => TextSpec.malformed db w = false) words /\
      match' = match_ ++ map (TextSpec.classify db) words /\
      argnames' = argnames ++ TextSpec.placeholder_names (map (TextSpec.classify db) words) /\
      placeholders' = placeholders
        + Z.of_nat (length (TextSpec.placeholder_names (map (TextSpec.classify db) words)))
  end.
Proof.
  induction words as [|w words IH]; intros match_ argnames placeholders Hne.
  - simpl. rewrite !app_nil_r. repeat split; [constructor|lia].
  - apply Forall_cons in Hne as [Hw Hne]. cbn [Text.compile_words].
    destruct (text_word_cases w Hw) as (Hmal & Hup & Hlow).
    destruct (Text.isalpha db w) eqn:Ha; simpl negb; cbv iota.
    2:{ split; [|left; reflexivity]. left. rewrite Hmal. reflexivity. }
    specialize (Hup eq_refl). specialize (Hlow eq_refl).
    destruct (Text.isupper db w) eqn:Hu.
    { specialize (IH (match_ ++ [Text.Placeholder (Text.lower db w)])
                     (argnames ++ [Text.lower db w]) (placeholders + 1) Hne).
      destruct (Text.compile_words db _ words _ _ _) as [[[m' a'] n']|e].
      - destruct IH as (Hall & -> & -> & ->). cbn [map].
        assert (Hc : TextSpec.classify db w = Text.Placeholder (Text.lower db w))
          by (unfold TextSpec.classify; rewrite <- Hup; reflexivity).
        rewrite Hc. cbn [TextSpec.placeholder_names length]. rewrite <- !app_assoc. simpl.
        repeat split; try reflexivity; [|lia].
        constructor; [|exact Hall]. rewrite Hmal. reflexivity.
      - destruct IH as [Hex He]. split; [right; exact Hex|exact He]. }
    specialize (Hlow eq_refl).
    destruct (Text.islower db w) eqn:Hl.
    { specialize (IH (match_ ++ [Text.Literal w]) argnames placeholders Hne).
      destruct (Text.compile_words db _ words _ _ _) as [[[m' a'] n']|e].
      - destruct IH as (Hall & -> & -> & ->). cbn [map].
        assert (Hc : TextSpec.classify db w = Text.Literal w)
          by (unfold TextSpec.classify; rewrite <- Hup; reflexivity).
        rewrite Hc. cbn [TextSpec.placeholder_names length]. rewrite <- !app_assoc. simpl.
        repeat split; try reflexivity.
        constructor; [|exact Hall]. rewrite Hmal. reflexivity.
      - destruct IH as [Hex He]. split; [right; exact Hex|exact He]. }
    split; [|right; reflexivity]. left. rewrite Hmal. reflexivity.
Qed.

Lemma text_prefix_loop_leading match_ : forall prefix,
  Text.prefix_loop match_ prefix = prefix ++ TextSpec.leading_literals match_.
Proof.
  induction match_ as [|[w|name] match_ IH]; intros prefix; simpl.
  - rewrite app_nil_r. reflexivity.
  - rewrite IH, <- app_assoc. reflexivity.
  - rewrite app_nil_r. reflexivity.
Qed.

Lemma text_leading_literals_length tokens :
  (length (TextSpec.leading_literals tokens) <= length tokens)%nat.
Proof. induction tokens as [|[w|name] tokens IH]; simpl; lia. Qed.

Lemma text_leading_literals_split tokens :
  map Text.Literal (TextSpec.leading_literals tokens)
  ++ drop (length (TextSpec.leading_literals tokens)) tokens
  = tokens.
Proof.
  induction tokens as [|[w|name] tokens IH]; simpl; [reflexivity| |reflexivity].
  rewrite IH. reflexivity.
Qed.

Lemma text_leading_literals_maximal tokens w rest :
  drop (length (TextSpec.leading_literals tokens)) tokens <> Text.Literal w :: rest.
Proof.
  induction tokens as [|[w'|name] tokens IH]; simpl; [discriminate|exact IH|discriminate].
Qed.

(** The compiler computes the described Pattern, or raises on a malformed
    word. *)
Lemma text_Pattern_init_compile_spec command context :
  match Text.Pattern_init db command context with
  | Text.Raise e =>
      Exists (fun w => TextSpec.malformed db w = true) (Text.split db command) /\
      (e = Text.LettersOnly command \/ e = Text.MixedCase command)
  | Text.Return p =>
      Forall (fun w => TextSpec.malformed db w = false) (Text.split db command) /\
      p = TextSpec.compile_spec db command context
  end.
Proof.
  unfold Text.Pattern_init.
  assert (H := text_compile_words_spec command (Text.split db command) [] [] 0
                 (text_split_nonempty command)).
  destruct (Text.compile_words db _ _ _ _ _) as [[[m a] n]|e]; [|exact H].
  destruct H as (Hall & -> & -> & ->). split; [exact Hall|].
  unfold TextSpec.compile_spec. simpl app. rewrite text_prefix_loop_leading. simpl app.
  f_equal. rewrite length_drop.
  assert (Hle := text_leading_literals_length
                   (map (TextSpec.classify db) (Text.split db command))). lia.
Qed.

Lemma text_wellformed_word (w : Text.text) :
  TextSpec.malformed db w = false ->
  TextSpec.lowercase_word db w = true /\ TextSpec.classify db w = Text.Literal w \/
  TextSpec.uppercase_word db w = true /\
  TextSpec.classify db w = Text.Placeholder (Text.lower db w).
Proof.
  unfold TextSpec.malformed, TextSpec.mixes_case, TextSpec.has_no_case, TextSpec.classify,
    TextSpec.uppercase_word, TextSpec.lowercase_word.
  destruct (TextSpec.has_non_letter db w), (TextSpec.has_uppercase db w),
    (TextSpec.has_lowercase db w), (TextSpec.has_titlecase db w);
    simpl; intros H; try discriminate H; auto.
Qed.

End TextProofs.

(** ** ASCII text among all text: proofs *)

Lemma ascii_of_code (c : ascii) : ascii_of_N (Str.code c) = c.
Proof. apply ascii_N_embedding. Qed.

Lemma code_of_ascii (c : N) : (c < 256)%N -> Str.code (ascii_of_N c) = c.
Proof. apply N_ascii_embedding. Qed.

Lemma codes_of_list (l : list ascii) : codes (string_of_list_ascii l) = map Str.code l.
Proof. unfold codes, Str.chars. rewrite list_ascii_of_string_of_list_ascii. reflexivity. Qed.

Lemma codes_inj (s t : string) : codes s = codes t -> s = t.
Proof.
  unfold codes, Str.chars. intros H.
  rewrite <- (string_of_list_ascii_of_string s), <- (string_of_list_ascii_of_string t).
  f_equal. revert H. generalize (list_ascii_of_string s) (list_ascii_of_string t).
  induction l as [|c l IH]; intros [|c' l'] H; try discriminate; [reflexivity|].
  simpl in H. injection H as Hc Hl. f_equal; [|apply IH, Hl].
  rewrite <- (ascii_of_code c), <- (ascii_of_code c'). unfold Str.code in *. congruence.
Qed.

Lemma isascii_codes (s : string) :
  Str_isascii s = true <-> Forall (fun c => (c < 128)%N) (codes s).
Proof.
  unfold Str_isascii, codes. rewrite forallb_forall, Forall_map, Forall_forall. split.
  - intros H c Hc. apply N.ltb_lt, H, list_elem_of_In, Hc.
  - intros H c Hc. apply N.ltb_lt, H, list_elem_of_In, Hc.
Qed.

(** The uppercase ASCII letters are lowered by adding 32 to the code. *)
Lemma lower_code_upper (c : N) :
  (c < 128)%N -> Str.char_isupper (ascii_of_N c) = true ->
  Str.code (Str.char_lower (ascii_of_N c)) = (c + 32)%N.
Proof.
  intros Hc Hup. unfold Str.char_lower. rewrite Hup.
  rewrite (code_of_ascii c) by lia. apply code_of_ascii. lia.
Qed.

Section AsciiText.

Variable db : Text.chardb.
Hypothesis Hdb : ascii_compatible db.

Lemma compat_code (c : N) :
  (c < 128)%N ->
  Text.char_isspace db c = Str.char_isspace (ascii_of_N c) /\
  Text.char_isalpha db c = Str.char_isalpha (ascii_of_N c) /\
  Text.char_isupper db c = Str.char_isupper (ascii_of_N c) /\
  Text.char_islower db c = Str.char_islower (ascii_of_N c) /\
  Text.char_istitle db c = false.
Proof.
  intros Hc. destruct Hdb as [Hchar _]. destruct (Hchar c Hc) as (-> & -> & -> & -> & ->).
  simpl. unfold ascii_range, cjk_ideograph.
  replace (c <? 128)%N with true by (symmetry; apply N.ltb_lt, Hc).
  replace (19968 <=? c)%N with false by (symmetry; apply N.leb_gt; lia).
  simpl. rewrite orb_false_r. repeat split; reflexivity.
Qed.

Lemma compat_lower (s : Text.text) :
  Forall (fun c => (c < 128)%N) s ->
  Text.lower db s = map (fun c => Str.code (Str.char_lower (ascii_of_N c))) s.
Proof.
  intros Hs. destruct Hdb as [_ Hlow]. rewrite (Hlow s Hs). simpl.
  apply map_ext_Forall. eapply Forall_impl; [exact Hs|]. intros c Hc. simpl.
  unfold ascii_range. replace (c <? 128)%N with true by (symmetry; apply N.ltb_lt, Hc).
  reflexivity.
Qed.

(** On an ASCII word the only ways to be malformed are the two of the
    ASCII compiler. *)
Lemma ascii_word_malformed (w : Text.text) :
  w <> [] -> Forall (fun c => (c < 128)%N) w ->
  TextSpec.malformed db w = TextSpec.has_non_letter db w || TextSpec.mixes_case db w.
Proof.
  intros Hw Hascii.
  assert (Ht : TextSpec.has_titlecase db w = false).
  { unfold TextSpec.has_titlecase. apply not_true_is_false. intros H.
    apply existsb_exists in H as (c & Hc & Htc). rewrite Forall_forall in Hascii.
    apply list_elem_of_In in Hc. destruct (compat_code c (Hascii c Hc)) as (_ & _ & _ & _ & H').
    congruence. }
  assert (Hn : TextSpec.has_non_letter db w = false -> TextSpec.has_no_case db w = false).
  { destruct w as [|c w]; [contradiction|]. apply Forall_cons in Hascii as [Hc _].
    destruct (compat_code c Hc) as (_ & Ha & Hu & Hl & _).
    unfold TextSpec.has_non_letter, TextSpec.has_no_case, TextSpec.has_uppercase,
      TextSpec.has_lowercase. simpl. rewrite Ha, Hu, Hl. unfold Str.char_isalpha.
    destruct (Str.char_isupper (ascii_of_N c)), (Str.char_islower (ascii_of_N c));
      simpl; intros H; try discriminate H; try reflexivity.
    rewrite orb_true_r. reflexivity. }
  unfold TextSpec.malformed. rewrite Ht, orb_false_r.
  destruct (TextSpec.has_non_letter db w); [reflexivity|]. rewrite (Hn eq_refl).
  apply orb_false_r.
Qed.

(** The name of a placeholder of an ASCII template: every letter [A-Z] of
    the word replaced by the letter 32 code points above it. *)
Lemma ascii_lower_uppercase_word (w : Text.text) :
  Forall (fun c => (c < 128)%N) w -> TextSpec.uppercase_word db w = true ->
  Forall (fun c => (65 <= c <= 90)%N) w /\
  Text.lower db w = map (fun c => (c + 32)%N) w.
Proof.
  intros Hascii Hup. rewrite (compat_lower w Hascii).
  unfold TextSpec.uppercase_word in Hup.
  apply andb_true_iff in Hup as [Hup _]. apply andb_true_iff in Hup as [Hup Hnl].
  apply andb_true_iff in Hup as [Hal _].
  apply negb_true_iff in Hal, Hnl.
  assert (Hall : Forall (fun c => Str.char_isupper (ascii_of_N c) = true) w).
  { apply Forall_forall. intros c Hc. rewrite Forall_forall in Hascii.
    destruct (compat_code c (Hascii c Hc)) as (_ & Ha & _ & Hl & _).
    assert (Hca : Text.char_isalpha db c = true).
    { destruct (Text.char_isalpha db c) eqn:E; [reflexivity|]. exfalso.
      unfold TextSpec.has_non_letter in Hal.
      assert (existsb (fun c => negb (Text.char_isalpha db c)) w = true); [|congruence].
      apply existsb_exists. exists c. split; [apply list_elem_of_In, Hc|].
      rewrite E. reflexivity. }
    assert (Hcl : Text.char_islower db c = false).
    { destruct (Text.char_islower db c) eqn:E; [|reflexivity]. exfalso.
      unfold TextSpec.has_lowercase in Hnl.
      assert (existsb (Text.char_islower db) w = true); [|congruence].
      apply existsb_exists. exists c. split; [apply list_elem_of_In, Hc|exact E]. }
    rewrite Ha in Hca. rewrite Hl in Hcl. unfold Str.char_isalpha in Hca.
    rewrite Hcl, orb_false_r in Hca. exact Hca. }
  split.
  - apply Forall_forall. intros c Hc. rewrite Forall_forall in Hascii, Hall.
    specialize (Hall c Hc). specialize (Hascii c Hc). unfold Str.char_isupper in Hall.
    rewrite (code_of_ascii c) in Hall by lia.
    apply andb_true_iff in Hall as [H1 H2]. apply N.leb_le in H1, H2. lia.
  - apply map_ext_Forall. apply Forall_forall. intros c Hc.
    rewrite Forall_forall in Hascii, Hall. apply lower_code_upper; auto.
Qed.

Lemma ascii_lowercase_word (w : Text.text) :
  Forall (fun c => (c < 128)%N) w -> TextSpec.lowercase_word db w = true ->
  Forall (fun c => (97 <= c <= 122)%N) w.
Proof.
  intros Hascii Hlow. unfold TextSpec.lowercase_word in Hlow.
  apply andb_true_iff in Hlow as [Hlow _]. apply andb_true_iff in Hlow as [Hlow Hnu].
  apply andb_true_iff in Hlow as [Hal _].
  apply negb_true_iff in Hal, Hnu.
  apply Forall_forall. intros c Hc. rewrite Forall_forall in Hascii.
  specialize (Hascii c Hc). destruct (compat_code c Hascii) as (_ & Ha & Hu & _ & _).
  assert (Hca : Text.char_isalpha db c = true).
  { destruct (Text.char_isalpha db c) eqn:E; [reflexivity|]. exfalso.
    unfold TextSpec.has_non_letter in Hal.
    assert (existsb (fun c => negb (Text.char_isalpha db c)) w = true); [|congruence].
    apply existsb_exists. exists c. split; [apply list_elem_of_In, Hc|].
    rewrite E. reflexivity. }
  assert (Hcu : Text.char_isupper db c = false).
  { destruct (Text.char_isupper db c) eqn:E; [|reflexivity]. exfalso.
    unfold TextSpec.has_uppercase in Hnu.
    assert (existsb (Text.char_isupper db) w = true); [|congruence].
    apply existsb_exists. exists c. split; [apply list_elem_of_In, Hc|exact E]. }
  rewrite Ha in Hca. rewrite Hu in Hcu. unfold Str.char_isalpha in Hca.
  rewrite Hcu, orb_false_l in Hca. unfold Str.char_islower in Hca.
  rewrite (code_of_ascii c) in Hca by lia.
  apply andb_true_iff in Hca as [H1 H2]. apply N.leb_le in H1, H2. lia.
Qed.

(** *** The ASCII compiler is the compiler on any text, on ASCII text *)

Lemma compat_char (c : ascii) :
  (Str.code c < 128)%N ->
  Text.char_isspace db (Str.code c) = Str.char_isspace c /\
  Text.char_isalpha db (Str.code c) = Str.char_isalpha c /\
  Text.char_isupper db (Str.code c) = Str.char_isupper c /\
  Text.char_islower db (Str.code c) = Str.char_islower c /\
  Text.char_istitle db (Str.code c) = false.
Proof. intros Hc. rewrite <- (ascii_of_code c) at 2 4 6 8. apply compat_code, Hc. Qed.

Lemma existsb_codes (f : N -> bool) (g : ascii -> bool) (l : list ascii) :
  Forall (fun c => f (Str.code c) = g c) l ->
  existsb f (map Str.code l) = existsb g l.
Proof. induction 1 as [|c l Hc _ IH]; simpl; [reflexivity|]. rewrite Hc, IH. reflexivity. Qed.

Lemma forallb_codes (f : N -> bool) (g : ascii -> bool) (l : list ascii) :
  Forall (fun c => f (Str.code c) = g c) l ->
  forallb f (map Str.code l) = forallb g l.
Proof. induction 1 as [|c l Hc _ IH]; simpl; [reflexivity|]. rewrite Hc, IH. reflexivity. Qed.

Lemma word_tests_codes (w : string) :
  Str_isascii w = true ->
  Text.isalpha db (codes w) = Str.isalpha w /\
  Text.isupper db (codes w) = Str.isupper w /\
  Text.islower db (codes w) = Str.islower w /\
  Text.lower db (codes w) = codes (Str.lower w).
Proof.
  intros Hw. assert (Hc : Forall (fun c => (Str.code c < 128)%N) (Str.chars w)).
  { apply isascii_codes in Hw. unfold codes in Hw. rewrite Forall_map in Hw. exact Hw. }
  unfold Text.isalpha, Text.isupper, Text.islower, Str.isalpha, Str.isupper, Str.islower, codes.
  rewrite !existsb_orb.
  rewrite (existsb_codes (Text.char_islower db) Str.char_islower),
    (existsb_codes (Text.char_isupper db) Str.char_isupper),
    (existsb_codes (Text.char_istitle db) (fun _ => false));
    try (eapply Forall_impl; [exact Hc|]; intros c H; apply (compat_char c H)).
  assert (Hf : forall l : list ascii, existsb (fun _ => false) l = false).
  { induction l as [|c l IH]; [reflexivity|exact IH]. }
  rewrite Hf, !orb_false_r. split; [|split; [reflexivity|split; [reflexivity|]]].
  - destruct w as [|c w]; [reflexivity|]. cbn [Str.chars list_ascii_of_string map].
    change (negb (String.eqb (String c w) "")) with true. rewrite andb_true_l.
    apply (forallb_codes (Text.char_isalpha db) Str.char_isalpha (c :: list_ascii_of_string w)).
    eapply Forall_impl; [exact Hc|]. intros c' H. apply (compat_char c' H).
  - rewrite compat_lower by (rewrite Forall_map; exact Hc).
    unfold Str.lower. fold (codes (string_of_list_ascii (map Str.char_lower (Str.chars w)))).
    rewrite codes_of_list, !map_map. apply map_ext. intros c. rewrite ascii_of_code.
    reflexivity.
Qed.

Lemma split_from_codes (s : list ascii) : forall word,
  Forall (fun c => (Str.code c < 128)%N) s ->
  Text.split_from db (map Str.code word) (map Str.code s)
  = map codes (Str.split_from word s).
Proof.
  assert (Hemit : forall word, Text.emit (map Str.code word) = map codes (Str.emit word)).
  { intros [|c word]; [reflexivity|]. cbn [Str.emit map Text.emit].
    rewrite codes_of_list. reflexivity. }
  induction s as [|c s IH]; intros word Hs; [apply Hemit|].
  apply Forall_cons in Hs as [Hc Hs]. cbn [map Text.split_from Str.split_from].
  destruct (compat_char c Hc) as (-> & _).
  destruct (Str.char_isspace c).
  - rewrite map_app, Hemit. f_equal. apply (IH [] Hs).
  - rewrite <- (IH (word ++ [c]) Hs), map_app. reflexivity.
Qed.

Lemma split_codes (s : string) :
  Str_isascii s = true -> Text.split db (codes s) = map codes (Str.split s).
Proof.
  intros Hs. apply (split_from_codes (Str.chars s) []).
  apply isascii_codes in Hs. unfold codes in Hs. rewrite Forall_map in Hs. exact Hs.
Qed.

Lemma split_isascii (s : string) :
  Str_isascii s = true -> Forall (fun w => Str_isascii w = true) (Str.split s).
Proof.
  intros Hs. assert (H := text_split_from_chars db (fun c => (c < 128)%N) (codes s) []
                            (Forall_nil_2 _) (proj1 (isascii_codes s) Hs)).
  fold (Text.split db (codes s)) in H. rewrite (split_codes s Hs), Forall_map in H.
  eapply Forall_impl; [exact H|]. intros w Hw. apply isascii_codes, Hw.
Qed.

Lemma compile_words_codes command words : forall match_ argnames placeholders,
  Forall (fun w => Str_isascii w = true) words ->
  Some (Text.compile_words db (codes command) (map codes words) (map token_codes match_)
          (map codes argnames) placeholders)
  = loop_codes (compile_words command words match_ argnames placeholders).
Proof.
  induction words as [|w words IH]; intros match_ argnames placeholders Hw; [reflexivity|].
  apply Forall_cons in Hw as [Hw Hws]. cbn [map Text.compile_words compile_words].
  destruct (word_tests_codes w Hw) as (-> & -> & -> & ->).
  destruct (Str.isalpha w); [|reflexivity]. simpl negb. cbv iota.
  destruct (Str.isupper w).
  - rewrite <- (IH _ _ _ Hws), !map_app. reflexivity.
  - destruct (Str.islower w); [|reflexivity].
    rewrite <- (IH _ _ _ Hws), !map_app. reflexivity.
Qed.

Lemma prefix_loop_codes match_ : forall prefix,
  Text.prefix_loop (map token_codes match_) (map codes prefix)
  = map codes (prefix_loop match_ prefix).
Proof.
  induction match_ as [|[w|name] match_ IH]; intros prefix; simpl; [reflexivity| |reflexivity].
  rewrite <- IH, map_app. reflexivity.
Qed.

Lemma Pattern_init_codes (command : string) (context : option string) :
  Str_isascii command = true ->
  Some (Text.Pattern_init db (codes command) (codes <$> context))
  = result_codes (Pattern_init command context).
Proof.
  intros Hc. unfold Text.Pattern_init, Pattern_init.
  rewrite (split_codes command Hc).
  assert (H := compile_words_codes command (Str.split command) [] [] 0 (split_isascii _ Hc)).
  simpl map in H.
  destruct (compile_words command (Str.split command) [] [] 0) as [[[m a] n]|[[c|c|f c]| |]];
    simpl in H; try discriminate H; injection H as ->; try reflexivity.
  simpl. unfold Pattern_codes. simpl.
  assert (Hp := prefix_loop_codes m []). cbn [map] in Hp. rewrite Hp.
  rewrite !length_map, !length_drop, !length_map, skipn_map. reflexivity.
Qed.

End AsciiText.

(** ** ASCII lines: proofs *)

Lemma char_lower_ascii (c : ascii) :
  (Str.code c < 128)%N -> (Str.code (Str.char_lower c) < 128)%N.
Proof.
  intros Hc. unfold Str.char_lower. destruct (Str.char_isupper c) eqn:Hup; [|exact Hc].
  unfold Str.char_isupper in Hup. apply andb_true_iff in Hup as [_ H]. apply N.leb_le in H.
  rewrite code_of_ascii; lia.
Qed.

Lemma isascii_chars (s : string) :
  Str_isascii s = true <-> Forall (fun c => (Str.code c < 128)%N) (Str.chars s).
Proof. rewrite isascii_codes. unfold codes. apply Forall_map. Qed.

(** The tokens of an ASCII line are non-empty ASCII words without
    whitespace and without the letters [A-Z]. *)
Lemma tokens_of_ascii_line (cmd : string) :
  Str_isascii cmd = true ->
  Forall (fun w => w <> "" /\ Str_isascii w = true /\ no_uppercase w)
         (Str.split (Str.lower cmd)).
Proof.
  intros Hcmd. apply isascii_chars in Hcmd.
  assert (H : Forall (fun w => w <> "" /\
                Forall (fun c => Str.char_isspace c = false /\
                                 (Str.char_isupper c = false /\ (Str.code c < 128)%N))
                       (Str.chars w))
              (Str.split (Str.lower cmd))).
  { apply split_from_chars; [constructor|].
    unfold Str.lower, Str.chars. rewrite list_ascii_of_string_of_list_ascii.
    apply Forall_map. eapply Forall_impl; [exact Hcmd|]. intros c Hc. split.
    - apply char_lower_not_upper.
    - apply char_lower_ascii, Hc. }
  eapply Forall_impl; [exact H|]. intros w [Hne Hw]. split; [exact Hne|]. split.
  - apply isascii_chars. eapply Forall_impl; [exact Hw|]. intros c Hc. apply Hc.
  - eapply Forall_impl; [exact Hw|]. intros c Hc. apply Hc.
Qed.

Lemma join_isascii (chunk : list string) :
  Forall (fun w => Str_isascii w = true) chunk -> Str_isascii (Str.join " " chunk) = true.
Proof.
  induction 1 as [|w chunk Hw Hc IH]; [reflexivity|].
  destruct chunk as [|w' chunk]; [exact Hw|].
  rewrite join_cons by discriminate. unfold Str_isascii in *.
  rewrite !chars_append, !forallb_app, Hw, IH. reflexivity.
Qed.

(** C1. For every compiled Pattern, every set current context and every
    list of input words, [Pattern.match] returns what the matcher of the
    spec ([match_spec]) returns: no-match if the pattern is inactive, if
    there are fewer input words than placeholders, or if the pattern's
    prefix is not a prefix of the input; after the prefix is dropped, the
    empty mapping if no token and no word remains, and no-match if exactly
    one of the two is empty; otherwise the mapping of the first allocation
    of [word_combinations (remaining words - fixed) placeholders], in the
    generator's order, that consumes every token with the words exhausted
    in lockstep, and no-match if there is none. In particular
    ["put ITEM in CONTAINER"] on [put a rusty key in the old chest] gives
    item = ["a rusty key"] and container = ["the old chest"]. *)
Theorem Pattern_match_spec (command : string) (context : option string) (p : Pattern)
    (current : string) (input_words : list string) :
  Pattern_init command context = Return p ->
  Pattern_match (Some current) p input_words = Return (match_spec current p input_words) /\
  (exists q,
      Pattern_init "put ITEM in CONTAINER" (Some "default") = Return q /\
      Pattern_match (Some "default") q
        ["put"; "a"; "rusty"; "key"; "in"; "the"; "old"; "chest"]
      = Return (Some {[ "item" := "a rusty key"; "container" := "the old chest" ]})).
Proof.
  intros Hp. split.
  - apply Pattern_match_refines. apply (Pattern_init_wf _ _ _ Hp).
  - eexists. split; [reflexivity|]. vm_compute. reflexivity.
Qed.

(** The theorem at the pattern of ["put ITEM in CONTAINER"] in the root
    context. *)
Lemma Pattern_match_spec_witness :
  let p := compile_spec "put ITEM in CONTAINER" (Some "default") in
  let input_words := ["put"; "a"; "rusty"; "key"; "in"; "the"; "old"; "chest"] in
  Pattern_match (Some "default") p input_words
  = Return (match_spec "default" p input_words) /\
  (exists q,
      Pattern_init "put ITEM in CONTAINER" (Some "default") = Return q /\
      Pattern_match (Some "default") q
        ["put"; "a"; "rusty"; "key"; "in"; "the"; "old"; "chest"]
      = Return (Some {[ "item" := "a rusty key"; "container" := "the old chest" ]})).
Proof.
  exact (Pattern_match_spec "put ITEM in CONTAINER" (Some "default")
           (compile_spec "put ITEM in CONTAINER" (Some "default")) "default"
           ["put"; "a"; "rusty"; "key"; "in"; "the"; "old"; "chest"] eq_refl).
Defined.

(** C2. For [have >= 0] and [placeholders >= 1], [word_combinations]
    terminates (at every nesting bound of at least [placeholders], and so at
    the one [match] relies on) and yields only tuples of length
    [placeholders] with entries [>= 1] that sum to [have]; it yields
    nothing when [have < placeholders]; the number of tuples is the binomial
    coefficient [C (have - 1) (placeholders - 1)] (which is [binom] of the
    two numbers for [have >= 1], and zero for [have = 0]); the first tuple
    starts with [have - placeholders + 1]; and the tuples come in strictly
    decreasing lexicographic order (every tuple is greater than every later
    one). *)
Theorem word_combinations_allocations (have placeholders : Z) :
  0 <= have -> 1 <= placeholders ->
  exists combos,
    word_combinations have placeholders = Some combos /\
    (forall depth, (Z.to_nat placeholders <= depth)%nat ->
       word_combinations_rec depth have placeholders = Some combos) /\
    Forall (fun c => Z.of_nat (length c) = placeholders /\
                     Forall (fun x => 1 <= x) c /\
                     total c = have) combos /\
    (have < placeholders -> combos = []) /\
    (placeholders <= have -> combos <> []) /\
    Z.of_nat (length combos) = C (have - 1) (placeholders - 1) /\
    (1 <= have ->
       length combos = binom (Z.to_nat (have - 1)) (Z.to_nat (placeholders - 1))) /\
    (forall c, head combos = Some c -> head c = Some (have - placeholders + 1)) /\
    StronglySorted lex_gt combos.
Proof.
  intros Hhave Hp.
  destruct (word_combinations_total have placeholders Hp)
    as (combos & Hcombos & Hall & Hcount & Hsorted & Hfirst).
  exists combos. split; [exact Hcombos|].
  split; [|split; [|split; [|split; [|split; [|split; [|split]]]]]].
  - intros depth Hdepth.
    destruct (word_combinations_rec_spec (Z.to_nat placeholders) have placeholders Hp
                (le_n _)) as (combos0 & H0 & _).
    assert (H1 := word_combinations_rec_mono (Z.to_nat placeholders) have placeholders
                    combos0 (S (Z.to_nat placeholders)) ltac:(lia) H0).
    unfold word_combinations in Hcombos. rewrite Hcombos in H1. injection H1 as ->.
    apply (word_combinations_rec_mono _ _ _ _ depth Hdepth H0).
  - exact Hall.
  - intros Hlt. rewrite C_small in Hcount by lia. destruct combos; [reflexivity|discriminate].
  - intros Hle ->. destruct (Hfirst Hle) as (c & combos' & Heq). discriminate.
  - exact Hcount.
  - intros H1. unfold C in Hcount.
    destruct (Z.ltb_spec (have - 1) 0), (Z.ltb_spec (placeholders - 1) 0); try lia.
    simpl in Hcount. lia.
  - intros c Hc. destruct (Z_lt_le_dec have placeholders) as [Hlt|Hle].
    + rewrite C_small in Hcount by lia. destruct combos; discriminate.
    + destruct (Hfirst Hle) as (c' & combos' & ->). simpl in Hc. injection Hc as <-.
      reflexivity.
  - exact Hsorted.
Qed.

(** The theorem at [have = 5] and [placeholders = 3]. *)
Lemma word_combinations_allocations_witness :
  exists combos,
    word_combinations 5 3 = Some combos /\
    (forall depth, (Z.to_nat 3 <= depth)%nat ->
       word_combinations_rec depth 5 3 = Some combos) /\
    Forall (fun c => Z.of_nat (length c) = 3 /\
                     Forall (fun x => 1 <= x) c /\
                     total c = 5) combos /\
    (5 < 3 -> combos = []) /\
    (3 <= 5 -> combos <> []) /\
    Z.of_nat (length combos) = C (5 - 1) (3 - 1) /\
    (1 <= 5 ->
       length combos = binom (Z.to_nat (5 - 1)) (Z.to_nat (3 - 1))) /\
    (forall c, head combos = Some c -> head c = Some (5 - 3 + 1)) /\
    StronglySorted lex_gt combos.
Proof. apply (word_combinations_allocations 5 3); lia. Defined.

(** C3. [is_active] raises [InvalidContext] whenever the current context
    is unset, whatever the pattern; with the context set, a pattern whose
    context is [None] is not active, and a pattern with context [c] is
    active exactly when the current context is the qualified path of [c]
    (["default"] stays, any other [c] becomes ["default." ++ c]) or the
    qualified path followed by a dot is a prefix of it. So a pattern with
    context ["shop"] is active after [set_context "shop"] and after
    [set_context "shop.register"], and inactive in the root context. *)
Theorem is_active_rule :
  (forall p, is_active None p = Raise InvalidContext) /\
  (forall current p, is_active (Some current) p = Return (active_in current p)) /\
  (forall current o n a pr pa f,
      is_active (Some current) (mkPattern o None n a pr pa f) = Return false) /\
  (forall current c o n a pr pa f,
      is_active (Some current) (mkPattern o (Some c) n a pr pa f) = Return true <->
      current = qualified c \/ exists rest, current = (qualified c +:+ ".") +:+ rest) /\
  (forall c, qualified c = if decide (c = "default") then "default" else "default." +:+ c) /\
  (forall o n a pr pa f,
      let p := mkPattern o (Some "shop") n a pr pa f in
      is_active (set_context "shop") p = Return true /\
      is_active (set_context "shop.register") p = Return true /\
      is_active (set_context "default") p = Return false /\
      is_active initial_context p = Return false).
Proof.
  split; [|split; [|split; [|split; [|split]]]].
  - intros p. reflexivity.
  - apply is_active_active_in.
  - intros. rewrite is_active_active_in. reflexivity.
  - intros. rewrite is_active_active_in. unfold active_in. simpl.
    rewrite <- prefix_append. split.
    + intros H. injection H as H. apply orb_true_iff in H as [H|H]; [left|right; exact H].
      apply bool_decide_eq_true_1 in H. exact H.
    + intros [H|H]; f_equal; apply orb_true_iff; [left|right; exact H].
      apply bool_decide_eq_true_2. exact H.
  - reflexivity.
  - intros. repeat split; reflexivity.
Qed.

(** C4. For every raw line, every registry of registered patterns and
    every set context, [_handle_command] lowercases the line, splits it on
    whitespace runs (the tokens are non-empty, without whitespace and
    without uppercase letters), and makes exactly one call: of the handler of the
    first entry, in registry order, whose pattern matches the tokens, with
    the entry's fixed keywords merged with the captured mapping as its
    keyword arguments: a name of the captured mapping carries the captured
    text, also when the fixed keywords have a value under it, and every
    other name carries what the fixed keywords hold under it, if anything
    (every earlier entry's pattern returned no-match, and no later entry is
    consulted); or, when no entry matches, of [no_command_matches] with the
    original raw line. *)
Theorem handle_command_dispatch (current : string) (commands : list entry) (cmd : string) :
  Forall (fun e => registered (entry_pattern e)) commands ->
  let ws := Str.split (Str.lower cmd) in
  Forall (fun w => w <> "" /\
                   Forall (fun c => Str.char_isspace c = false /\
                                    Str.char_isupper c = false) (Str.chars w)) ws /\
  exists c,
    _handle_command (Some current) commands cmd = Return [c] /\
    ((exists i p f kwargs matches args,
         commands !! i = Some (p, f, kwargs) /\
         Pattern_match (Some current) p ws = Return (Some matches) /\
         (forall j q g kw, (j < i)%nat -> commands !! j = Some (q, g, kw) ->
                           Pattern_match (Some current) q ws = Return None) /\
         c = CallHandler f args /\
         (forall k s, matches !! k = Some s -> args !! k = Some (VStr s)) /\
         (forall k, matches !! k = None -> args !! k = kwargs !! k) /\
         _handle_command (Some current) (take (S i) commands) cmd = Return [c]) \/
     ((forall q g kw, (q, g, kw) ∈ commands ->
                      Pattern_match (Some current) q ws = Return None) /\
      c = CallNoCommandMatches cmd)).
Proof.
  intros Hreg ws. split; [apply tokens_of_line|]. unfold _handle_command. fold ws.
  destruct (commands_loop_outcome current ws cmd commands Hreg) as (c & Hc & Hcases).
  exists c. split; [exact Hc|].
  destruct Hcases as [(i & p & f & kwargs & matches & Hi & Hm & Hbefore & ->)|Hnone];
    [left|right; exact Hnone].
  exists i, p, f, kwargs, matches, (update kwargs matches).
  split; [exact Hi|]. split; [exact Hm|]. split; [exact Hbefore|].
  split; [reflexivity|].
  split; [intros k s Hk; rewrite update_lookup, Hk; reflexivity|].
  split; [intros k Hk; rewrite update_lookup, Hk; reflexivity|].
  clear Hc Hreg. revert commands Hi Hbefore.
  induction i as [|i IH]; intros [|[[q g] kw] commands] Hi Hbefore; try discriminate.
  - simpl in Hi. injection Hi as -> -> ->. simpl. rewrite Hm. reflexivity.
  - simpl in Hi. cbn [take commands_loop].
    rewrite (Hbefore 0%nat q g kw ltac:(lia) eq_refl).
    apply IH; [exact Hi|]. intros j q' g' kw' Hj Hlook.
    apply (Hbefore (S j) q' g' kw'); [lia|exact Hlook].
Qed.

(** The theorem at a registry of three entries, two of which match the
    line. *)
Lemma handle_command_dispatch_witness :
  let commands :=
    [(compile_spec "quit" (Some "default"), sys_exit, (∅ : gmap string value));
     (compile_spec "take ITEM" (Some "default"), mkFunc "take" ["item"], ∅);
     (compile_spec "take THING" (Some "default"), mkFunc "grab" ["thing"], ∅)] in
  let ws := Str.split (Str.lower "Take  the LAMP") in
  Forall (fun w => w <> "" /\
                   Forall (fun c => Str.char_isspace c = false /\
                                    Str.char_isupper c = false) (Str.chars w)) ws /\
  exists c,
    _handle_command (Some "default") commands "Take  the LAMP" = Return [c] /\
    ((exists i p f kwargs matches args,
         commands !! i = Some (p, f, kwargs) /\
         Pattern_match (Some "default") p ws = Return (Some matches) /\
         (forall j q g kw, (j < i)%nat -> commands !! j = Some (q, g, kw) ->
                           Pattern_match (Some "default") q ws = Return None) /\
         c = CallHandler f args /\
         (forall k s, matches !! k = Some s -> args !! k = Some (VStr s)) /\
         (forall k, matches !! k = None -> args !! k = kwargs !! k) /\
         _handle_command (Some "default") (take (S i) commands) "Take  the LAMP"
         = Return [c]) \/
     ((forall q g kw, (q, g, kw) ∈ commands ->
                      Pattern_match (Some "default") q ws = Return None) /\
      c = CallNoCommandMatches "Take  the LAMP")).
Proof.
  apply (handle_command_dispatch "default").
  apply Forall_cons_2;
    [apply (Pattern_init_registered "quit" (Some "default")); reflexivity|].
  apply Forall_cons_2;
    [apply (Pattern_init_registered "take ITEM" (Some "default")); reflexivity|].
  apply Forall_cons_2;
    [apply (Pattern_init_registered "take THING" (Some "default")); reflexivity|].
  apply Forall_nil_2.
Defined.

(** C5. [_register] first compiles the template; a malformed template
    raises the compiler's error and leaves the registry as it was. For a
    template that compiles, registration raises a Signature-Mismatch error
    (an [InvalidCommand] naming the function and the template) exactly when
    the handler's parameter names differ, as a set, from the pattern's
    argument names together with the keys of the fixed keywords, and then
    the registry is unchanged; otherwise it returns, and the registry is the
    old one followed by the one new entry (pattern, handler, fixed
    keywords): every earlier entry keeps its place and the new entry is
    last. Registering a handler whose only parameter is [weapon] for
    ["take ITEM"], without fixed keywords, raises Signature-Mismatch. *)
Theorem register_checks_signature (command : string) (f : func)
    (context : option string) (kwargs : gmap string value) (commands : list entry) :
  match Pattern_init command context with
  | Raise e => _register command f context kwargs commands = (Raise e, commands)
  | Return p =>
      (same_names f p kwargs /\
       _register command f context kwargs commands
       = (Return tt, commands ++ [(p, f, kwargs)]) /\
       (forall i e, commands !! i = Some e ->
                    (commands ++ [(p, f, kwargs)]) !! i = Some e) /\
       (commands ++ [(p, f, kwargs)]) !! length commands = Some (p, f, kwargs) /\
       length (commands ++ [(p, f, kwargs)]) = S (length commands)) \/
      (~ same_names f p kwargs /\
       _register command f context kwargs commands
       = (Raise (InvalidCommand (WrongSignature (func_name f) command)), commands))
  end /\
  _register "take ITEM" (mkFunc "attack" ["weapon"]) context ∅ commands
  = (Raise (InvalidCommand (WrongSignature "attack" "take ITEM")), commands).
Proof.
  split; [|reflexivity].
  unfold _register. destruct (Pattern_init command context) as [p|e]; [|reflexivity].
  destruct (decide ((list_to_set (parameters f) : gset string)
                    = list_to_set (argnames p) ∪ dom kwargs)) as [Heq|Hne].
  - left. rewrite bool_decide_eq_false_2 by (intros H; apply H, Heq).
    split; [apply same_names_sets, Heq|]. split; [reflexivity|]. split; [|split].
    + intros i e Hi. apply lookup_app_l_Some, Hi.
    + apply list_lookup_middle. reflexivity.
    + rewrite length_app. simpl. lia.
  - right. rewrite bool_decide_eq_true_2 by exact Hne.
    split; [|reflexivity]. intros H. apply Hne, same_names_sets, H.
Qed.

(** C6 (as amended). For every template text, of any alphabet, compiling
    it raises a Malformed-Pattern error (an [InvalidCommand] naming the
    template) exactly when some whitespace-separated word of the template
    contains a non-letter, mixes upper and lower case, contains a titlecase
    letter, or has neither an uppercase nor a lowercase letter. Otherwise
    it returns a Pattern: every word is a word of letters whose cased
    letters are all lowercase and gives the literal token of that word, or
    one whose cased letters are all uppercase and gives the placeholder
    named by the lowercased word; the prefix is the longest leading run of
    literal tokens (the tokens are the prefix followed by the rest, and the
    rest does not start with a literal); the fixed count is (token count -
    prefix length) - placeholder count; the result is the Pattern
    [TextSpec.compile_spec] describes. Compilation is a function of the
    template and the context: two results for the same template are equal.

    On ASCII text, with a character database that has the ASCII properties
    below 128 (as Unicode has), only the first two ways to be malformed
    occur: compilation raises exactly when some word contains a non-letter
    or mixes upper and lower case; a literal is made of the letters [a-z],
    a placeholder word of the letters [A-Z], and its name is the word with 32
    added to every code, that is with [a-z] for [A-Z]; and the compiler
    [Pattern_init] of the command interpreter is this compiler. The
    template ["put ITEM in CONTAINER"] compiles to the prefix [put], the
    tokens [ITEM in CONTAINER], the names [item] and [container] and the
    fixed count 1. *)
Theorem Pattern_init_classifies (db : Text.chardb) (command : Text.text)
    (context : option Text.text) :
  let words := Text.split db command in
  let tokens := map (TextSpec.classify db) words in
  ((exists e, Text.Pattern_init db command context = Text.Raise e) <->
   Exists (fun w => TextSpec.has_non_letter db w = true \/
                    TextSpec.mixes_case db w = true \/
                    TextSpec.has_titlecase db w = true \/
                    TextSpec.has_no_case db w = true) words) /\
  match Text.Pattern_init db command context with
  | Text.Raise e => e = Text.LettersOnly command \/ e = Text.MixedCase command
  | Text.Return p =>
      Forall (fun w => TextSpec.lowercase_word db w = true /\
                       TextSpec.classify db w = Text.Literal w \/
                       TextSpec.uppercase_word db w = true /\
                       TextSpec.classify db w = Text.Placeholder (Text.lower db w))
             words /\
      Text.orig_pattern p = command /\
      Text.pattern_context p = context /\
      map Text.Literal (Text.prefix p) ++ Text.pattern p = tokens /\
      (forall w rest, Text.pattern p <> Text.Literal w :: rest) /\
      Text.prefix p = TextSpec.leading_literals tokens /\
      Text.argnames p = TextSpec.placeholder_names tokens /\
      Text.placeholders p = Z.of_nat (length (TextSpec.placeholder_names tokens)) /\
      Text.fixed p
      = (Z.of_nat (length tokens) - Z.of_nat (length (Text.prefix p))) - Text.placeholders p /\
      p = TextSpec.compile_spec db command context
  end /\
  (forall p1 p2, Text.Pattern_init db command context = Text.Return p1 ->
                 Text.Pattern_init db command context = Text.Return p2 -> p1 = p2) /\
  (ascii_compatible db ->
   Forall (fun c => (c < 128)%N) command ->
   ((exists e, Text.Pattern_init db command context = Text.Raise e) <->
    Exists (fun w => TextSpec.has_non_letter db w = true \/
                     TextSpec.mixes_case db w = true) words) /\
   Forall (fun w => (TextSpec.lowercase_word db w = true ->
                     Forall (fun c => (97 <= c <= 122)%N) w) /\
                    (TextSpec.uppercase_word db w = true ->
                     Forall (fun c => (65 <= c <= 90)%N) w /\
                     Text.lower db w = map (fun c => (c + 32)%N) w)) words) /\
  (forall (template : string) (ctx : option string),
      ascii_compatible db -> Str_isascii template = true ->
      Some (Text.Pattern_init db (codes template) (codes <$> ctx))
      = result_codes (Pattern_init template ctx)) /\
  Text.Pattern_init basic_chardb (codes "put ITEM in CONTAINER") None
  = Text.Return {| Text.orig_pattern := codes "put ITEM in CONTAINER";
                   Text.pattern_context := None;
                   Text.placeholders := 2;
                   Text.argnames := [codes "item"; codes "container"];
                   Text.prefix := [codes "put"];
                   Text.pattern := [Text.Placeholder (codes "item");
                                    Text.Literal (codes "in");
                                    Text.Placeholder (codes "container")];
                   Text.fixed := 1 |}.
Proof.
  intros words tokens.
  assert (Hs := text_Pattern_init_compile_spec db command context).
  assert (Hmal : forall w, TextSpec.malformed db w = true <->
                           TextSpec.has_non_letter db w = true \/
                           TextSpec.mixes_case db w = true \/
                           TextSpec.has_titlecase db w = true \/
                           TextSpec.has_no_case db w = true).
  { intros w. unfold TextSpec.malformed. rewrite !orb_true_iff. tauto. }
  assert (Hraises : (exists e, Text.Pattern_init db command context = Text.Raise e) <->
                    Exists (fun w => TextSpec.malformed db w = true) words).
  { destruct (Text.Pattern_init db command context) as [p|e].
    - destruct Hs as [Hall _]. split; [intros (e & He); discriminate|].
      intros Hex. exfalso. apply Exists_exists in Hex as (w & Hw & Hbad).
      rewrite Forall_forall in Hall. rewrite (Hall w Hw) in Hbad. discriminate.
    - destruct Hs as [Hex _]. split; [intros _; exact Hex|intros _; eauto]. }
  split; [|split; [|split; [|split; [|split]]]].
  - rewrite Hraises. split; intros H; (eapply Exists_impl; [exact H|]); intros w; apply Hmal.
  - destruct (Text.Pattern_init db command context) as [p|e]; [|apply Hs].
    destruct Hs as [Hall ->]. split; [|repeat split].
    + eapply Forall_impl; [exact Hall|]. intros w. apply text_wellformed_word.
    + apply text_leading_literals_split.
    + intros w rest. apply text_leading_literals_maximal.
  - intros p1 p2 H1 H2. congruence.
  - intros Hdb Hascii.
    assert (Hwords : Forall (Forall (fun c => (c < 128)%N)) words).
    { apply text_split_from_chars; [constructor|exact Hascii]. }
    assert (Hne := text_split_nonempty db command). fold words in Hne.
    split.
    + rewrite Hraises. rewrite !Exists_exists.
      split; intros (w & Hw & Hbad); exists w; (split; [exact Hw|]);
        rewrite Forall_forall in Hwords, Hne;
        rewrite (ascii_word_malformed db Hdb w (Hne w Hw) (Hwords w Hw)) in *;
        apply orb_true_iff; exact Hbad.
    + eapply Forall_impl; [exact Hwords|]. intros w Hw. split.
      * apply (ascii_lowercase_word db Hdb w Hw).
      * apply (ascii_lower_uppercase_word db Hdb w Hw).
  - intros template ctx Hdb Htemplate. apply Pattern_init_codes; assumption.
  - vm_compute. reflexivity.
Qed.

(** The template of the one ideograph U+4E2D, a letter without case, is a
    single word that contains no non-letter and does not mix upper and
    lower case; compiling it raises. *)
Lemma caseless_word_is_rejected :
  let command : Text.text := [20013%N] in
  Text.split basic_chardb command = [command] /\
  Forall (fun w => TextSpec.has_non_letter basic_chardb w = false /\
                   TextSpec.mixes_case basic_chardb w = false)
         (Text.split basic_chardb command) /\
  Text.Pattern_init basic_chardb command None = Text.Raise (Text.MixedCase command).
Proof.
  split; [vm_compute; reflexivity|]. split; [|vm_compute; reflexivity].
  repeat constructor.
Qed.

(** C7 (as the code has it). In every Pattern the compiler returns, each
    prefix word and each literal token is a word of all-lowercase letters,
    and each placeholder is named by the lowercased form of an
    all-uppercase word of the template (a name of all-lowercase letters);
    no word of the template contains a non-letter or mixes case. The
    argument names are the placeholder names in template order; they are
    not made unique: ["take ITEM ITEM"] compiles, with the argument names
    [item, item]. *)
Theorem compiled_tokens_wellformed (command : string) (context : option string)
    (p : Pattern) :
  Pattern_init command context = Return p ->
  Forall (fun w => all_lowercase w = true) (prefix p) /\
  Forall (token_of (Str.split command)) (pattern p) /\
  Forall (fun w => has_non_letter w = false /\ mixes_case w = false) (Str.split command) /\
  argnames p = placeholder_names (pattern p) /\
  (exists q, Pattern_init "take ITEM ITEM" context = Return q /\
             argnames q = ["item"; "item"]).
Proof.
  intros Hp. assert (Hs := Pattern_init_compile_spec command context).
  rewrite Hp in Hs. destruct Hs as [Hall ->].
  assert (Htok := classify_token_of _ (split_nonempty command) Hall).
  split; [|split; [|split; [|split]]].
  - apply (leading_literals_token_of _ _ Htok).
  - apply Forall_drop, Htok.
  - eapply Forall_impl; [exact Hall|]. intros w Hw. apply orb_false_iff, Hw.
  - simpl. symmetry. apply placeholder_names_drop_leading.
  - eexists. split; reflexivity.
Qed.

(** The theorem at the pattern of ["take ITEM ITEM"]. *)
Lemma compiled_tokens_wellformed_witness :
  let p := compile_spec "take ITEM ITEM" (Some "default") in
  Forall (fun w => all_lowercase w = true) (prefix p) /\
  Forall (token_of (Str.split "take ITEM ITEM")) (pattern p) /\
  Forall (fun w => has_non_letter w = false /\ mixes_case w = false)
         (Str.split "take ITEM ITEM") /\
  argnames p = placeholder_names (pattern p) /\
  (exists q, Pattern_init "take ITEM ITEM" (Some "default") = Return q /\
             argnames q = ["item"; "item"]).
Proof.
  exact (compiled_tokens_wellformed "take ITEM ITEM" (Some "default")
           (compile_spec "take ITEM ITEM" (Some "default")) eq_refl).
Defined.

(** C7, the counterexample: the compiler accepts ["take ITEM ITEM"] and the
    Pattern it returns has the argument name [item] twice. *)
Lemma argnames_not_unique :
  exists p, Pattern_init "take ITEM ITEM" (Some "default") = Return p /\
            argnames p = ["item"; "item"] /\
            ~ NoDup (argnames p).
Proof.
  eexists. split; [reflexivity|]. split; [reflexivity|].
  simpl. intros H. apply NoDup_cons in H as [Hin _]. apply Hin. left.
Qed.

(** C8 (as the code has it). The registry starts as the single exit entry
    (the pattern of ["quit"] with [sys.exit]); user registrations are
    appended after it, in their order, so the exit entry stays first and is
    tried before every user-registered entry: in any context made by
    [set_context], the line [quit] calls [sys.exit] whatever was registered
    later. When help is enabled, [start] puts the ["?"] entry and then the
    ["help"] entry in front of all the others, the exit entry included;
    without help it leaves the registry as it is. *)
Theorem builtin_entries_priority :
  exists quit help_pattern qmark,
    Pattern_init "quit" (Some "default") = Return quit /\
    Pattern_init "help" (Some "default") = Return help_pattern /\
    qmark = as_qmark help_pattern /\
    orig_pattern qmark = "?" /\ prefix qmark = ["?"] /\ pattern qmark = [] /\
    commands_init = Return [(quit, sys_exit, ∅)] /\
    (forall rs, exists users,
        (when_all rs [(quit, sys_exit, ∅)]).2 = (quit, sys_exit, ∅) :: users /\
        ((when_all rs [(quit, sys_exit, ∅)]).1 = Return tt ->
         map entry_func users = map reg_func rs)) /\
    (forall c users,
        _handle_command (set_context c) ((quit, sys_exit, ∅) :: users) "quit"
        = Return [CallHandler sys_exit ∅]) /\
    (forall commands,
        start_prologue true commands
        = Return ((qmark, help, ∅) :: (help_pattern, help, ∅) :: commands)) /\
    (forall commands, start_prologue false commands = Return commands) /\
    (forall c commands,
        _handle_command (set_context c)
          ((qmark, help, ∅) :: (help_pattern, help, ∅) :: commands) "?"
        = Return [CallHandler help ∅] /\
        _handle_command (set_context c)
          ((qmark, help, ∅) :: (help_pattern, help, ∅) :: commands) "help"
        = Return [CallHandler help ∅]).
Proof.
  eexists. eexists. eexists.
  split; [reflexivity|]. split; [reflexivity|]. split; [reflexivity|].
  split; [reflexivity|]. split; [reflexivity|]. split; [reflexivity|].
  split; [reflexivity|].
  assert (Hupd : update ∅ ∅ = ∅).
  { unfold update. rewrite fmap_empty. apply (left_id_L ∅ (∪)). }
  split; [|split; [|split; [|split]]].
  - intros rs. apply (when_all_appends rs [_]).
  - intros c users. unfold _handle_command. cbn [commands_loop].
    unfold Pattern_match. rewrite root_pattern_active. simpl. rewrite Hupd. reflexivity.
  - intros commands. reflexivity.
  - intros commands. reflexivity.
  - intros c commands. unfold _handle_command. split.
    + cbn [commands_loop]. unfold Pattern_match, as_qmark.
      rewrite root_pattern_active. simpl. rewrite Hupd. reflexivity.
    + cbn [commands_loop]. unfold Pattern_match at 1. unfold as_qmark.
      rewrite root_pattern_active. simpl.
      unfold Pattern_match. rewrite root_pattern_active. simpl. rewrite Hupd. reflexivity.
Qed.

(** C8, the counterexample: the exit entry is not at the lowest-priority
    end. After the module's own [commands] a user registers a handler for
    ["quit"]; the registry is then the exit entry followed by the user's
    entry, and the line [quit] calls [sys.exit], not the user's handler: the
    user-registered entry is not tried before the exit entry. *)
Lemma exit_entry_is_first :
  exists quit commands0 commands,
    commands_init = Return commands0 /\
    when (mkRegistration "quit" (mkFunc "goodbye" []) (Some "default") ∅) commands0
    = (Return tt, commands) /\
    commands = [(quit, sys_exit, ∅); (quit, mkFunc "goodbye" [], ∅)] /\
    commands !! 0%nat = Some (quit, sys_exit, ∅) /\
    last commands = Some (quit, mkFunc "goodbye" [], ∅) /\
    _handle_command (Some "default") commands "quit" = Return [CallHandler sys_exit ∅] /\
    _handle_command (Some "default") commands "quit"
    <> Return [CallHandler (mkFunc "goodbye" []) ∅].
Proof.
  eexists. eexists. eexists.
  split; [reflexivity|]. split; [vm_compute; reflexivity|].
  split; [reflexivity|]. split; [reflexivity|]. split; [reflexivity|].
  split; [vm_compute; reflexivity|]. vm_compute. intros H. discriminate H.
Qed.

(** C9. When a dispatch calls a handler, the call comes from an entry of
    the registry whose pattern matched, and its keyword arguments are the
    entry's fixed keywords updated by the captured mapping: every argument
    name of the pattern is bound to the text captured from the input, also
    when the fixed keywords have a value under that name, and a fixed
    keyword under any other name keeps its value. Registration admits such
    an overlap: ["take ITEM"] registers with the fixed keyword [item] for a
    handler whose only parameter is [item], and dispatching
    [take red ball] then calls the handler with item = ["red ball"]. *)
Theorem captured_overrides_fixed (current : string) (commands : list entry)
    (cmd : string) (f : func) (args : gmap string value) :
  Forall (fun e => registered (entry_pattern e)) commands ->
  _handle_command (Some current) commands cmd = Return [CallHandler f args] ->
  (exists p kwargs matches,
      (p, f, kwargs) ∈ commands /\
      Pattern_match (Some current) p (Str.split (Str.lower cmd)) = Return (Some matches) /\
      args = update kwargs matches /\
      (forall k, k ∈ argnames p ->
                 exists s, matches !! k = Some s /\ args !! k = Some (VStr s)) /\
      (forall k, matches !! k = None -> args !! k = kwargs !! k)) /\
  (forall v context commands0,
      exists p commands1,
        _register "take ITEM" (mkFunc "take" ["item"]) context {[ "item" := v ]} commands0
        = (Return tt, commands1) /\
        commands1 = commands0 ++ [(p, mkFunc "take" ["item"], {[ "item" := v ]})] /\
        _handle_command (Some "default")
          [(compile_spec "take ITEM" (Some "default"), mkFunc "take" ["item"],
            {[ "item" := v ]})] "take red ball"
        = Return [CallHandler (mkFunc "take" ["item"]) {[ "item" := VStr "red ball" ]}]).
Proof.
  intros Hreg Hcall. split.
  - unfold _handle_command in Hcall.
    destruct (commands_loop_outcome current (Str.split (Str.lower cmd)) cmd commands Hreg)
      as (c & Hc & Hcases).
    rewrite Hcall in Hc. injection Hc as <-.
    destruct Hcases as [(i & p & g & kwargs & matches & Hi & Hm & _ & Heq)|[_ Heq]];
      [|discriminate].
    injection Heq as <- ->. exists p, kwargs, matches.
    split; [apply list_elem_of_lookup; eauto|]. split; [exact Hm|]. split; [reflexivity|].
    split.
    + intros k Hk.
      assert (Hwf : wf_pattern p).
      { rewrite Forall_forall in Hreg. apply registered_wf.
        apply (Hreg (p, f, kwargs)). apply list_elem_of_lookup. eauto. }
      destruct (Pattern_match_binds _ _ _ _ Hwf Hm k Hk) as (s & Hs). exists s.
      split; [exact Hs|]. rewrite update_lookup, Hs. reflexivity.
    + intros k Hk. rewrite update_lookup, Hk. reflexivity.
  - intros v context commands0. eexists. eexists. split; [|split].
    + unfold _register. simpl. reflexivity.
    + reflexivity.
    + unfold _handle_command. cbn [commands_loop].
      replace (Pattern_match (Some "default") (compile_spec "take ITEM" (Some "default"))
                 (Str.split (Str.lower "take red ball")))
        with (Return (A := option (gmap string string)) (Some {[ "item" := "red ball" ]}))
        by (vm_compute; reflexivity).
      assert (Hu : update {[ "item" := v ]} {[ "item" := "red ball" ]}
                   = {[ "item" := VStr "red ball" ]}).
      { apply map_eq. intros k. rewrite update_lookup.
        destruct (decide (k = "item")) as [->|Hne].
        - rewrite !lookup_singleton_eq. reflexivity.
        - rewrite !lookup_singleton_ne by congruence. reflexivity. }
      rewrite Hu. reflexivity.
Qed.

(** The theorem at an entry whose fixed keyword [item] is also the
    argument name of its pattern. *)
Lemma captured_overrides_fixed_witness :
  let commands :=
    [(compile_spec "take ITEM" (Some "default"), mkFunc "take" ["item"],
      ({[ "item" := VObj 7 ]} : gmap string value))] in
  let args : gmap string value := {[ "item" := VStr "red ball" ]} in
  (exists p kwargs matches,
      (p, mkFunc "take" ["item"], kwargs) ∈ commands /\
      Pattern_match (Some "default") p (Str.split (Str.lower "take red ball"))
      = Return (Some matches) /\
      args = update kwargs matches /\
      (forall k, k ∈ argnames p ->
                 exists s, matches !! k = Some s /\ args !! k = Some (VStr s)) /\
      (forall k, matches !! k = None -> args !! k = kwargs !! k)) /\
  (forall v context commands0,
      exists p commands1,
        _register "take ITEM" (mkFunc "take" ["item"]) context {[ "item" := v ]} commands0
        = (Return tt, commands1) /\
        commands1 = commands0 ++ [(p, mkFunc "take" ["item"], {[ "item" := v ]})] /\
        _handle_command (Some "default")
          [(compile_spec "take ITEM" (Some "default"), mkFunc "take" ["item"],
            {[ "item" := v ]})] "take red ball"
        = Return [CallHandler (mkFunc "take" ["item"]) {[ "item" := VStr "red ball" ]}]).
Proof.
  apply (captured_overrides_fixed "default" _ "take red ball").
  - apply Forall_cons_2; [|apply Forall_nil_2].
    apply (Pattern_init_registered "take ITEM" (Some "default")). reflexivity.
  - vm_compute. reflexivity.
Defined.

(** C10. [set_context c] sets the current context to ["default"] when [c]
    is ["default"] and to ["default." ++ c] otherwise; so after any run of
    [set_context] calls (from the initial context, and after at least one
    call from any value of the global) the current context is ["default"]
    or begins with ["default."]; and an already qualified path is
    qualified again: [set_context "default.shop"] gives
    ["default.default.shop"], not ["default.shop"], and likewise for every
    ["default." ++ c]. *)
Theorem set_context_qualifies :
  (forall c, set_context c
             = Some (if decide (c = "default") then "default" else "default." +:+ c)) /\
  (forall cs, exists current,
      set_context_all cs initial_context = Some current /\
      (current = "default" \/ exists rest, current = "default." +:+ rest)) /\
  (forall c0 c cs, exists current,
      set_context_all (c :: cs) c0 = Some current /\
      (current = "default" \/ exists rest, current = "default." +:+ rest)) /\
  set_context "default.shop" = Some "default.default.shop" /\
  set_context "default.shop" <> Some "default.shop" /\
  (forall c, set_context ("default." +:+ c) = Some ("default.default." +:+ c) /\
             set_context ("default." +:+ c) <> Some ("default." +:+ c)).
Proof.
  split; [|split; [|split; [|split; [|split]]]].
  - intros c. unfold set_context.
    destruct (String.eqb_spec c "default"), (decide (c = "default")); simpl; congruence.
  - intros [|c cs].
    + exists "default". split; [reflexivity|left; reflexivity].
    + apply set_context_all_cons.
  - intros c0 c cs. apply set_context_all_cons.
  - reflexivity.
  - discriminate.
  - intros c. split; [reflexivity|]. unfold set_context. simpl. intros H.
    injection H as H. apply (f_equal String.length) in H.
    rewrite !length_append in H. simpl in H. lia.
Qed.

(** X1. For [placeholders >= 1], [word_combinations have placeholders]
    yields exactly the tuples of length [placeholders] with entries [>= 1]
    that sum to [have], each of them once: no allocation is missed and none
    is repeated. *)
Theorem word_combinations_complete (have placeholders : Z) :
  1 <= placeholders ->
  exists combos,
    word_combinations have placeholders = Some combos /\
    NoDup combos /\
    (forall c, c ∈ combos <->
               Z.of_nat (length c) = placeholders /\ Forall (fun x => 1 <= x) c /\
               total c = have).
Proof.
  intros Hp. destruct (word_combinations_total have placeholders Hp)
    as (combos & Hcombos & Hall & _ & Hsorted & _).
  exists combos. split; [exact Hcombos|]. split; [apply StronglySorted_lex_NoDup, Hsorted|].
  intros c. split.
  - intros Hc. rewrite Forall_forall in Hall. apply (Hall c Hc).
  - intros Hc. apply (word_combinations_rec_complete _ _ _ _ _ Hp Hcombos Hc).
Qed.

(** The theorem at [have = 4] and [placeholders = 2]. *)
Lemma word_combinations_complete_witness :
  exists combos,
    word_combinations 4 2 = Some combos /\
    NoDup combos /\
    (forall c, c ∈ combos <->
               Z.of_nat (length c) = 2 /\ Forall (fun x => 1 <= x) c /\ total c = 4).
Proof. apply (word_combinations_complete 4 2). lia. Defined.

(** X2. [Pattern.match] finds a parse whenever one exists. For a compiled
    pattern in a set context, a returned mapping is the mapping of a parse
    (the pattern is active, its prefix is a prefix of the words, and some
    counts of at least one word per placeholder let the remaining tokens
    consume the remaining words exactly); conversely, if the words have any
    parse, [match] returns a mapping; so it returns no-match exactly when
    the pattern is inactive, the prefix differs, or no parse exists. *)
Theorem match_finds_a_parse (command : string) (context : option string) (p : Pattern)
    (current : string) (ws : list string) :
  Pattern_init command context = Return p ->
  (forall m, Pattern_match (Some current) p ws = Return (Some m) ->
             active_in current p = true /\ prefix p `prefix_of` ws /\
             exists allocation bs, parses p ws allocation bs /\ m = mapping_of bs) /\
  (forall allocation bs,
      active_in current p = true -> prefix p `prefix_of` ws ->
      parses p ws allocation bs ->
      exists m, Pattern_match (Some current) p ws = Return (Some m)) /\
  (Pattern_match (Some current) p ws = Return None <->
   ~ (active_in current p = true /\ prefix p `prefix_of` ws /\
      exists allocation bs, parses p ws allocation bs)).
Proof.
  intros Hp. assert (Hwf := Pattern_init_wf _ _ _ Hp).
  split; [|split].
  - intros m Hm. apply (Pattern_match_parse _ _ _ _ Hwf Hm).
  - intros allocation bs Hact Hpre Hparse.
    apply (Pattern_match_complete _ _ _ _ _ Hwf Hact Hpre Hparse).
  - split.
    + intros Hnone (Hact & Hpre & allocation & bs & Hparse).
      destruct (Pattern_match_complete _ _ _ _ _ Hwf Hact Hpre Hparse) as (m & Hm).
      congruence.
    + intros Hno. rewrite (Pattern_match_refines _ _ _ Hwf).
      destruct (match_spec current p ws) as [m|] eqn:Hm; [|reflexivity].
      exfalso. apply Hno.
      destruct (Pattern_match_parse current p ws m Hwf) as (Hact & Hpre & a & bs & Hpar & _).
      { rewrite (Pattern_match_refines _ _ _ Hwf), Hm. reflexivity. }
      eauto.
Qed.

(** The theorem at the pattern of ["give ITEM to TARGET"] and a line with
    two parses. *)
Lemma match_finds_a_parse_witness :
  let p := compile_spec "give ITEM to TARGET" (Some "default") in
  let ws := ["give"; "a"; "to"; "b"; "to"; "c"] in
  (forall m, Pattern_match (Some "default") p ws = Return (Some m) ->
             active_in "default" p = true /\ prefix p `prefix_of` ws /\
             exists allocation bs, parses p ws allocation bs /\ m = mapping_of bs) /\
  (forall allocation bs,
      active_in "default" p = true -> prefix p `prefix_of` ws ->
      parses p ws allocation bs ->
      exists m, Pattern_match (Some "default") p ws = Return (Some m)) /\
  (Pattern_match (Some "default") p ws = Return None <->
   ~ (active_in "default" p = true /\ prefix p `prefix_of` ws /\
      exists allocation bs, parses p ws allocation bs)).
Proof.
  exact (match_finds_a_parse "give ITEM to TARGET" (Some "default")
           (compile_spec "give ITEM to TARGET" (Some "default")) "default"
           ["give"; "a"; "to"; "b"; "to"; "c"] eq_refl).
Defined.

(** X3. Round trip of a match: when the argument names of a compiled
    pattern are distinct and [match] returns a mapping, the pattern's
    words with each placeholder replaced by its captured text, joined with
    single spaces, are the input words joined with single spaces. *)
Theorem match_round_trip (command : string) (context : option string) (p : Pattern)
    (current : string) (ws : list string) (m : gmap string string) :
  Pattern_init command context = Return p ->
  NoDup (argnames p) ->
  Pattern_match (Some current) p ws = Return (Some m) ->
  Str.join " " (prefix p ++ map (render m) (pattern p)) = Str.join " " ws.
Proof.
  intros Hp Hnd Hm. assert (Hwf := Pattern_init_wf _ _ _ Hp).
  destruct (Pattern_match_parse _ _ _ _ Hwf Hm)
    as (_ & (rest & ->) & allocation & bs & [Hpos Hcap] & ->).
  rewrite drop_app_length in Hcap.
  assert (Hnames := captures_names _ _ _ _ Hcap).
  rewrite (wf_argnames _ Hwf), <- Hnames in Hnd.
  assert (Hjoin := captures_render (pattern p) (mapping_of bs) _ _ _ Hcap Hpos
                     ltac:(intros k v Hkv; apply (mapping_of_lookup _ _ _ Hnd Hkv))).
  destruct (captures_shape _ _ _ _ Hcap Hpos) as (_ & _ & Hnil).
  destruct (prefix p) as [|w pre]; [exact Hjoin|].
  destruct (pattern p) as [|t tokens].
  - destruct Hnil as [Hnil _]. rewrite (Hnil eq_refl). reflexivity.
  - destruct rest as [|word rest].
    { destruct Hnil as [_ Hnil]. discriminate (Hnil eq_refl). }
    rewrite !join_app by discriminate. rewrite Hjoin. reflexivity.
Qed.

(** The theorem at ["put ITEM in CONTAINER"]. *)
Lemma match_round_trip_witness :
  let p := compile_spec "put ITEM in CONTAINER" (Some "default") in
  let m : gmap string string :=
    {[ "item" := "a rusty key"; "container" := "the old chest" ]} in
  Str.join " " (prefix p ++ map (render m) (pattern p))
  = Str.join " " ["put"; "a"; "rusty"; "key"; "in"; "the"; "old"; "chest"].
Proof.
  exact (match_round_trip "put ITEM in CONTAINER" (Some "default")
           (compile_spec "put ITEM in CONTAINER" (Some "default")) "default"
           ["put"; "a"; "rusty"; "key"; "in"; "the"; "old"; "chest"]
           ({[ "item" := "a rusty key"; "container" := "the old chest" ]}
              : gmap string string)
           eq_refl
           ltac:(apply (bool_decide_unpack _); vm_compute; exact I)
           ltac:(vm_compute; reflexivity)).
Defined.

(** X4. The keys of a returned mapping are exactly the argument names of
    the pattern, and a line that matches has at least one word for every
    word of the template: at least [len(prefix) + len(pattern)] words. *)
Theorem match_keys_and_length (command : string) (context : option string) (p : Pattern)
    (current : string) (ws : list string) (m : gmap string string) :
  Pattern_init command context = Return p ->
  Pattern_match (Some current) p ws = Return (Some m) ->
  dom m = list_to_set (argnames p) /\
  (length (prefix p) + length (pattern p) <= length ws)%nat.
Proof.
  intros Hp Hm. assert (Hwf := Pattern_init_wf _ _ _ Hp).
  destruct (Pattern_match_parse _ _ _ _ Hwf Hm)
    as (_ & (rest & ->) & allocation & bs & [Hpos Hcap] & ->).
  rewrite drop_app_length in Hcap. split.
  - unfold mapping_of. rewrite fold_insert_dom, dom_empty_L, (right_id_L ∅ (∪)).
    rewrite (captures_names _ _ _ _ Hcap), (wf_argnames _ Hwf). reflexivity.
  - destruct (captures_shape _ _ _ _ Hcap Hpos) as (Hlen & Hsum & _).
    assert (Hge := total_ge_length _ Hpos). rewrite length_app. lia.
Qed.

(** The theorem at ["take ITEM"] and [take red ball]. *)
Lemma match_keys_and_length_witness :
  let p := compile_spec "take ITEM" (Some "default") in
  dom ({[ "item" := "red ball" ]} : gmap string string) = list_to_set (argnames p) /\
  (length (prefix p) + length (pattern p) <= length ["take"; "red"; "ball"])%nat.
Proof.
  apply (match_keys_and_length "take ITEM" (Some "default")
           (compile_spec "take ITEM" (Some "default")) "default"
           ["take"; "red"; "ball"] ({[ "item" := "red ball" ]} : gmap string string)).
  - reflexivity.
  - vm_compute. reflexivity.
Defined.

(** X5. A template without placeholders matches exactly its own words: for
    a compiled pattern with no argument names, in a set context, [match]
    returns the empty mapping when the pattern is active and the input
    words are the words of the template, and no-match otherwise. *)
Theorem literal_pattern_matches_itself (command : string) (context : option string)
    (p : Pattern) (current : string) (ws : list string) :
  Pattern_init command context = Return p ->
  argnames p = [] ->
  Pattern_match (Some current) p ws
  = Return (if active_in current p && bool_decide (ws = Str.split command)
            then Some ∅ else None).
Proof.
  intros Hp Hargs. assert (Hwf := Pattern_init_wf _ _ _ Hp).
  rewrite (Pattern_match_refines _ _ _ Hwf). f_equal.
  assert (Heq := Pattern_init_return _ _ _ Hp).
  assert (Hpre : prefix p = Str.split command).
  { subst p. apply all_literal_leading. exact Hargs. }
  assert (Hpat : pattern p = []).
  { subst p. simpl in *. apply drop_ge. rewrite (all_literal_leading _ Hargs), length_map.
    lia. }
  rewrite match_spec_literal, Hpre; [reflexivity|exact Hpat|].
  rewrite (wf_placeholders _ Hwf), Hpat. reflexivity.
Qed.

(** The theorem at ["look around"]. *)
Lemma literal_pattern_matches_itself_witness :
  let p := compile_spec "look around" (Some "default") in
  Pattern_match (Some "default") p ["look"; "around"]
  = Return (if active_in "default" p
               && bool_decide (["look"; "around"] = Str.split "look around")
            then Some ∅ else None).
Proof.
  exact (literal_pattern_matches_itself "look around" (Some "default")
           (compile_spec "look around" (Some "default")) "default" ["look"; "around"]
           eq_refl eq_refl).
Defined.

(** X6. One word per token: when a line has exactly as many words as the
    template of a compiled pattern ([len(prefix) + len(pattern)]) and
    [match] returns a mapping, every placeholder is bound to a single word
    of the line. *)
Theorem match_one_word_each (command : string) (context : option string) (p : Pattern)
    (current : string) (ws : list string) (m : gmap string string) :
  Pattern_init command context = Return p ->
  length ws = (length (prefix p) + length (pattern p))%nat ->
  Pattern_match (Some current) p ws = Return (Some m) ->
  forall k v, m !! k = Some v -> v ∈ ws.
Proof.
  intros Hp Hlen Hm k v Hk. assert (Hwf := Pattern_init_wf _ _ _ Hp).
  destruct (Pattern_match_parse _ _ _ _ Hwf Hm)
    as (_ & (rest & ->) & allocation & bs & [Hpos Hcap] & ->).
  rewrite drop_app_length in Hcap. rewrite length_app in Hlen.
  destruct (captures_shape _ _ _ _ Hcap Hpos) as (Hla & Hsum & _).
  assert (Hones : Forall (fun x => x = 1) allocation).
  { rewrite (all_ones allocation Hpos) by lia. clear.
    induction (length allocation); simpl; constructor; auto. }
  apply elem_of_app. right.
  destruct (fold_insert_lookup_inv _ _ _ _ Hk) as [Hin|Hempty].
  - apply (captures_single_words _ _ _ _ Hones Hcap k v Hin).
  - rewrite lookup_empty in Hempty. discriminate.
Qed.

(** The theorem at ["put ITEM in CONTAINER"] and a line of four words. *)
Lemma match_one_word_each_witness :
  Pattern_match (Some "default") (compile_spec "put ITEM in CONTAINER" (Some "default"))
    ["put"; "key"; "in"; "chest"]
  = Return (Some {[ "item" := "key"; "container" := "chest" ]}) /\
  "chest" ∈ ["put"; "key"; "in"; "chest"].
Proof.
  split; [vm_compute; reflexivity|].
  apply (match_one_word_each "put ITEM in CONTAINER" (Some "default")
           (compile_spec "put ITEM in CONTAINER" (Some "default")) "default"
           ["put"; "key"; "in"; "chest"]
           {[ "item" := "key"; "container" := "chest" ]}) with (k := "container").
  - reflexivity.
  - reflexivity.
  - vm_compute. reflexivity.
  - vm_compute. reflexivity.
Defined.

(** X7. Context scoping after [set_context]: a pattern registered with
    context [c] is active right after [set_context c], for every [c]; a
    pattern of the root context ["default"] is active after every
    [set_context]; and a pattern registered with the sub-context [c.d] is
    not active after [set_context c]. *)
Theorem set_context_scoping (c d : string) (o : string) (n : Z) (a pr : list string)
    (pa : list token) (fx : Z) :
  is_active (set_context c) (mkPattern o (Some c) n a pr pa fx) = Return true /\
  is_active (set_context c) (mkPattern o (Some "default") n a pr pa fx) = Return true /\
  is_active (set_context c) (mkPattern o (Some (c +:+ "." +:+ d)) n a pr pa fx)
  = Return false.
Proof.
  split; [|split].
  - rewrite set_context_value, is_active_active_in. unfold active_in. simpl.
    rewrite bool_decide_eq_true_2 by reflexivity. reflexivity.
  - apply root_pattern_active.
  - rewrite set_context_value, is_active_active_in. f_equal.
    apply (active_in_parent c d). reflexivity.
Qed.

(** X8. Contexts are inherited downwards: a pattern that is active after
    [set_context c] is active after [set_context] of every descendant
    [c.d]. *)
Theorem active_in_descendants (c d : string) (p : Pattern) :
  is_active (set_context c) p = Return true ->
  is_active (set_context (c +:+ "." +:+ d)) p = Return true.
Proof.
  rewrite !set_context_value, !is_active_active_in. intros H. injection H as H.
  f_equal. apply active_in_descendant, H.
Qed.

(** The theorem at the context ["shop"], its descendant ["shop.register"]
    and a pattern registered with ["shop"]. *)
Lemma active_in_descendants_witness :
  is_active (set_context ("shop" +:+ "." +:+ "register"))
    (compile_spec "buy ITEM" (Some "shop")) = Return true.
Proof.
  apply (active_in_descendants "shop" "register" (compile_spec "buy ITEM" (Some "shop"))).
  reflexivity.
Defined.

(** X9. The registry a game starts with. When the module-level list, the
    [@when] decorations [rs] and the prologue of [start] all go through,
    the registry is: the two help entries if help is enabled, then the exit
    entry, then one entry per decoration, in order, each holding the
    pattern of its command and context, its function and its fixed
    keywords, with the function's parameter names equal as a set to the
    argument names plus the fixed keywords. Every pattern in it comes from
    [Pattern], so in every set context a dispatch of any line makes exactly
    one call. *)
Theorem commands_at_start_invariant (rs : list registration) (help_enabled : bool)
    (commands : list entry) :
  commands_at_start rs help_enabled = Return commands ->
  exists users,
    Forall2 entry_of rs users /\
    commands
    = (if help_enabled
       then [(as_qmark (compile_spec "help" (Some "default")), help, ∅);
             (compile_spec "help" (Some "default"), help, ∅)]
       else [])
      ++ (compile_spec "quit" (Some "default"), sys_exit, ∅) :: users /\
    Forall (fun e => registered (entry_pattern e)) commands /\
    (forall current cmd,
        exists c, _handle_command (Some current) commands cmd = Return [c]).
Proof.
  unfold commands_at_start. change commands_init
    with (Return [(compile_spec "quit" (Some "default"), sys_exit,
                   (∅ : gmap string value))]).
  set (quit := (compile_spec "quit" (Some "default"), sys_exit, (∅ : gmap string value))).
  destruct (when_all_entries rs [quit])
    as [(users & Hall & Hus)|(rs1 & r & rs2 & users & e & _ & Hall & _)];
    rewrite Hall; [|discriminate].
  intros Hstart. exists users. split; [exact Hus|].
  assert (Hreg : Forall (fun e => registered (entry_pattern e)) (quit :: users)).
  { apply Forall_cons_2.
    - apply (Pattern_init_registered "quit" (Some "default")). reflexivity.
    - clear -Hus. induction Hus as [|r e rs users Hre _ IH]; constructor; [|exact IH].
      apply (entry_of_registered _ _ Hre). }
  assert (Hcmds : Forall (fun e => registered (entry_pattern e)) commands /\
                  commands
                  = (if help_enabled
                     then [(as_qmark (compile_spec "help" (Some "default")), help, ∅);
                           (compile_spec "help" (Some "default"), help, ∅)]
                     else []) ++ quit :: users).
  { destruct help_enabled.
    - change (start_prologue true ([quit] ++ users))
        with (Return ((as_qmark (compile_spec "help" (Some "default")), help,
                       (∅ : gmap string value))
                      :: (compile_spec "help" (Some "default"), help, ∅)
                      :: quit :: users)) in Hstart.
      injection Hstart as <-. split; [|reflexivity].
      apply Forall_cons_2; [|apply Forall_cons_2; [|exact Hreg]].
      + exists "help", (Some "default"), (compile_spec "help" (Some "default")).
        split; [reflexivity|right; reflexivity].
      + apply (Pattern_init_registered "help" (Some "default")). reflexivity.
    - simpl in Hstart. injection Hstart as <-. split; [exact Hreg|reflexivity]. }
  destruct Hcmds as [Hregc Heq]. split; [exact Heq|]. split; [exact Hregc|].
  intros current cmd. unfold _handle_command.
  destruct (commands_loop_outcome current (Str.split (Str.lower cmd)) cmd commands Hregc)
    as (c & Hc & _).
  exists c. exact Hc.
Qed.

(** The theorem at a module with one decoration, with help enabled. *)
Lemma commands_at_start_invariant_witness :
  let rs := [mkRegistration "take ITEM" (mkFunc "take" ["item"]) (Some "default") ∅] in
  let commands : list entry :=
    [(as_qmark (compile_spec "help" (Some "default")), help, ∅);
     (compile_spec "help" (Some "default"), help, ∅);
     (compile_spec "quit" (Some "default"), sys_exit, ∅);
     (compile_spec "take ITEM" (Some "default"), mkFunc "take" ["item"], ∅)] in
  exists users,
    Forall2 entry_of rs users /\
    commands
    = (if true
       then [(as_qmark (compile_spec "help" (Some "default")), help, ∅);
             (compile_spec "help" (Some "default"), help, ∅)]
       else [])
      ++ (compile_spec "quit" (Some "default"), sys_exit, ∅) :: users /\
    Forall (fun e => registered (entry_pattern e)) commands /\
    (forall current cmd,
        exists c, _handle_command (Some current) commands cmd = Return [c]).
Proof.
  apply (commands_at_start_invariant
           [mkRegistration "take ITEM" (mkFunc "take" ["item"]) (Some "default") ∅] true).
  vm_compute. reflexivity.
Defined.

(** X10. Registration stops at the first decoration that raises: the
    decorations before it have appended their entries, in order, the
    failing one has appended nothing, and none after it has run. *)
Theorem when_all_stops_at_failure (rs : list registration) (commands commands' : list entry)
    (e : exn) :
  when_all rs commands = (Raise e, commands') ->
  exists rs1 r rs2 users,
    rs = rs1 ++ r :: rs2 /\
    commands' = commands ++ users /\
    Forall2 entry_of rs1 users /\
    when_all rs1 commands = (Return tt, commands') /\
    when r commands' = (Raise e, commands').
Proof.
  intros Hall.
  destruct (when_all_entries rs commands)
    as [(users & Hok & _)|(rs1 & r & rs2 & users & e' & Hrs & Hraise & Hus & H1 & Hr)].
  - rewrite Hok in Hall. discriminate.
  - rewrite Hraise in Hall. injection Hall as -> <-.
    exists rs1, r, rs2, users. auto.
Qed.

(** The theorem at two decorations, the second with a mixed-case word. *)
Lemma when_all_stops_at_failure_witness :
  let good := mkRegistration "look" (mkFunc "look" []) (Some "default") ∅ in
  let bad := mkRegistration "take Item" (mkFunc "take" ["item"]) (Some "default") ∅ in
  let commands' : list entry := [(compile_spec "look" (Some "default"), mkFunc "look" [], ∅)] in
  exists rs1 r rs2 users,
    [good; bad] = rs1 ++ r :: rs2 /\
    commands' = [] ++ users /\
    Forall2 entry_of rs1 users /\
    when_all rs1 [] = (Return tt, commands') /\
    when r commands' = (Raise (InvalidCommand (MixedCase "take Item")), commands').
Proof.
  apply (when_all_stops_at_failure
           [mkRegistration "look" (mkFunc "look" []) (Some "default") ∅;
            mkRegistration "take Item" (mkFunc "take" ["item"]) (Some "default") ∅] []).
  vm_compute. reflexivity.
Defined.

(** X11. With the current context unset, [match] raises [InvalidContext]
    for every pattern and every input, so a dispatch raises
    [InvalidContext] without making any call, unless the registry is empty,
    in which case it calls [no_command_matches]. *)
Theorem dispatch_with_unset_context (p : Pattern) (ws : list string) (cmd : string)
    (e : entry) (commands : list entry) :
  Pattern_match None p ws = Raise InvalidContext /\
  _handle_command None (e :: commands) cmd = Raise InvalidContext /\
  _handle_command None [] cmd = Return [CallNoCommandMatches cmd].
Proof.
  split; [reflexivity|]. split; [|reflexivity].
  destruct e as [[q f] kw]. reflexivity.
Qed.

(** X12. A dispatch does not depend on the letter case of the line or on
    whitespace around it: if a line calls a handler, then the line in
    upper case, the line in lower case and the stripped line call the same
    handler with the same arguments. *)
Theorem dispatch_ignores_case_and_padding (cc : option string) (commands : list entry)
    (cmd : string) (f : func) (args : gmap string value) :
  _handle_command cc commands cmd = Return [CallHandler f args] ->
  _handle_command cc commands (Str_upper cmd) = Return [CallHandler f args] /\
  _handle_command cc commands (Str.lower cmd) = Return [CallHandler f args] /\
  _handle_command cc commands (Str_strip cmd) = Return [CallHandler f args].
Proof.
  unfold _handle_command. intros H.
  rewrite lower_upper, lower_idem, lower_strip, split_strip.
  repeat split; apply (commands_loop_handler _ _ cmd), H.
Qed.

(** The theorem at the line [  Take the LAMP ]. *)
Lemma dispatch_ignores_case_and_padding_witness :
  let commands : list entry :=
    [(compile_spec "take ITEM" (Some "default"), mkFunc "take" ["item"], ∅)] in
  let f := mkFunc "take" ["item"] in
  let args : gmap string value := {[ "item" := VStr "the lamp" ]} in
  _handle_command (Some "default") commands (Str_upper "  Take the LAMP ")
  = Return [CallHandler f args] /\
  _handle_command (Some "default") commands (Str.lower "  Take the LAMP ")
  = Return [CallHandler f args] /\
  _handle_command (Some "default") commands (Str_strip "  Take the LAMP ")
  = Return [CallHandler f args].
Proof.
  apply (dispatch_ignores_case_and_padding (Some "default")).
  vm_compute. reflexivity.
Defined.

(** X13. What a handler receives from an ASCII line: every text captured
    from the tokens of the line (the line lowercased and split) is
    non-empty ASCII text and contains none of the letters [A-Z], so no
    uppercase letter. *)
Theorem captured_text_is_lowercase (command : string) (context : option string)
    (p : Pattern) (current : string) (cmd : string) (m : gmap string string) :
  Str_isascii cmd = true ->
  Pattern_init command context = Return p ->
  Pattern_match (Some current) p (Str.split (Str.lower cmd)) = Return (Some m) ->
  forall k v, m !! k = Some v -> v <> "" /\ Str_isascii v = true /\ no_uppercase v.
Proof.
  intros Hascii Hp Hm k v Hk. assert (Hwf := Pattern_init_wf _ _ _ Hp).
  destruct (Pattern_match_parse _ _ _ _ Hwf Hm)
    as (_ & _ & allocation & bs & [Hpos Hcap] & ->).
  destruct (fold_insert_lookup_inv _ _ _ _ Hk) as [Hin|Hempty];
    [|rewrite lookup_empty in Hempty; discriminate].
  destruct (captures_chunks _ _ _ _ Hcap Hpos k v Hin) as (chunk & Hne & Hsub & ->).
  assert (Htok := tokens_of_ascii_line cmd Hascii). rewrite Forall_forall in Htok.
  assert (Hchunk : forall w, w ∈ chunk ->
                             w <> "" /\ Str_isascii w = true /\ no_uppercase w).
  { intros w Hw. apply Htok.
    apply (subseteq_drop (length (prefix p)) _ w), Hsub, Hw. }
  split; [|split].
  - apply join_nonempty; [exact Hne|]. apply Forall_forall. intros w Hw. apply Hchunk, Hw.
  - apply join_isascii. apply Forall_forall. intros w Hw. apply Hchunk, Hw.
  - apply join_no_uppercase. apply Forall_forall. intros w Hw. apply Hchunk, Hw.
Qed.

(** The theorem at ["take ITEM"] and the line [Take the LAMP]. *)
Lemma captured_text_is_lowercase_witness :
  Str_isascii "Take the LAMP" = true /\
  Pattern_match (Some "default") (compile_spec "take ITEM" (Some "default"))
    (Str.split (Str.lower "Take the LAMP"))
  = Return (Some {[ "item" := "the lamp" ]}) /\
  "the lamp" <> "" /\ Str_isascii "the lamp" = true /\ no_uppercase "the lamp".
Proof.
  split; [reflexivity|]. split; [vm_compute; reflexivity|].
  apply (captured_text_is_lowercase "take ITEM" (Some "default")
           (compile_spec "take ITEM" (Some "default")) "default" "Take the LAMP"
           {[ "item" := "the lamp" ]} eq_refl eq_refl eq_refl "item" "the lamp").
  vm_compute. reflexivity.
Defined.

(** X14. Printing a compiled pattern gives the template back, word by
    word, for an ASCII template: the prefix followed by [str] of each
    remaining item (a [Placeholder] prints as its name in upper case) is
    the list of the words of the template. *)
Theorem compile_print_round_trip (command : string) (context : option string)
    (p : Pattern) :
  Str_isascii command = true ->
  Pattern_init command context = Return p ->
  prefix p ++ map token_str (pattern p) = Str.split command.
Proof.
  intros _ Hp. assert (Hs := Pattern_init_compile_spec command context).
  rewrite Hp in Hs. destruct Hs as [Hwf ->].
  cbn [prefix pattern compile_spec].
  set (tokens := map classify (Str.split command)).
  transitivity (map token_str (map Literal (leading_literals tokens)
                               ++ drop (length (leading_literals tokens)) tokens)).
  - rewrite map_app, map_map. simpl. rewrite map_id. reflexivity.
  - rewrite leading_literals_split. apply token_str_classify; [apply split_nonempty|exact Hwf].
Qed.

(** The theorem at ["put ITEM in CONTAINER"]. *)
Lemma compile_print_round_trip_witness :
  let p := compile_spec "put ITEM in CONTAINER" (Some "default") in
  Str_isascii "put ITEM in CONTAINER" = true /\
  prefix p ++ map token_str (pattern p) = Str.split "put ITEM in CONTAINER".
Proof.
  split; [reflexivity|].
  exact (compile_print_round_trip "put ITEM in CONTAINER" (Some "default")
           (compile_spec "put ITEM in CONTAINER" (Some "default")) eq_refl eq_refl).
Defined.

(** X15. [help] in a set context prints its header and then the templates
    of exactly the entries whose pattern is active, in ascending order;
    so the template of every entry that can match some line in the current
    context is listed. With the context unset and a non-empty registry it
    prints the header and raises [InvalidContext]. *)
Theorem help_lists_active_patterns (current : string) (e0 : entry)
    (commands : list entry) :
  (exists lines,
      help_print (Some current) commands
      = ("Here is a list of the commands you can give:" :: lines, Return tt) /\
      StronglySorted String.le lines /\
      lines ≡ₚ map (fun e => orig_pattern (entry_pattern e))
                 (filter (fun e => active_in current (entry_pattern e)) commands) /\
      (forall e ws m,
          e ∈ commands ->
          Pattern_match (Some current) (entry_pattern e) ws = Return (Some m) ->
          orig_pattern (entry_pattern e) ∈ lines)) /\
  help_print None (e0 :: commands)
  = (["Here is a list of the commands you can give:"], Raise InvalidContext).
Proof.
  split; [|destruct e0 as [[p f] kw]; reflexivity].
  unfold help_print. rewrite active_patterns_filter. eexists. split; [reflexivity|].
  split; [apply StronglySorted_merge_sort; apply _|].
  split; [apply merge_sort_Permutation|].
  intros e ws m He Hm. unfold sorted. rewrite merge_sort_Permutation.
  apply list_elem_of_fmap. exists e. split; [reflexivity|].
  apply list_elem_of_filter. split; [|exact He].
  rewrite (Pattern_match_active _ _ _ _ Hm). exact I.
Qed.

(** X16. The input loop of [start] makes no call for a line that is empty
    once stripped, and one call for every other line it gets to: a run on
    some lines is the run on the non-blank ones; the number of calls is at
    most the number of non-blank lines, and equal to it when the loop ends
    at the end of the input. *)
Theorem start_calls_per_line {E : Type}
    (call_handler : func -> gmap string value -> option string -> list entry ->
                    (option string * list entry) + E)
    (help_enabled : bool) (lines : list string) (cc : option string)
    (commands : list entry) :
  let nonblank := filter (fun l => negb (blank l)) lines in
  start call_handler help_enabled lines cc commands
  = start call_handler help_enabled nonblank cc commands /\
  (length (start call_handler help_enabled lines cc commands).1 <= length nonblank)%nat /\
  ((start call_handler help_enabled lines cc commands).2 = EndOfInput ->
   length (start call_handler help_enabled lines cc commands).1 = length nonblank).
Proof.
  intros nonblank. unfold start.
  destruct (start_prologue help_enabled commands) as [commands'|e].
  - split; [apply input_loop_skips_blank|apply input_loop_count].
  - simpl. split; [reflexivity|]. split; [lia|discriminate].
Qed.

(** X17. [Bag.find] returns an item of the bag that has the lowercased
    name among its aliases, and [None] exactly when no item of the bag has
    it; [name in bag] is true exactly when [find] returns an item; and for
    an ASCII name the letter case of the name does not matter. *)
Theorem Bag_find_by_name (bag : list Item) (name : string) :
  match Bag_find bag name with
  | Some item =>
      item ∈ bag /\ Str.lower name ∈ item_aliases item /\
      Bag_contains bag (OStr name) = Ok true
  | None =>
      (forall item, item ∈ bag -> Str.lower name ∉ item_aliases item) /\
      Bag_contains bag (OStr name) = Ok false
  end /\
  (Str_isascii name = true ->
   Bag_find bag (Str_upper name) = Bag_find bag name /\
   Bag_find bag (Str.lower name) = Bag_find bag name).
Proof.
  split.
  - unfold Bag_contains. destruct (Bag_find bag name) as [item|] eqn:Hf.
    + destruct (Bag_find_Some _ _ _ Hf). auto.
    + split; [apply Bag_find_None, Hf|reflexivity].
  - intros _. split.
    + apply Bag_find_lower_eq, lower_upper.
    + apply Bag_find_lower_eq, lower_idem.
Qed.

(** X18. An item in a bag is found under its name and under each of its
    aliases, in any letter case: for an item built by [Item] that is in the
    bag, [n in bag] is true for every [n] that equals one of its labels up
    to letter case. A membership test with the item itself, instead of a
    name, raises [TypeError]. *)
Theorem Bag_contains_labels (bag : list Item) (id : nat) (name : string)
    (aliases : list string) (label n : string) :
  Item_init id name aliases ∈ bag ->
  label ∈ name :: aliases ->
  Str.lower n = Str.lower label ->
  Bag_contains bag (OStr n) = Ok true /\
  (exists found, Bag_find bag n = Some found /\ found ∈ bag /\
                 Str.lower label ∈ item_aliases found) /\
  Bag_contains bag (OItem (Item_init id name aliases)) = Err TypeError.
Proof.
  intros Hin Hlabel Hn.
  assert (Hsome : exists found, Bag_find bag n = Some found).
  { destruct (Bag_find bag n) as [found|] eqn:Hf; [eauto|].
    exfalso. apply (proj1 (Bag_find_None bag n) Hf _ Hin).
    rewrite Hn. unfold Item_init. simpl item_aliases.
    apply (list_elem_of_fmap_2 Str.lower _ _ Hlabel). }
  destruct Hsome as (found & Hf). destruct (Bag_find_Some _ _ _ Hf) as [H1 H2].
  split; [unfold Bag_contains; rewrite Hf; reflexivity|].
  split; [|reflexivity]. exists found. rewrite <- Hn. auto.
Qed.

(** The theorem at a bag with a lamp that is also called a lantern. *)
Lemma Bag_contains_labels_witness :
  let bag := [Item_init 0 "key" []; Item_init 1 "Lamp" ["Lantern"]] in
  Bag_contains bag (OStr "LANTERN") = Ok true /\
  (exists found, Bag_find bag "LANTERN" = Some found /\ found ∈ bag /\
                 Str.lower "Lantern" ∈ item_aliases found) /\
  Bag_contains bag (OItem (Item_init 1 "Lamp" ["Lantern"])) = Err TypeError.
Proof.
  apply (Bag_contains_labels _ 1 "Lamp" ["Lantern"] "Lantern" "LANTERN").
  - right. left.
  - right. left.
  - reflexivity.
Defined.

(** X19. [Bag.take] on a bag that holds each item once never raises: when
    it returns an item, that is the item [find] returns, it was in the bag
    and is no longer, every other item stays, and the bag has one item
    fewer; when it returns [None], no item has the name and the bag is
    unchanged. *)
Theorem Bag_take_removes_one (bag : list Item) (name : string) :
  distinct_items bag ->
  match Bag_take bag name with
  | Ok (Some obj, bag') =>
      Bag_find bag name = Some obj /\
      obj ∈ bag /\ (obj ∉ bag') /\
      (forall item, item ∈ bag' <-> item ∈ bag /\ item <> obj) /\
      length bag = S (length bag') /\
      distinct_items bag'
  | Ok (None, bag') => bag' = bag /\ Bag_find bag name = None
  | Err _ => False
  end.
Proof.
  intros Hnd. unfold Bag_take. destruct (Bag_find bag name) as [obj|] eqn:Hf; [|auto].
  destruct (Bag_find_Some _ _ _ Hf) as [Hin _].
  destruct (set_remove_splits bag obj Hnd Hin) as (l1 & l2 & -> & Hrem & Hnot).
  rewrite Hrem. split; [reflexivity|]. split; [exact Hin|]. split; [exact Hnot|].
  split; [|split].
  - intros item. rewrite !elem_of_app, elem_of_cons. split.
    + intros Hi. split; [tauto|]. intros ->. apply Hnot. apply elem_of_app. exact Hi.
    + intros [[Hi|[Hi|Hi]] Hne]; [auto|contradiction|auto].
  - rewrite !length_app. simpl. lia.
  - unfold distinct_items in *. rewrite map_app in *. simpl in Hnd.
    apply NoDup_app in Hnd as (H1 & H2 & H3). apply NoDup_cons in H3 as [_ H3].
    apply NoDup_app. split; [exact H1|]. split; [|exact H3].
    intros x Hx Hx'. apply (H2 x Hx). right. exact Hx'.
Qed.

(** The theorem at a bag of two items. *)
Lemma Bag_take_removes_one_witness :
  match Bag_take [Item_init 0 "key" []; Item_init 1 "Lamp" ["Lantern"]] "lantern" with
  | Ok (Some obj, bag') =>
      Bag_find [Item_init 0 "key" []; Item_init 1 "Lamp" ["Lantern"]] "lantern" = Some obj /\
      obj ∈ [Item_init 0 "key" []; Item_init 1 "Lamp" ["Lantern"]] /\ (obj ∉ bag') /\
      (forall item, item ∈ bag' <->
                    item ∈ [Item_init 0 "key" []; Item_init 1 "Lamp" ["Lantern"]] /\
                    item <> obj) /\
      length [Item_init 0 "key" []; Item_init 1 "Lamp" ["Lantern"]] = S (length bag') /\
      distinct_items bag'
  | Ok (None, bag') =>
      bag' = [Item_init 0 "key" []; Item_init 1 "Lamp" ["Lantern"]] /\
      Bag_find [Item_init 0 "key" []; Item_init 1 "Lamp" ["Lantern"]] "lantern" = None
  | Err _ => False
  end.
Proof.
  apply (Bag_take_removes_one [Item_init 0 "key" []; Item_init 1 "Lamp" ["Lantern"]]
           "lantern").
  unfold distinct_items. simpl. apply (bool_decide_unpack _). vm_compute. exact I.
Defined.

(** X20. [Bag.take_random] on a bag that holds each item once: with
    [which] below the size of the bag (as [random.randrange] gives it), it
    returns the item at that place of the iteration and leaves the bag
    without it, the other items in their order; on an empty bag it returns
    [None] and leaves the bag empty. [get_random] returns the same item and
    never [None] on a non-empty bag. *)
Theorem Bag_take_random_removes_one (bag : list Item) (which : nat) :
  distinct_items bag ->
  (which < length bag)%nat ->
  (exists obj,
      bag !! which = Some obj /\
      Bag_get_random bag which = Some obj /\
      Bag_take_random bag which = Ok (Some obj, take which bag ++ drop (S which) bag) /\
      obj ∉ take which bag ++ drop (S which) bag) /\
  Bag_get_random [] which = None /\
  Bag_take_random [] which = Ok (None, []).
Proof.
  intros Hnd Hlt. split; [|split; reflexivity].
  destruct (lookup_lt_is_Some_2 bag which Hlt) as (obj & Hobj). exists obj.
  assert (Hget : Bag_get_random bag which = Some obj).
  { unfold Bag_get_random. destruct bag; [simpl in Hlt; lia|]. simpl negb. cbv iota.
    rewrite enumerate_until_lookup by lia. rewrite Nat.sub_0_r. exact Hobj. }
  split; [exact Hobj|]. split; [exact Hget|].
  unfold Bag_take_random. rewrite Hget.
  assert (Hin : obj ∈ bag) by (apply list_elem_of_lookup; eauto).
  destruct (set_remove_splits bag obj Hnd Hin) as (l1 & l2 & Heq & Hrem & Hnot).
  rewrite Hrem.
  assert (Hlen : which = length l1).
  { unfold distinct_items in Hnd. subst bag.
    assert (Hmid : (l1 ++ obj :: l2) !! length l1 = Some obj)
      by (apply list_lookup_middle; reflexivity).
    apply (NoDup_lookup (map item_id (l1 ++ obj :: l2)) _ _ (item_id obj) Hnd);
      rewrite list_lookup_fmap; [rewrite Hobj|rewrite Hmid]; reflexivity. }
  subst bag which. rewrite take_app_length.
  replace (S (length l1)) with (length (l1 ++ [obj])) by (rewrite length_app; simpl; lia).
  rewrite (cons_middle obj l1 l2), app_assoc, drop_app_length. auto.
Qed.

(** The theorem at a bag of three items and the second place. *)
Lemma Bag_take_random_removes_one_witness :
  let bag := [Item_init 0 "key" []; Item_init 1 "lamp" []; Item_init 2 "coin" []] in
  (exists obj,
      bag !! 1%nat = Some obj /\
      Bag_get_random bag 1 = Some obj /\
      Bag_take_random bag 1 = Ok (Some obj, take 1 bag ++ drop 2 bag) /\
      obj ∉ take 1 bag ++ drop 2 bag) /\
  Bag_get_random [] 1 = None /\
  Bag_take_random [] 1 = Ok (None, []).
Proof.
  apply (Bag_take_random_removes_one
           [Item_init 0 "key" []; Item_init 1 "lamp" []; Item_init 2 "coin" []] 1).
  - unfold distinct_items. simpl. apply (bool_decide_unpack _). vm_compute. exact I.
  - simpl. lia.
Defined.

(** X21. [Room.add_direction] adds a direction and its reverse only when
    both names pass [islower] and neither is a direction yet; then each of
    the two is the reverse of the other and every other direction is as
    before. If it raises, the error is [InvalidCommand] for a name that
    fails [islower] or [KeyError] for a name that is already a direction,
    and nothing was added. So the directions stay paired (the reverse of
    the reverse of a direction is the direction): the module's own four
    directions are, and any run of [add_direction] calls keeps them so. *)
Theorem add_direction_keeps_pairs (forward reverse : string)
    (directions : gmap string string) (pairs : list (string * string)) :
  match Room_add_direction forward reverse directions with
  | Ok directions' =>
      Str.islower forward = true /\ Str.islower reverse = true /\
      directions !! forward = None /\ directions !! reverse = None /\
      directions' !! forward = Some reverse /\
      directions' !! reverse = Some forward /\
      (forall d, d <> forward -> d <> reverse -> directions' !! d = directions !! d) /\
      (paired directions -> paired directions')
  | Err e =>
      (e = InvalidCommand_direction /\
       (Str.islower forward = false \/ Str.islower reverse = false)) \/
      (exists d, e = KeyError d /\ (d = forward \/ d = reverse) /\
                 is_Some (directions !! d))
  end /\
  module_directions
  = Ok {[ "north" := "south"; "south" := "north"; "east" := "west"; "west" := "east" ]} /\
  (forall directions0,
      module_directions = Ok directions0 ->
      paired directions0 /\ paired (add_directions pairs directions0)).
Proof.
  split; [|split].
  - destruct (Room_add_direction forward reverse directions) as [directions'|e] eqn:Ha.
    + destruct (add_direction_Ok _ _ _ _ Ha) as (H1 & H2 & H3 & H4 & Heq).
      repeat (split; [assumption|]). subst directions'. split; [|split; [|split]].
      * destruct (decide (reverse = forward)) as [->|Hne]; [apply lookup_insert_eq|].
        rewrite lookup_insert_ne by exact Hne. apply lookup_insert_eq.
      * apply lookup_insert_eq.
      * intros d Hf Hr. rewrite !lookup_insert_ne by congruence. reflexivity.
      * intros Hp. apply (add_direction_paired _ _ _ _ Ha Hp).
    + unfold Room_add_direction, check_direction in Ha.
      destruct (Str.islower forward); simpl in Ha;
        [|injection Ha as <-; left; auto].
      destruct (bool_decide (is_Some (directions !! forward))) eqn:Hf.
      { injection Ha as <-. right. exists forward. apply bool_decide_eq_true_1 in Hf. auto. }
      destruct (Str.islower reverse); simpl in Ha;
        [|injection Ha as <-; left; auto].
      destruct (bool_decide (is_Some (directions !! reverse))) eqn:Hr; [|discriminate].
      injection Ha as <-. right. exists reverse. apply bool_decide_eq_true_1 in Hr. auto.
  - vm_compute. reflexivity.
  - intros directions0 H0.
    assert (Hp : paired directions0).
    { unfold module_directions in H0.
      destruct (Room_add_direction "north" "south" ∅) as [d1|] eqn:H1; [|discriminate].
      apply (add_direction_paired _ _ _ _ H0).
      apply (add_direction_paired _ _ _ _ H1).
      intros d r Hd. rewrite lookup_empty in Hd. discriminate. }
    split; [exact Hp|]. apply add_directions_paired, Hp.
Qed.

(** X22. Linking two rooms is two-way: with paired directions, after
    [a.d = b] for a declared direction [d] with reverse [r], [a.exit(d)] is
    [b] and [b.exit(r)] is [a], [d] is among the exits of [a] and [r] among
    those of [b], and no other attribute of any room changes. *)
Theorem room_link_is_two_way (directions : gmap string string)
    (store : gmap (nat * string) attr) (a b : nat) (d r : string) :
  paired directions ->
  directions !! d = Some r ->
  exists store',
    Room_setattr directions store a d (ARoom b) = Ok store' /\
    Room_exit directions store' a d = Ok (ARoom b) /\
    Room_exit directions store' b r = Ok (ARoom a) /\
    d ∈ Room_exits directions store' a /\
    r ∈ Room_exits directions store' b /\
    (forall x n, (x, n) <> (a, d) -> (x, n) <> (b, r) ->
                 getattr store' x n = getattr store x n).
Proof.
  intros Hp Hd. assert (Hr := Hp d r Hd).
  unfold Room_setattr. rewrite Hd. eexists. split; [reflexivity|].
  assert (Ha : getattr (<[(b, r) := ARoom a]> (<[(a, d) := ARoom b]> store)) a d = ARoom b).
  { unfold getattr. destruct (decide ((b, r) = (a, d))) as [Heq|Hne].
    - injection Heq as -> ->. rewrite lookup_insert_eq. reflexivity.
    - rewrite lookup_insert_ne by exact Hne. rewrite lookup_insert_eq. reflexivity. }
  assert (Hb : getattr (<[(b, r) := ARoom a]> (<[(a, d) := ARoom b]> store)) b r = ARoom a).
  { unfold getattr. rewrite lookup_insert_eq. reflexivity. }
  unfold Room_exit. rewrite !bool_decide_eq_true_2 by eauto. simpl negb. cbv iota.
  rewrite Ha, Hb. repeat split.
  - apply Room_exits_elem. rewrite Ha. eauto.
  - apply Room_exits_elem. rewrite Hb. eauto.
  - intros x n H1 H2. unfold getattr. rewrite !lookup_insert_ne by congruence. reflexivity.
Qed.

(** The theorem at the module's directions: [a.north = b]. *)
Lemma room_link_is_two_way_witness :
  let directions : gmap string string :=
    {[ "north" := "south"; "south" := "north"; "east" := "west"; "west" := "east" ]} in
  exists store',
    Room_setattr directions ∅ 1 "north" (ARoom 2) = Ok store' /\
    Room_exit directions store' 1 "north" = Ok (ARoom 2) /\
    Room_exit directions store' 2 "south" = Ok (ARoom 1) /\
    "north" ∈ Room_exits directions store' 1 /\
    "south" ∈ Room_exits directions store' 2 /\
    (forall x n, (x, n) <> (1%nat, "north") -> (x, n) <> (2%nat, "south") ->
                 getattr store' x n = getattr ∅ x n).
Proof.
  apply (room_link_is_two_way
           {[ "north" := "south"; "south" := "north"; "east" := "west"; "west" := "east" ]}
           ∅ 1 2 "north" "south").
  - apply module_directions_paired.
  - vm_compute. reflexivity.
Defined.

(** X23. Unlinking is one-way: after [a.d = b] and then [a.d = None], the
    room [a] has no exit in the direction [d], but [b] still has [a] as its
    exit in the reverse direction (unless [b.r] is the very attribute
    [a.d]). *)
Theorem room_unlink_is_one_way (directions : gmap string string)
    (store : gmap (nat * string) attr) (a b : nat) (d r : string) :
  paired directions ->
  directions !! d = Some r ->
  (b, r) <> (a, d) ->
  exists s1 s2,
    Room_setattr directions store a d (ARoom b) = Ok s1 /\
    Room_setattr directions s1 a d ANone = Ok s2 /\
    Room_exit directions s2 a d = Ok ANone /\
    (d ∉ Room_exits directions s2 a) /\
    Room_exit directions s2 b r = Ok (ARoom a) /\
    r ∈ Room_exits directions s2 b.
Proof.
  intros Hp Hd Hne. assert (Hr := Hp d r Hd).
  unfold Room_setattr. rewrite Hd. eexists. eexists.
  split; [reflexivity|]. split; [reflexivity|].
  set (s2 := <[(a, d) := ANone]> _).
  assert (Ha : getattr s2 a d = ANone).
  { unfold getattr, s2. rewrite lookup_insert_eq. reflexivity. }
  assert (Hb : getattr s2 b r = ARoom a).
  { unfold getattr, s2. rewrite lookup_insert_ne by congruence.
    rewrite lookup_insert_eq. reflexivity. }
  unfold Room_exit. rewrite !bool_decide_eq_true_2 by eauto. simpl negb. cbv iota.
  rewrite Ha, Hb. repeat split.
  - rewrite Room_exits_elem, Ha. simpl. intros [_ H]. discriminate.
  - apply Room_exits_elem. rewrite Hb. eauto.
Qed.

(** The theorem at the module's directions: [a.north = b], then
    [a.north = None]. *)
Lemma room_unlink_is_one_way_witness :
  let directions : gmap string string :=
    {[ "north" := "south"; "south" := "north"; "east" := "west"; "west" := "east" ]} in
  exists s1 s2,
    Room_setattr directions ∅ 1 "north" (ARoom 2) = Ok s1 /\
    Room_setattr directions s1 1 "north" ANone = Ok s2 /\
    Room_exit directions s2 1 "north" = Ok ANone /\
    ("north" ∉ Room_exits directions s2 1) /\
    Room_exit directions s2 2 "south" = Ok (ARoom 1) /\
    "south" ∈ Room_exits directions s2 2.
Proof.
  apply (room_unlink_is_one_way
           {[ "north" := "south"; "south" := "north"; "east" := "west"; "west" := "east" ]}
           ∅ 1 2 "north" "south").
  - apply module_directions_paired.
  - vm_compute. reflexivity.
  - discriminate.
Defined.

(** X24. [Room.exits] lists, in ascending order and without repetition,
    exactly the declared directions in which [Room.exit] returns a truthy
    value. For a name that is not a declared direction, [exit] raises
    [KeyError], assigning a room to it raises [InvalidDirection], and it is
    not among the exits. *)
Theorem room_exits_are_open_directions (directions : gmap string string)
    (store : gmap (nat * string) attr) (self : nat) :
  StronglySorted String.le (Room_exits directions store self) /\
  NoDup (Room_exits directions store self) /\
  (forall d, d ∈ Room_exits directions store self <->
             exists v, Room_exit directions store self d = Ok v /\ attr_truthy v = true) /\
  (forall d b,
      directions !! d = None ->
      Room_exit directions store self d = Err (KeyError d) /\
      Room_setattr directions store self d (ARoom b) = Err (InvalidDirection d) /\
      d ∉ Room_exits directions store self).
Proof.
  split; [|split; [|split]].
  - apply StronglySorted_merge_sort; apply _.
  - unfold Room_exits, sorted. rewrite merge_sort_Permutation.
    apply NoDup_filter, NoDup_elements.
  - intros d. rewrite Room_exits_elem. unfold Room_exit.
    destruct (directions !! d) as [r|] eqn:Hd.
    + rewrite bool_decide_eq_true_2 by eauto. simpl. split.
      * intros [_ H]. eauto.
      * intros (v & Hv & Ht). injection Hv as <-. eauto.
    + rewrite bool_decide_eq_false_2 by (intros [? ?]; discriminate). simpl. split.
      * intros [[? ?] _]. discriminate.
      * intros (v & Hv & _). discriminate.
  - intros d b Hd. unfold Room_exit, Room_setattr. rewrite Hd.
    rewrite bool_decide_eq_false_2 by (intros [? ?]; discriminate). simpl.
    repeat split. rewrite Room_exits_elem, Hd. intros [[? ?] _]. discriminate.
Qed.
